(** * Guitar chord-voicing engine of circle_of_fifths (src/utils/guitarChords.ts)

    A shallow embedding of the voicing search, the best-position driver, the
    fingering synthesizer and the reference-shape override, followed by the
    properties stated for them.

    Conventions of the embedding.
    - A JavaScript [number] holding a pitch, a fret, an index or a count is an
      integer here ([Z], or [nat] for array positions).  A playability score
      is a [Number]: a double, held as the rational it denotes, or
      [+Infinity].  The literals [0.2] and [0.3] are the doubles nearest to
      1/5 and 3/10, and every sum and product of scores is rounded to the
      nearest double as the source computes it ([Double_round]).  Sums of
      integers are exact in doubles and are taken in [Z].
    - A JavaScript [Set] is a [gset]; an array is a [list], read with [!!]
      and written with [<[i:=x]>].
    - The closure variables that [recordCandidate] and [walk] mutate
      ([selection], [voicings], [seenPatterns]) are threaded explicitly as a
      [SearchState]. *)

From Stdlib Require Import ZArith QArith Lqa Lia String Ascii DecimalString.
From Stdlib Require Import Sorted Permutation.
From stdpp Require Import base list gmap strings sorting.

Close Scope Q_scope.
Local Open Scope Z_scope.

(** ** JavaScript primitives *)

(** [String(n)] for an integer [n]. *)
Definition Number_toString (n : Z) : string :=
  NilZero.string_of_int (Z.to_int n).

(** [Array.prototype.join]. *)
Fixpoint Array_join (sep : string) (l : list string) : string :=
  match l with
  | [] => ""
  | [s] => s
  | s :: rest => s +:+ sep +:+ Array_join sep rest
  end.

(** [Array.prototype.sort(compareFn)].  The sort is stable; [negative a b]
    stands for [compareFn(a, b) < 0].  Elements are inserted from the right,
    each one in front of the first element that is not strictly before it,
    so equal elements keep their order. *)
Section ArraySort.
Context {A : Type} (negative : A → A → bool).

Fixpoint sort_insert (x : A) (l : list A) : list A :=
  match l with
  | [] => [x]
  | y :: l' => if negative y x then y :: sort_insert x l' else x :: y :: l'
  end.

Definition Array_sort (l : list A) : list A := foldr sort_insert [] l.

(** [a] may stand before [b]: [b] is not strictly before [a]. *)
Definition not_after (a b : A) : Prop := negative b a = false.
End ArraySort.

(** [Math.min(...l)] and [Math.max(...l)] on a non-empty array.  On an empty
    array JavaScript gives an infinity; every call below sits behind a length
    test, and the embedding returns [0] in that unreachable case. *)
Definition Math_min (l : list Z) : Z :=
  match l with
  | [] => 0
  | x :: xs => foldl Z.min x xs
  end.

Definition Math_max (l : list Z) : Z :=
  match l with
  | [] => 0
  | x :: xs => foldl Z.max x xs
  end.

(** *** Double arithmetic

    A double is held as the rational it denotes.  An operation of the source
    on doubles yields the double nearest to the exact result, a tie going to
    the even significand.  The significand has 53 bits; the exponent range
    of the format is not modelled, the scores being sums of a few small
    integers and multiples of [0.2] and [0.3]. *)

(** The integer nearest to [num / den], for [den > 0]; a tie goes to the
    even neighbour. *)
Definition roundHalfEven (num den : Z) : Z :=
  let quotient := num / den in
  let twice := 2 * (num mod den) in
  if twice <? den then quotient
  else if den <? twice then quotient + 1
  else if Z.even quotient then quotient else quotient + 1.

(** [significand * 2 ^ exponent] as a rational. *)
Definition Double_scale (significand exponent : Z) : Q :=
  if 0 <=? exponent then inject_Z (significand * 2 ^ exponent)
  else Qmake significand (Z.to_pos (2 ^ (- exponent))).

(** The double nearest to [num / den] for positive [num] and [den].  With
    [low] the quotient [num / (den * 2 ^ low)] lies between [2 ^ 52] and
    [2 ^ 54]; the exponent is [low], or [low + 1] when the quotient reaches
    [2 ^ 53], so that the quotient rounds to a significand of 53 bits. *)
Definition Double_round_pos (num den : Z) : Q :=
  let low := Z.log2 num - Z.log2 den - 53 in
  let exponent :=
    if (if 0 <=? low then num <? 2 ^ 53 * (den * 2 ^ low)
        else num * 2 ^ (- low) <? 2 ^ 53 * den)
    then low else low + 1 in
  let significand :=
    if 0 <=? exponent then roundHalfEven num (den * 2 ^ exponent)
    else roundHalfEven (num * 2 ^ (- exponent)) den in
  Double_scale significand exponent.

(** The double nearest to a rational; also the value of a decimal literal
    of the source. *)
Definition Double_round (q : Q) : Q :=
  match Qnum q with
  | 0 => 0%Q
  | Zpos _ => Double_round_pos (Qnum q) (Zpos (Qden q))
  | Zneg _ => Qopp (Double_round_pos (- Qnum q) (Zpos (Qden q)))
  end.

(** [x + y] and [x * y] on doubles. *)
Definition Double_add (x y : Q) : Q := Double_round (x + y)%Q.
Definition Double_mul (x y : Q) : Q := Double_round (x * y)%Q.

(** Scores: a double or [Number.POSITIVE_INFINITY]. *)
Inductive Number : Type :=
  | Finite (q : Q)
  | PositiveInfinity.

(** [a + b] on scores (no negative infinity arises, so no NaN). *)
Definition Number_add (a b : Number) : Number :=
  match a, b with
  | Finite x, Finite y => Finite (Double_add x y)
  | _, _ => PositiveInfinity
  end.

(** [a < b]. *)
Definition Number_lt (a b : Number) : bool :=
  match a, b with
  | Finite x, Finite y => bool_decide ((x ?= y)%Q = Lt)
  | Finite _, PositiveInfinity => true
  | PositiveInfinity, _ => false
  end.

(** [a - b < 0]: the test the sort makes on [(a, b) => a.score - b.score].
    The difference of two doubles rounds to a double of its own sign, so the
    test is made on the exact difference.  [Infinity - Infinity] is NaN,
    which is not negative. *)
Definition Number_sub_negative (a b : Number) : bool :=
  match a, b with
  | Finite x, Finite y => bool_decide ((x - y ?= 0)%Q = Lt)
  | Finite _, PositiveInfinity => true
  | PositiveInfinity, _ => false
  end.

(** The order on scores, as propositions. *)
Definition Number_le (a b : Number) : Prop :=
  match a, b with
  | Finite x, Finite y => (x <= y)%Q
  | _, PositiveInfinity => True
  | PositiveInfinity, Finite _ => False
  end.

Definition Number_lt_prop (a b : Number) : Prop :=
  match a, b with
  | Finite x, Finite y => (x < y)%Q
  | Finite _, PositiveInfinity => True
  | PositiveInfinity, _ => False
  end.

(** ** Data model *)

(** [type PitchClass = number] *)
Abbreviation PitchClass := Z (only parsing).

(** [type FretValue = number | 'x'] *)
Inductive FretValue : Type :=
  | Fret (n : Z)
  | X.

Global Instance FretValue_eq_dec : EqDecision FretValue.
Proof. solve_decision. Defined.

Record CandidateFret : Type := {
  fret : Z;
  pitchClass : PitchClass;
}.

Global Instance CandidateFret_eq_dec : EqDecision CandidateFret.
Proof. solve_decision. Defined.

(** [fretSpan: { min; max }]; the fields are [span_min] and [span_max]
    here. *)
Record FretSpan : Type := {
  span_min : Z;
  span_max : Z;
}.

Record ChordVoicing : Type := {
  frets : list FretValue;
  stringPitches : list (option PitchClass);
  fretSpan : FretSpan;
  windowStart : Z;
  windowEnd : Z;
}.

Record ScoredVoicing : Type := {
  voicing : ChordVoicing;
  score : Number;
}.

(** The [barre] member of [ChordDiagramShape] (src/types.ts). *)
Record Barre : Type := {
  barre_fret : Z;
  fromString : nat;
  toString : nat;
  finger : Z;
}.

(** [ChordDiagramShape] (src/types.ts); its fields carry the prefix
    [shape_], since [frets] already names the field of [ChordVoicing]. *)
Record ChordDiagramShape : Type := {
  shape_frets : list FretValue;
  shape_fingers : list (option Z);
  shape_startFret : Z;
  shape_barre : option Barre;
}.

Definition STANDARD_TUNING : list PitchClass := [4; 9; 2; 7; 11; 4].
Definition TOTAL_FRETS : Z := 12.
Definition WINDOW_FRET_SPAN : Z := 3.

(** ** Pitch helpers *)

(** [((value % 12) + 12) % 12]; JavaScript's [%] truncates, as [Z.rem]. *)
Definition normalizePitch (value : Z) : PitchClass :=
  Z.rem (Z.rem value 12 + 12) 12.

Definition getFifthIntervals (intervals : list Z) : list Z :=
  filter (λ interval, interval = 6 ∨ interval = 7 ∨ interval = 8) intervals.

Definition getRequiredIntervals (intervals : list Z) : list Z :=
  let third := List.find (λ interval, (interval =? 3) || (interval =? 4)) intervals in
  let fifths := getFifthIntervals intervals in
  [0] ++ (match third with Some t => [t] | None => [] end) ++ fifths.

Definition hasFifth (v : ChordVoicing) (root : PitchClass) (intervals : list Z) : bool :=
  let fifthIntervals : gset Z := list_to_set (getFifthIntervals intervals) in
  existsb (λ pitch : option PitchClass,
             match pitch with
             | None => false
             | Some p =>
                 let interval := normalizePitch (p - root) in
                 bool_decide (interval ∈ fifthIntervals)
             end) (stringPitches v).

(** ** Scoring *)

(** [frets.filter((fret) => fret !== 'x') as number[]] *)
Definition nonMutedFrets (fs : list FretValue) : list Z :=
  omap (λ f, match f with Fret n => Some n | X => None end) fs.

(** The body of the [for] loop of [getVoicingScore], at index [i]. *)
Definition jumpPenaltyStep (fs : list FretValue) (jumpPenalty : Z) (i : nat) : Z :=
  match fs !! i, fs !! S i with
  | Some (Fret current), Some (Fret next) =>
      let diff := Z.abs (current - next) in
      if 3 <? diff then jumpPenalty + (diff - 3) else jumpPenalty
  | _, _ => jumpPenalty
  end.

(** The loop itself, over [i = 0 .. frets.length - 2]. *)
Definition jumpPenaltyLoop (fs : list FretValue) : Z :=
  foldl (jumpPenaltyStep fs) 0 (seq 0 (length fs - 1)).

Definition getVoicingScore (v : ChordVoicing) (root : PitchClass) (targetStrings : Z) : Number :=
  let fs := nonMutedFrets (frets v) in
  if bool_decide (length fs = 0%nat) then PositiveInfinity
  else
    let minFret := Math_min fs in
    let maxFret := Math_max fs in
    let spanPenalty := (maxFret - minFret) * 2 in
    let mutedCount := Z.of_nat (length (filter (λ f, f = X) (frets v))) in
    let jumpPenalty := jumpPenaltyLoop (frets v) in
    let bassIndex := fst <$> list_find (λ f, f ≠ X) (frets v) in
    let bassPenalty :=
      match bassIndex with
      | None => 0
      | Some i =>
          match stringPitches v !! i with
          | Some None => 0
          | Some (Some bassPitch) => if bool_decide (bassPitch ≠ root) then 2 else 0
          | None => 2
          end
      end in
    let stringPenalty := Z.abs (targetStrings - Z.of_nat (length fs)) in
    let positionPenalty := Double_mul (inject_Z minFret) (Double_round 0.2%Q) in
    Finite (Double_add
              (inject_Z (spanPenalty + jumpPenalty + mutedCount + bassPenalty + stringPenalty))
              positionPenalty).

(** ** Voicing search *)

Record SearchState : Type := {
  selection : list (option CandidateFret);
  voicings : list ChordVoicing;
  seenPatterns : gset string;
}.

Definition FretValue_toString (f : FretValue) : string :=
  match f with
  | Fret n => Number_toString n
  | X => "x"
  end.

(** [strings.join('-')] *)
Definition pattern_of (strings : list FretValue) : string :=
  Array_join "-" (FretValue_toString <$> strings).

(** [for (let fret = windowStart; fret <= windowEnd; fret += 1)] *)
Definition fretRange (windowStart windowEnd : Z) : list Z :=
  seqZ windowStart (windowEnd - windowStart + 1).

(** [selection.map((choice) => (choice ? choice.fret : 'x'))] *)
Definition selectionFrets (sel : list (option CandidateFret)) : list FretValue :=
  (λ choice, match choice with Some c => Fret (fret c) | None => X end) <$> sel.

(** [selection.map((choice) => (choice ? choice.pitchClass : null))] *)
Definition selectionPitches (sel : list (option CandidateFret)) : list (option PitchClass) :=
  (λ choice, match choice with Some c => Some (pitchClass c) | None => None end) <$> sel.

(** The parameters of [generateChordVoicings] are the variables of the
    section; its locals [windowStart], [windowEnd], [toneSet], [intervals] and
    [requiredIntervals] carry the prefix [search_], since [windowStart] and
    [windowEnd] already name fields of [ChordVoicing]. *)
Section Search.
Variables (chordTones : list PitchClass) (root : PitchClass) (startFret : Z).

Definition search_windowStart : Z :=
  let allowOpen := startFret <=? 1 in
  if allowOpen then 0 else startFret.

Definition search_windowEnd : Z :=
  Z.min (search_windowStart + WINDOW_FRET_SPAN) TOTAL_FRETS.

Definition search_toneSet : gset PitchClass := list_to_set chordTones.

Definition search_intervals : list Z :=
  Array_sort (λ a b, a - b <? 0) ((λ tone, normalizePitch (tone - root)) <$> chordTones).

Definition search_requiredIntervals : gset Z :=
  list_to_set (getRequiredIntervals search_intervals).

Definition candidatesPerString : list (list CandidateFret) :=
  (λ openPitch,
     omap (λ fret,
             let pitchClass := normalizePitch (openPitch + fret) in
             if bool_decide (pitchClass ∈ search_toneSet)
             then Some {| fret := fret; pitchClass := pitchClass |}
             else None)
          (fretRange search_windowStart search_windowEnd))
  <$> STANDARD_TUNING.

Definition hasRequiredToneOnString : list bool :=
  (λ openPitch,
     existsb (λ fret,
                let interval := normalizePitch (openPitch + fret - root) in
                bool_decide (interval ∈ search_requiredIntervals))
             (fretRange search_windowStart search_windowEnd))
  <$> STANDARD_TUNING.

Definition minStrings : nat := 3.
Definition maxStrings : nat := 6.

Definition recordCandidate (st : SearchState) : SearchState :=
  let activeStrings := omap id (selection st) in
  let activeCount := length activeStrings in
  if (activeCount <? minStrings)%nat || (maxStrings <? activeCount)%nat then st
  else
    let intervalsPresent : gset Z :=
      list_to_set ((λ choice, normalizePitch (pitchClass choice - root)) <$> activeStrings) in
    let frets := fret <$> activeStrings in
    let missingRequired :=
      existsb (λ interval, negb (bool_decide (interval ∈ intervalsPresent)))
              (elements search_requiredIntervals) in
    if missingRequired then st
    else
      let minFret := Math_min frets in
      let maxFret := Math_max frets in
      if WINDOW_FRET_SPAN <? maxFret - minFret then st
      else
        let strings := selectionFrets (selection st) in
        if existsb (λ stringIndex,
                      bool_decide (strings !! stringIndex = Some X)
                      && default false (hasRequiredToneOnString !! stringIndex))
                   (seq 0 (length strings))
        then st
        else
          let pattern := pattern_of strings in
          if bool_decide (pattern ∈ seenPatterns st) then st
          else
            let stringPitches := selectionPitches (selection st) in
            {| selection := selection st;
               voicings := voicings st ++
                 [ {| frets := strings;
                      stringPitches := stringPitches;
                      fretSpan := {| span_min := minFret; span_max := maxFret |};
                      windowStart := search_windowStart;
                      windowEnd := search_windowEnd |} ];
               seenPatterns := {[ pattern ]} ∪ seenPatterns st |}.

(** [selection[stringIndex] = choice] *)
Definition set_selection (stringIndex : nat) (choice : option CandidateFret)
    (st : SearchState) : SearchState :=
  {| selection := <[stringIndex := choice]> (selection st);
     voicings := voicings st;
     seenPatterns := seenPatterns st |}.

(** [walk(stringIndex, activeCount)].  The recursion is on the source's
    [remaining = 6 - stringIndex]; [stringIndex === 6] is [remaining = 0].
    Below that, [stringIndex < 6]: [candidatesPerString[stringIndex]] is
    defined and the writes to [selection] stay inside its six slots. *)
Fixpoint walk (remaining : nat) (stringIndex activeCount : nat)
    (st : SearchState) : SearchState :=
  match remaining with
  | O => recordCandidate st
  | S remaining' =>
      if (maxStrings <? activeCount)%nat || (activeCount + remaining <? minStrings)%nat
      then st
      else
        let candidates := default [] (candidatesPerString !! stringIndex) in
        let st := set_selection stringIndex None st in
        let st := walk remaining' (S stringIndex) activeCount st in
        foldl (λ st candidate,
                 let st := set_selection stringIndex (Some candidate) st in
                 let st := walk remaining' (S stringIndex) (S activeCount) st in
                 set_selection stringIndex None st)
              st candidates
  end.

Definition search_initial : SearchState :=
  {| selection := replicate 6 None; voicings := []; seenPatterns := ∅ |}.

(** The array [voicings] once [walk(0, 0)] has returned. *)
Definition enumerateVoicings : list ChordVoicing :=
  voicings (walk 6 0 0 search_initial).

Definition generateChordVoicings : list ScoredVoicing :=
  let voicings := enumerateVoicings in
  let hasCompleteTriad := existsb (λ v, hasFifth v root search_intervals) voicings in
  let filteredVoicings :=
    if hasCompleteTriad
    then filter (λ v, hasFifth v root search_intervals = true) voicings
    else voicings in
  Array_sort (λ a b, Number_sub_negative (score a) (score b))
    ((λ v, {| voicing := v; score := getVoicingScore v root 4 |}) <$> filteredVoicings).
End Search.


(** ** Fingering synthesizer *)

Record FrettedNote : Type := {
  note_fret : Z;
  note_index : nat;
}.

(** [frets.map((fret, index) => typeof fret === 'number' && fret > 0
      ? { fret, index } : null).filter(Boolean)] *)
Definition frettedNotes (fs : list FretValue) : list FrettedNote :=
  omap id
    (imap (λ index f,
             match f with
             | Fret n => if 0 <? n then Some {| note_fret := n; note_index := index |} else None
             | X => None
             end) fs).

(** [Math.min] and [Math.max] on a non-empty array of string indices. *)
Definition Math_min_nat (l : list nat) : nat :=
  match l with
  | [] => 0
  | x :: xs => foldl Nat.min x xs
  end.

Definition Math_max_nat (l : list nat) : nat :=
  match l with
  | [] => 0
  | x :: xs => foldl Nat.max x xs
  end.

Definition detectBarre (fs : list FretValue) : option Barre :=
  let fretted := frettedNotes fs in
  if bool_decide (length fretted = 0%nat) then None
  else
    let minFret := Math_min (note_fret <$> fretted) in
    let barreStrings :=
      note_index <$> filter (λ note, note_fret note = minFret) fretted in
    if (length barreStrings <? 2)%nat then None
    else Some {| barre_fret := minFret;
                 fromString := Math_min_nat barreStrings;
                 toString := Math_max_nat barreStrings;
                 finger := 1 |}.

(** [Array.from(new Set(l))]: first occurrences, in insertion order. *)
Definition Set_toArray (l : list Z) : list Z :=
  foldl (λ acc x, if bool_decide (x ∈ acc) then acc else acc ++ [x]) [] l.

(** [a[i] = x] on an array of [number | null]: a write past the end extends
    the array (the holes read as no finger). *)
Definition Array_set {A} (hole : A) (i : nat) (x : A) (l : list A) : list A :=
  if (i <? length l)%nat then <[i := x]> l
  else l ++ replicate (i - length l) hole ++ [x].

Definition assignFingerNumbers (fs : list FretValue) : list (option Z) :=
  let fretted := frettedNotes fs in
  let fingers : list (option Z) := replicate 6 None in
  if bool_decide (length fretted = 0%nat) then fingers
  else
    let uniqueFrets :=
      Array_sort (λ a b, a - b <? 0) (Set_toArray (note_fret <$> fretted)) in
    foldl (λ fingers '(idx, fret),
             let finger := Z.min (Z.of_nat idx + 1) 4 in
             foldl (λ fingers note, Array_set None (note_index note) (Some finger) fingers)
                   fingers
                   (filter (λ note, note_fret note = fret) fretted))
          fingers (imap (λ idx fret, (idx, fret)) uniqueFrets).

Definition buildChordShape (fs : list FretValue)
    (providedFingers : option (list (option Z))) : ChordDiagramShape :=
  let numericFrets := note_fret <$> frettedNotes fs in
  let minFret := if bool_decide (length numericFrets = 0%nat) then 1 else Math_min numericFrets in
  let startFret := if 1 <? minFret then minFret else 1 in
  let fingers := default (assignFingerNumbers fs) providedFingers in
  let barre := detectBarre fs in
  {| shape_frets := fs;
     shape_fingers := fingers;
     shape_startFret := startFret;
     shape_barre := barre |}.

(** ** Best-position driver *)

(** One iteration of the [for] loop of [getBestVoicingShape]. *)
Definition bestStep (chordTones : list PitchClass) (root : PitchClass)
    (best : option ScoredVoicing) (startFret : Z) : option ScoredVoicing :=
  let scored := generateChordVoicings chordTones root startFret in
  match scored !! 0%nat with
  | None => best
  | Some candidate =>
      let adjustedScore :=
        Number_add (score candidate)
          (Finite (Double_mul (inject_Z startFret) (Double_round 0.3%Q))) in
      match best with
      | None => Some candidate
      | Some b =>
          if Number_lt adjustedScore
               (Number_add (score b)
                  (Finite (Double_mul (inject_Z (windowStart (voicing b)))
                             (Double_round 0.3%Q))))
          then Some candidate
          else best
      end
  end.

(** [best] after the iterations [startFret = 1 .. upto]. *)
Definition bestAfter (chordTones : list PitchClass) (root : PitchClass)
    (upto : nat) : option ScoredVoicing :=
  foldl (bestStep chordTones root) None (seqZ 1 (Z.of_nat upto)).

Definition getBestVoicingShape (chordTones : list PitchClass) (root : PitchClass)
    : ChordDiagramShape :=
  match bestAfter chordTones root (Z.to_nat TOTAL_FRETS) with
  | None => buildChordShape [X; X; X; X; X; X] None
  | Some best => buildChordShape (frets (voicing best)) None
  end.

(** ** Diatonic chord diagrams and the reference-shape override *)

Inductive SpellingMode : Type := Auto | Sharps | Flats.

(** [type Tonality = 'major' | 'minor'] *)
Inductive Tonality : Type := MajorTonality | MinorTonality.

Definition Tonality_toString (t : Tonality) : string :=
  match t with
  | MajorTonality => "major"
  | MinorTonality => "minor"
  end.

Record CurrentKeyData : Type := {
  index : Z;
  major : string;
  minor : string;
}.

Record DiatonicChordDiagram : Type := {
  diagram_id : string;
  diagram_degree : string;
  diagram_name : string;
  diagram_shape : ChordDiagramShape;
}.

Definition MAJOR_INTERVALS : list Z := [0; 2; 4; 5; 7; 9; 11].
Definition MINOR_INTERVALS : list Z := [0; 2; 3; 5; 7; 8; 10].

Definition ROMAN_MAJOR : list string := ["I"; "ii"; "iii"; "IV"; "V"; "vi"; "vii°"].
Definition ROMAN_MINOR : list string := ["i"; "ii°"; "III"; "iv"; "v"; "VI"; "VII"].

Definition LETTERS : list string := ["C"; "D"; "E"; "F"; "G"; "A"; "B"].

Definition LETTER_TO_PC : gmap string PitchClass :=
  list_to_map [("C", 0); ("D", 2); ("E", 4); ("F", 5); ("G", 7); ("A", 9); ("B", 11)].

Record PreferredShape : Type := {
  preferred_frets : list FretValue;
  preferred_fingers : list (option Z);
}.

Definition PREFERRED_SHAPES : gmap string PreferredShape :=
  list_to_map [
    ("C", {| preferred_frets := [X; Fret 3; Fret 2; Fret 0; Fret 1; Fret 0];
             preferred_fingers := [None; Some 3; Some 2; None; Some 1; None] |});
    ("D", {| preferred_frets := [X; X; Fret 0; Fret 2; Fret 3; Fret 2];
             preferred_fingers := [None; None; None; Some 1; Some 3; Some 2] |});
    ("E", {| preferred_frets := [Fret 0; Fret 2; Fret 2; Fret 1; Fret 0; Fret 0];
             preferred_fingers := [None; Some 2; Some 3; Some 1; None; None] |});
    ("G", {| preferred_frets := [Fret 3; Fret 2; Fret 0; Fret 0; Fret 0; Fret 3];
             preferred_fingers := [Some 2; Some 1; None; None; None; Some 3] |});
    ("A", {| preferred_frets := [X; Fret 0; Fret 2; Fret 2; Fret 2; Fret 0];
             preferred_fingers := [None; None; Some 1; Some 2; Some 3; None] |});
    ("Am", {| preferred_frets := [X; Fret 0; Fret 2; Fret 2; Fret 1; Fret 0];
              preferred_fingers := [None; None; Some 2; Some 3; Some 1; None] |});
    ("Em", {| preferred_frets := [Fret 0; Fret 2; Fret 2; Fret 0; Fret 0; Fret 0];
              preferred_fingers := [None; Some 2; Some 3; None; None; None] |});
    ("Dm", {| preferred_frets := [X; X; Fret 0; Fret 2; Fret 3; Fret 1];
              preferred_fingers := [None; None; None; Some 2; Some 3; Some 1] |});
    ("F", {| preferred_frets := [Fret 1; Fret 3; Fret 3; Fret 2; Fret 1; Fret 1];
             preferred_fingers := [Some 1; Some 3; Some 4; Some 2; Some 1; Some 1] |});
    ("Bm", {| preferred_frets := [X; Fret 2; Fret 4; Fret 4; Fret 3; Fret 2];
              preferred_fingers := [None; Some 1; Some 3; Some 4; Some 2; Some 1] |});
    ("B", {| preferred_frets := [X; Fret 2; Fret 4; Fret 4; Fret 4; Fret 2];
             preferred_fingers := [None; Some 1; Some 3; Some 3; Some 3; Some 1] |})
  ].

(** *** String primitives *)

Definition String_endsWith (suffix s : string) : bool :=
  let n := String.length s in
  let k := String.length suffix in
  (k <=? n)%nat && bool_decide (String.substring (n - k) k s = suffix).

(** [s.slice(0, -1)] *)
Definition String_dropLast (s : string) : string :=
  String.substring 0 (String.length s - 1) s.

(** [s.slice(1)] *)
Definition String_dropFirst (s : string) : string :=
  match s with
  | EmptyString => EmptyString
  | String _ rest => rest
  end.

Definition isWhiteSpace (c : ascii) : bool :=
  let n := nat_of_ascii c in
  (n =? 32)%nat || ((9 <=? n)%nat && (n <=? 13)%nat).

Fixpoint String_trimStart (s : string) : string :=
  match s with
  | EmptyString => EmptyString
  | String c rest => if isWhiteSpace c then String_trimStart rest else s
  end.

Fixpoint String_trimEnd (s : string) : string :=
  match s with
  | EmptyString => EmptyString
  | String c rest =>
      match String_trimEnd rest with
      | EmptyString => if isWhiteSpace c then EmptyString else String c EmptyString
      | rest' => String c rest'
      end
  end.

Definition String_trim (s : string) : string := String_trimEnd (String_trimStart s).

Definition Char_toUpperCase (c : ascii) : ascii :=
  let n := nat_of_ascii c in
  if (97 <=? n)%nat && (n <=? 122)%nat then ascii_of_nat (n - 32) else c.

Fixpoint String_repeat (s : string) (count : nat) : string :=
  match count with
  | O => EmptyString
  | S count' => s +:+ String_repeat s count'
  end.

(** [a.indexOf(x)]; [None] stands for [-1]. *)
Definition Array_indexOf (x : string) (l : list string) : option nat :=
  fst <$> list_find (λ y, y = x) l.

(** [[index, value]] pairs of an array, as the callbacks of [map] and
    [forEach] receive them. *)
Definition Array_entries {A} (l : list A) : list (nat * A) :=
  imap (λ i x, (i, x)) l.

(** *** Note names and scales *)

Definition stripMinorSuffix (note : string) : string :=
  if String_endsWith "m" note then String_dropLast note else note.

Record ParsedNote : Type := {
  letter : string;
  accidental : Z;
  parsed_pitchClass : PitchClass;
}.

(** [parseNoteName].  The result is [None] where the source leaves the
    integers: on an empty name [trimmed[0].toUpperCase()] throws, and on a
    first character outside [LETTERS] the pitch-class is NaN. *)
Definition parseNoteName (note : string) : option ParsedNote :=
  let trimmed := String_trim note in
  first ← String.get 0 trimmed;
  let letter := String (Char_toUpperCase first) EmptyString in
  let accidentalPart := String_dropFirst trimmed in
  let accidental :=
    foldl (λ accidental char,
             let accidental := if bool_decide (char = "#"%char) then accidental + 1 else accidental in
             if bool_decide (char = "b"%char) then accidental - 1 else accidental)
          0 (list_ascii_of_string accidentalPart) in
  base ← LETTER_TO_PC !! letter;
  Some {| letter := letter;
          accidental := accidental;
          parsed_pitchClass := normalizePitch (base + accidental) |}.

Definition formatAccidental (value : Z) : string :=
  if value =? 0 then ""
  else if 0 <? value then String_repeat "#" (Z.to_nat value)
  else String_repeat "b" (Z.to_nat (Z.abs value)).

Record ScaleNote : Type := {
  scale_name : string;
  scale_pitchClass : PitchClass;
}.

Definition getScaleNotes (rootName : string) (intervals : list Z) : option (list ScaleNote) :=
  parsed ← parseNoteName rootName;
  let rootLetter := letter parsed in
  let rootPc := parsed_pitchClass parsed in
  rootIndex ← Array_indexOf rootLetter LETTERS;
  mapM (λ '(degree, interval),
          let letterIndex := ((rootIndex + degree) mod 7)%nat in
          letter ← LETTERS !! letterIndex;
          let targetPc := normalizePitch (rootPc + interval) in
          basePc ← LETTER_TO_PC !! letter;
          let diff := normalizePitch (targetPc - basePc) in
          let accidental := if diff <=? 6 then diff else diff - 12 in
          Some {| scale_name := letter +:+ formatAccidental accidental;
                  scale_pitchClass := targetPc |})
       (Array_entries intervals).

Definition getChordQuality (intervals : list Z) : string :=
  let key := Array_join "," (Number_toString <$> intervals) in
  if bool_decide (key = "0,4,7") then "major"
  else if bool_decide (key = "0,3,7") then "minor"
  else if bool_decide (key = "0,3,6") then "diminished"
  else if bool_decide (key = "0,4,8") then "augmented"
  else "major".

Definition getChordSuffix (quality : string) : string :=
  if bool_decide (quality = "minor") then "m"
  else if bool_decide (quality = "diminished") then "dim"
  else if bool_decide (quality = "augmented") then "aug"
  else "".

(** [getDiatonicChordDiagrams]; [None] only where [getScaleNotes] is. *)
Definition getDiatonicChordDiagrams (currentKey : CurrentKeyData)
    (spellingMode : SpellingMode) (tonality : Tonality)
    : option (list DiatonicChordDiagram) :=
  let keyName := match tonality with MajorTonality => major currentKey | MinorTonality => minor currentKey end in
  let rootName := stripMinorSuffix keyName in
  let intervals := match tonality with MajorTonality => MAJOR_INTERVALS | MinorTonality => MINOR_INTERVALS end in
  scaleNotes ← getScaleNotes rootName intervals;
  let degreeLabels := match tonality with MajorTonality => ROMAN_MAJOR | MinorTonality => ROMAN_MINOR end in
  mapM (λ '(index, note),
          tone0 ← scale_pitchClass <$> scaleNotes !! (index mod 7)%nat;
          tone2 ← scale_pitchClass <$> scaleNotes !! ((index + 2) mod 7)%nat;
          tone4 ← scale_pitchClass <$> scaleNotes !! ((index + 4) mod 7)%nat;
          let chordTones := [tone0; tone2; tone4] in
          let intervalsFromRoot :=
            Array_sort (λ a b, a - b <? 0)
              ((λ tone, normalizePitch (tone - scale_pitchClass note)) <$> chordTones) in
          let quality := getChordQuality intervalsFromRoot in
          let suffix := getChordSuffix quality in
          let chordName := scale_name note +:+ suffix in
          let preferredShape := PREFERRED_SHAPES !! chordName in
          let shape :=
            match preferredShape with
            | Some p => buildChordShape (preferred_frets p) (Some (preferred_fingers p))
            | None => getBestVoicingShape chordTones (scale_pitchClass note)
            end in
          Some {| diagram_id :=
                    Tonality_toString tonality +:+ "-" +:+ Number_toString (Z.of_nat index)
                    +:+ "-" +:+ chordName;
                  diagram_degree :=
                    default (Number_toString (Z.of_nat index + 1)) (degreeLabels !! index);
                  diagram_name := chordName;
                  diagram_shape := shape |})
       (Array_entries scaleNotes).

(** ** Keys of the circle (src/utils/musicTheory.ts) *)

(** [KeyDefinition] (src/types.ts); its fields [major] and [minor] are
    [key_majors] and [key_minors] here. *)
Record KeyDefinition : Type := {
  key_majors : list string;
  key_minors : list string;
}.

Definition CIRCLE_DATA : list KeyDefinition := [
  {| key_majors := ["C"]; key_minors := ["Am"] |};
  {| key_majors := ["G"]; key_minors := ["Em"] |};
  {| key_majors := ["D"]; key_minors := ["Bm"] |};
  {| key_majors := ["A"]; key_minors := ["F#m"; "Gbm"] |};
  {| key_majors := ["E"]; key_minors := ["C#m"; "Dbm"] |};
  {| key_majors := ["B"; "Cb"]; key_minors := ["G#m"; "Abm"] |};
  {| key_majors := ["F#"; "Gb"]; key_minors := ["D#m"; "Ebm"] |};
  {| key_majors := ["C#"; "Db"]; key_minors := ["A#m"; "Bbm"] |};
  {| key_majors := ["G#"; "Ab"]; key_minors := ["Fm"] |};
  {| key_majors := ["D#"; "Eb"]; key_minors := ["Cm"] |};
  {| key_majors := ["A#"; "Bb"]; key_minors := ["Gm"] |};
  {| key_majors := ["F"]; key_minors := ["Dm"] |}
].

(** [getKeyDataAtIndex].  The result is [None] where an array read of the
    source would be [undefined]. *)
Definition getKeyDataAtIndex (index : Z) (mode : SpellingMode) : option CurrentKeyData :=
  let normalizedIndex := Z.rem (Z.rem index 12 + 12) 12 in
  data ← CIRCLE_DATA !! Z.to_nat normalizedIndex;
  major0 ← key_majors data !! 0%nat;
  minor0 ← key_minors data !! 0%nat;
  major ←
    (if (1 <? length (key_majors data))%nat then
       match mode with
       | Flats => key_majors data !! 1%nat
       | Sharps => key_majors data !! 0%nat
       | Auto =>
           major ← (if (5 <? normalizedIndex) || (normalizedIndex =? 11)
                    then key_majors data !! 1%nat else Some major0);
           if normalizedIndex =? 6 then key_majors data !! 0%nat else Some major
       end
     else Some major0);
  minor ←
    (if (1 <? length (key_minors data))%nat then
       match mode with
       | Flats => key_minors data !! 1%nat
       | _ => key_minors data !! 0%nat
       end
     else Some minor0);
  Some {| index := normalizedIndex; major := major; minor := minor |}.

(** The object [getContextKeys] returns; its fields [left], [center] and
    [right] carry the prefix [context_]. *)
Record ContextKeys : Type := {
  context_left : CurrentKeyData;
  context_center : CurrentKeyData;
  context_right : CurrentKeyData;
}.

Definition getContextKeys (currentIndex : Z) (mode : SpellingMode) : option ContextKeys :=
  l ← getKeyDataAtIndex (currentIndex - 1) mode;
  c ← getKeyDataAtIndex currentIndex mode;
  r ← getKeyDataAtIndex (currentIndex + 1) mode;
  Some {| context_left := l; context_center := c; context_right := r |}.

(** ** The chord diagram (component [GuitarChordDiagram])

    The part of the component that decides what is drawn: the visible fret
    window, the barre kept for display, and the mark of each string. *)

Definition fretCount : Z := 4.

Definition diagram_windowStart (shape : ChordDiagramShape) : Z :=
  if 1 <? shape_startFret shape then shape_startFret shape else 1.

Definition diagram_windowEnd (shape : ChordDiagramShape) : Z :=
  diagram_windowStart shape + fretCount - 1.

Definition diagram_showNut (shape : ChordDiagramShape) : bool :=
  shape_startFret shape <=? 1.

(** [shape.barre && shape.barre.fret >= windowStart
      && shape.barre.fret <= windowEnd ? shape.barre : null] *)
Definition diagram_barre (shape : ChordDiagramShape) : option Barre :=
  match shape_barre shape with
  | Some b =>
      if (diagram_windowStart shape <=? barre_fret b)
         && (barre_fret b <=? diagram_windowEnd shape)
      then Some b else None
  | None => None
  end.

(** What the callback of [shape.frets.map] draws for one string: the muted
    cross, the open circle, nothing ([null]), or a dot at [offset] with the
    finger number when [shape.fingers[stringIndex]] is truthy. *)
Inductive StringMark : Type :=
  | MutedMark
  | OpenMark
  | NoMark
  | DotMark (offset : Z) (fingerLabel : option Z).

Definition diagram_mark (shape : ChordDiagramShape) (stringIndex : nat) (f : FretValue)
    : StringMark :=
  match f with
  | X => MutedMark
  | Fret n =>
      if n =? 0 then OpenMark
      else
        let offset := n - diagram_windowStart shape in
        if (offset <? 0) || (fretCount + 1 <=? offset) then NoMark
        else
          DotMark offset
            match shape_fingers shape !! stringIndex with
            | Some (Some k) => if k =? 0 then None else Some k
            | _ => None
            end
  end.

Definition diagram_marks (shape : ChordDiagramShape) : list StringMark :=
  imap (diagram_mark shape) (shape_frets shape).

(** ** The tritone substitution ([getTritoneSub], component [InfoPanel])

    The result is [None] where the array read of the source is
    [undefined]: the remainder is negative for an index below -6. *)
Definition getTritoneSub (index : Z) : option string :=
  let tritoneIndex := Z.rem (index + 6) 12 in
  let oppositeLabels := ["C"; "G"; "D"; "A"; "E"; "B"; "F#"; "Db"; "Ab"; "Eb"; "Bb"; "F"] in
  if tritoneIndex <? 0 then None else oppositeLabels !! Z.to_nat tritoneIndex.

(** * Vocabulary of the properties *)

Section SearchVocabulary.
Variables (chordTones : list PitchClass) (root : PitchClass) (startFret : Z).

(** Every chosen entry of [selection] comes from the candidates of its own
    string. *)
Definition SelectionOK (sel : list (option CandidateFret)) : Prop :=
  length sel = 6%nat ∧
  ∀ i c, sel !! i = Some (Some c) →
         ∃ cs, candidatesPerString chordTones startFret !! i = Some cs ∧ c ∈ cs.

(** The tests a full assignment passes before [recordCandidate] looks at
    [seenPatterns]. *)
Definition Accepted (sel : list (option CandidateFret)) : Prop :=
  let activeStrings := omap id sel in
  (3 ≤ length activeStrings ≤ 6)%nat ∧
  (∀ interval, interval ∈ search_requiredIntervals chordTones root →
     ∃ c, c ∈ activeStrings ∧ normalizePitch (pitchClass c - root) = interval) ∧
  Math_max (fret <$> activeStrings) - Math_min (fret <$> activeStrings) ≤ WINDOW_FRET_SPAN ∧
  (∀ i, selectionFrets sel !! i = Some X →
        hasRequiredToneOnString chordTones root startFret !! i ≠ Some true).

(** The voicing [recordCandidate] pushes for a selection. *)
Definition selectionVoicing (sel : list (option CandidateFret)) : ChordVoicing :=
  let activeStrings := omap id sel in
  {| frets := selectionFrets sel;
     stringPitches := selectionPitches sel;
     fretSpan := {| span_min := Math_min (fret <$> activeStrings);
                    span_max := Math_max (fret <$> activeStrings) |};
     windowStart := search_windowStart startFret;
     windowEnd := search_windowEnd startFret |}.

Definition Recorded (v : ChordVoicing) : Prop :=
  ∃ sel, SelectionOK sel ∧ Accepted sel ∧ v = selectionVoicing sel.

(** The fifth-completeness filter of [generateChordVoicings]. *)
Definition filterComplete (vs : list ChordVoicing) : list ChordVoicing :=
  if existsb (λ v, hasFifth v root (search_intervals chordTones root)) vs
  then filter (λ v, hasFifth v root (search_intervals chordTones root) = true) vs
  else vs.

(** The invariant of the search state. *)
Definition SearchInv (st : SearchState) : Prop :=
  SelectionOK (selection st) ∧
  Forall Recorded (voicings st) ∧
  (∀ v, v ∈ voicings st → pattern_of (frets v) ∈ seenPatterns st) ∧
  NoDup ((λ v, pattern_of (frets v)) <$> voicings st).
End SearchVocabulary.

(** ** The chord as the specification names it *)

(** The chord's interval set relative to the root. *)
Definition chordIntervals (chordTones : list PitchClass) (root : PitchClass) : list Z :=
  (λ tone, (tone - root) `mod` 12) <$> chordTones.

(** Fifth-family intervals: 6, 7 or 8 semitones above the root. *)
Definition FifthFamily (interval : Z) : Prop :=
  interval = 6 ∨ interval = 7 ∨ interval = 8.

(** RequiredIntervals: the root 0; the third, which is 3 when the chord has a
    minor third and otherwise 4 when it has a major third; every
    fifth-family interval of the chord. *)
Definition RequiredInterval (chordTones : list PitchClass) (root : PitchClass)
    (interval : Z) : Prop :=
  interval = 0 ∨
  (interval = 3 ∧ 3 ∈ chordIntervals chordTones root) ∨
  (interval = 4 ∧ 4 ∈ chordIntervals chordTones root ∧ 3 ∉ chordIntervals chordTones root) ∨
  (FifthFamily interval ∧ interval ∈ chordIntervals chordTones root).

(** A voicing sounds an interval when some string's recorded pitch-class
    lies that many semitones above the root. *)
Definition Sounds (v : ChordVoicing) (root : PitchClass) (interval : Z) : Prop :=
  ∃ (k : nat) (p : PitchClass),
    stringPitches v !! k = Some (Some p) ∧ (p - root) `mod` 12 = interval.

(** A voicing sounds a fifth-family interval present in the chord. *)
Definition SoundsFifth (chordTones : list PitchClass) (root : PitchClass)
    (v : ChordVoicing) : Prop :=
  ∃ interval, FifthFamily interval ∧ interval ∈ chordIntervals chordTones root ∧
              Sounds v root interval.

(** The active window of a search. *)
Definition windowStartOf (startFret : Z) : Z :=
  if decide (startFret ≤ 1) then 0 else startFret.

Definition windowEndOf (startFret : Z) : Z :=
  Z.min (windowStartOf startFret + 3) 12.

(** ** The score as the specification words it *)

(** For every pair of adjacent strings that are both sounded and whose frets
    differ by [d > 3], the excess [d - 3]. *)
Fixpoint adjacentJumps (fs : list FretValue) : Z :=
  match fs with
  | [] => 0
  | f :: rest =>
      match f, rest with
      | Fret a, Fret b :: _ =>
          let d := Z.abs (a - b) in
          (if decide (3 < d) then d - 3 else 0) + adjacentJumps rest
      | _, _ => adjacentJumps rest
      end
  end.

Definition mutedStrings (fs : list FretValue) : Z :=
  Z.of_nat (length (filter (λ f, f = X) fs)).

Definition soundedStrings (fs : list FretValue) : Z :=
  Z.of_nat (length (filter (λ f, f ≠ X) fs)).

(** 2 when the lowest-index sounded string's pitch-class is not the root. *)
Definition nonRootBass (pitches : list (option Z)) (root : Z) : Z :=
  match omap id pitches with
  | [] => 0
  | bass :: _ => if decide (bass = root) then 0 else 2
  end.

(** [m] is the lowest (resp. highest) fret among the sounded strings. *)
Definition LowestFret (fs : list FretValue) (m : Z) : Prop :=
  Fret m ∈ fs ∧ ∀ a, Fret a ∈ fs → m ≤ a.

Definition HighestFret (fs : list FretValue) (m : Z) : Prop :=
  Fret m ∈ fs ∧ ∀ a, Fret a ∈ fs → a ≤ m.

(** ** Triads *)

Definition majorTriad (root : PitchClass) : list PitchClass :=
  [root; (root + 4) `mod` 12; (root + 7) `mod` 12].

Definition minorTriad (root : PitchClass) : list PitchClass :=
  [root; (root + 3) `mod` 12; (root + 7) `mod` 12].

(** The all-muted placeholder shape. *)
Definition allMutedShape : ChordDiagramShape :=
  {| shape_frets := [X; X; X; X; X; X];
     shape_fingers := [None; None; None; None; None; None];
     shape_startFret := 1;
     shape_barre := None |}.

(** A six-string shape with between 3 and 6 sounded strings (as a test). *)
Definition soundedShape (shape : ChordDiagramShape) : bool :=
  bool_decide (length (shape_frets shape) = 6%nat) &&
  (3 <=? soundedStrings (shape_frets shape)) &&
  (soundedStrings (shape_frets shape) <=? 6).

(** The key names of [CIRCLE_DATA] (src/utils/musicTheory.ts), from which
    [getKeyDataAtIndex] takes the [major] and [minor] of a [CurrentKeyData]. *)
Definition CIRCLE_MAJOR_NAMES : list string :=
  ["C"; "G"; "D"; "A"; "E"; "B"; "Cb"; "F#"; "Gb"; "C#"; "Db"; "G#"; "Ab";
   "D#"; "Eb"; "A#"; "Bb"; "F"].

Definition CIRCLE_MINOR_NAMES : list string :=
  ["Am"; "Em"; "Bm"; "F#m"; "Gbm"; "C#m"; "Dbm"; "G#m"; "Abm"; "D#m"; "Ebm";
   "A#m"; "Bbm"; "Fm"; "Cm"; "Gm"; "Dm"].

(** The name [getDiatonicChordDiagrams] parses for a key and a tonality. *)
Definition keyRootName (currentKey : CurrentKeyData) (tonality : Tonality) : string :=
  stripMinorSuffix
    match tonality with
    | MajorTonality => major currentKey
    | MinorTonality => minor currentKey
    end.

(** ** Fingers *)

(** Reading [fingers[i]]: a finger number, or none for [null] and for a slot
    that was never written. *)
Definition fingerAt (fingers : list (option Z)) (i : nat) : option Z :=
  default None (fingers !! i).

(** How many distinct fretted (positive) frets of the array lie below
    [n]. *)
Definition distinctLowerFrets (fs : list FretValue) (n : Z) : Z :=
  Z.of_nat (size (list_to_set (filter (λ m, 0 < m < n) (nonMutedFrets fs)) : gset Z)).

(** ** Diatonic chord names *)

(** The chord-name suffixes of the seven degrees of a major and of a natural
    minor key. *)
Definition MAJOR_SUFFIXES : list string := [""; "m"; "m"; ""; ""; "m"; "dim"].
Definition MINOR_SUFFIXES : list string := ["m"; "dim"; ""; "m"; "m"; ""; ""].

(** The suffix [getDiatonicChordDiagrams] computes for the degree [index] of
    a scale with the pitch classes [pcs]. *)
Definition chordSuffixAt (pcs : list Z) (index : nat) : option string :=
  rootPc ← pcs !! index;
  tone0 ← pcs !! (index mod 7)%nat;
  tone2 ← pcs !! ((index + 2) mod 7)%nat;
  tone4 ← pcs !! ((index + 4) mod 7)%nat;
  Some (getChordSuffix
          (getChordQuality
             (Array_sort (λ a b, a - b <? 0)
                ((λ tone, normalizePitch (tone - rootPc)) <$> [tone0; tone2; tone4])))).

(** The pitch class of the tonic [getDiatonicChordDiagrams] parses for a key
    and a tonality. *)
Definition keyPitchClass (currentKey : CurrentKeyData) (tonality : Tonality) : option Z :=
  parsed_pitchClass <$> parseNoteName (keyRootName currentKey tonality).

(** A mark the diagram shows inside its grid: the cross of a muted string,
    the circle of an open one, or a dot on one of the four visible frets
    that carries a finger from 1 to 4. *)
Definition markDrawn (mark : StringMark) : bool :=
  match mark with
  | MutedMark | OpenMark => true
  | NoMark => false
  | DotMark offset (Some k) => (0 <=? offset) && (offset <? fretCount) && (1 <=? k) && (k <=? 4)
  | DotMark _ None => false
  end.

(** The diagram of a shape marks each of the six strings. *)
Definition fullyDrawn (shape : ChordDiagramShape) : bool :=
  (length (diagram_marks shape) =? 6)%nat && forallb markDrawn (diagram_marks shape).

(** * Properties *)

(** Closes a decidable goal on concrete data by evaluating its decision. *)
Ltac by_evaluation := apply (bool_decide_unpack _); vm_compute; exact I.

(** ** Arithmetic of pitch classes *)

Lemma normalizePitch_mod (value : Z) : normalizePitch value = value `mod` 12.
Proof.
  unfold normalizePitch.
  Z.to_euclidean_division_equations; lia.
Qed.

Lemma normalizePitch_range (value : Z) : 0 ≤ normalizePitch value < 12.
Proof. rewrite normalizePitch_mod. apply Z.mod_pos_bound. lia. Qed.

(** ** The stable sort *)

Section ArraySortFacts.
Context {A : Type} (negative : A → A → bool).

Lemma sort_insert_Permutation (x : A) (l : list A) :
  sort_insert negative x l ≡ₚ x :: l.
Proof.
  induction l as [|y l IH]; simpl; [done|].
  destruct (negative y x); [|done].
  rewrite IH. apply perm_swap.
Qed.

Lemma Array_sort_Permutation (l : list A) : Array_sort negative l ≡ₚ l.
Proof.
  induction l as [|x l IH]; simpl; [done|].
  rewrite sort_insert_Permutation. by rewrite IH.
Qed.

Lemma Array_sort_elem_of (x : A) (l : list A) : x ∈ Array_sort negative l ↔ x ∈ l.
Proof. by rewrite Array_sort_Permutation. Qed.

Hypothesis negative_asym : ∀ a b, negative a b = true → negative b a = false.
Hypothesis not_after_trans : ∀ a b c, not_after negative a b → not_after negative b c → not_after negative a c.

Lemma sort_insert_sorted (x : A) (l : list A) :
  StronglySorted (not_after negative) l → StronglySorted (not_after negative) (sort_insert negative x l).
Proof.
  induction 1 as [|y l Hs IH Hy]; simpl.
  - repeat constructor.
  - destruct (negative y x) eqn:Hyx.
    + constructor; [done|].
      rewrite Forall_forall. intros z Hz.
      rewrite sort_insert_Permutation in Hz.
      apply elem_of_cons in Hz as [->|Hz].
      * by apply negative_asym.
      * by eapply Forall_forall in Hy.
    + constructor; [by constructor|].
      constructor; [done|].
      eapply Forall_impl; [exact Hy|].
      intros z Hz. by eapply not_after_trans.
Qed.

Lemma Array_sort_sorted (l : list A) : StronglySorted (not_after negative) (Array_sort negative l).
Proof.
  induction l as [|x l IH]; simpl; [constructor|].
  by apply sort_insert_sorted.
Qed.
End ArraySortFacts.

Lemma StronglySorted_mono {A} (R R' : A → A → Prop) (l : list A) :
  (∀ a b, R a b → R' a b) → StronglySorted R l → StronglySorted R' l.
Proof.
  intros HR. induction 1 as [|x l Hs IH Hx]; constructor; [done|].
  eapply Forall_impl; [exact Hx|]. intros y. apply HR.
Qed.

(** ** Double arithmetic *)

(** The literals of the source, as the doubles they denote, and the sum
    [0.1 + 0.2], which is not the double [0.3]. *)
Lemma Double_round_literals :
  (Double_round 0.2 == 3602879701896397 # 18014398509481984)%Q ∧
  (Double_round 0.3 == 5404319552844595 # 18014398509481984)%Q ∧
  ¬ (Double_add (Double_round 0.1) (Double_round 0.2) == Double_round 0.3)%Q.
Proof. split_and!; vm_compute; congruence. Qed.

Lemma roundHalfEven_nonneg (num den : Z) : 0 ≤ num → 0 < den → 0 ≤ roundHalfEven num den.
Proof.
  intros Hnum Hden. unfold roundHalfEven.
  pose proof (Z.div_pos num den Hnum Hden).
  repeat case_match; lia.
Qed.

Lemma Double_scale_nonneg (significand exponent : Z) :
  0 ≤ significand → (0 <= Double_scale significand exponent)%Q.
Proof.
  intros Hs. unfold Double_scale. destruct (0 <=? exponent) eqn:He.
  - apply Z.leb_le in He. rewrite <- (Zle_Qle 0). apply Z.mul_nonneg_nonneg; [done|].
    by apply Z.pow_nonneg.
  - unfold Qle. simpl. lia.
Qed.

Lemma Double_round_nonneg (q : Q) : (0 <= q)%Q → (0 <= Double_round q)%Q.
Proof.
  intros Hq. unfold Double_round.
  destruct (Qnum q) as [|num|num] eqn:Hnum.
  - done.
  - unfold Double_round_pos. apply Double_scale_nonneg.
    match goal with |- context [0 <=? ?e] => destruct (Z.leb_spec 0 e) as [He|He] end.
    + apply roundHalfEven_nonneg; [lia|].
      apply Z.mul_pos_pos; [lia|]. apply Z.pow_pos_nonneg; lia.
    + apply roundHalfEven_nonneg; [|lia].
      apply Z.mul_nonneg_nonneg; [lia|]. apply Z.pow_nonneg. lia.
  - exfalso. unfold Qle in Hq. simpl in Hq. rewrite Hnum in Hq. lia.
Qed.

Lemma Double_add_nonneg (x y : Q) : (0 <= x)%Q → (0 <= y)%Q → (0 <= Double_add x y)%Q.
Proof. intros Hx Hy. apply Double_round_nonneg. lra. Qed.

Lemma Double_mul_nonneg (x y : Q) : (0 <= x)%Q → (0 <= y)%Q → (0 <= Double_mul x y)%Q.
Proof. intros Hx Hy. apply Double_round_nonneg. nra. Qed.

(** ** Order on scores *)

Lemma Number_lt_spec (a b : Number) : Number_lt a b = true ↔ Number_lt_prop a b.
Proof.
  destruct a as [x|], b as [y|]; simpl; try done.
  by rewrite bool_decide_eq_true, <- Qlt_alt.
Qed.

Lemma Number_sub_negative_false (a b : Number) :
  Number_sub_negative b a = false ↔ Number_le a b.
Proof.
  destruct a as [x|], b as [y|]; simpl; try done.
  rewrite bool_decide_eq_false, <- Qlt_alt. split.
  - intros H. apply Qnot_lt_le. intros Hlt. apply H. lra.
  - intros H Hlt. lra.
Qed.

Lemma Number_sub_negative_asym (a b : Number) :
  Number_sub_negative a b = true → Number_sub_negative b a = false.
Proof.
  destruct a as [x|], b as [y|]; simpl; try done.
  rewrite bool_decide_eq_true, bool_decide_eq_false, <- !Qlt_alt. lra.
Qed.

Lemma Number_le_trans (a b c : Number) : Number_le a b → Number_le b c → Number_le a c.
Proof.
  destruct a as [x|], b as [y|], c as [z|]; simpl; try done. lra.
Qed.

(** ** The voicing search *)

Lemma existsb_false_iff {A} (f : A → bool) (l : list A) :
  existsb f l = false ↔ ∀ x, x ∈ l → f x = false.
Proof.
  induction l as [|y l IH]; simpl.
  - split; [intros _ x Hx; by apply elem_of_nil in Hx|done].
  - rewrite orb_false_iff, IH. split.
    + intros [Hy Hl] x Hx. apply elem_of_cons in Hx as [->|Hx]; auto.
    + intros H. split; [apply H; left|intros x Hx; apply H; by right].
Qed.

Lemma existsb_true_iff {A} (f : A → bool) (l : list A) :
  existsb f l = true ↔ ∃ x, x ∈ l ∧ f x = true.
Proof.
  rewrite existsb_exists. split; intros (x & Hx & Hf); exists x;
    (split; [by apply list_elem_of_In|done]).
Qed.

Section SearchFacts.
Variables (chordTones : list PitchClass) (root : PitchClass) (startFret : Z).

Local Abbreviation record := (recordCandidate chordTones root startFret).
Local Abbreviation walkFrom := (walk chordTones root startFret).
Local Abbreviation selOK := (SelectionOK chordTones startFret).
Local Abbreviation accepted := (Accepted chordTones root startFret).
Local Abbreviation recorded := (Recorded chordTones root startFret).
Local Abbreviation inv := (SearchInv chordTones root startFret).
Local Abbreviation pushed := (selectionVoicing startFret).
Local Abbreviation keepComplete := (filterComplete chordTones root).

Lemma recordCandidate_cases (st : SearchState) :
  record st = st ∨
  (accepted (selection st) ∧
   (pattern_of (selectionFrets (selection st)) ∉ seenPatterns st) ∧
   record st =
     {| selection := selection st;
        voicings := voicings st ++ [pushed (selection st)];
        seenPatterns := {[ pattern_of (selectionFrets (selection st)) ]} ∪ seenPatterns st |}).
Proof.
  unfold recordCandidate.
  destruct (_ || _) eqn:Hcount; [by left|].
  destruct (existsb _ (elements _)) eqn:Hreq; [by left|].
  destruct (WINDOW_FRET_SPAN <? _) eqn:Hspan; [by left|].
  destruct (existsb _ (seq _ _)) eqn:Hmute; [by left|].
  case_bool_decide as Hseen; [by left|].
  right. split; [|split; [done|reflexivity]].
  apply orb_false_iff in Hcount as [Hlo Hhi].
  apply Nat.ltb_ge in Hlo. apply Nat.ltb_ge in Hhi.
  unfold minStrings, maxStrings in *.
  repeat split; [lia|lia| | |].
  - intros interval Hin.
    rewrite existsb_false_iff in Hreq.
    specialize (Hreq interval). rewrite elem_of_elements in Hreq.
    specialize (Hreq Hin). apply negb_false_iff, bool_decide_eq_true in Hreq.
    apply elem_of_list_to_set, list_elem_of_fmap in Hreq as (c & -> & Hc).
    by exists c.
  - apply Z.ltb_ge in Hspan. done.
  - intros i Hi Hreq'.
    rewrite existsb_false_iff in Hmute.
    assert (i < length (selectionFrets (selection st)))%nat as Hlt
      by (by eapply lookup_lt_Some).
    specialize (Hmute i). rewrite elem_of_seq in Hmute.
    specialize (Hmute ltac:(lia)).
    rewrite Hi, Hreq' in Hmute.
    by rewrite bool_decide_eq_true_2 in Hmute.
Qed.

Lemma inv_recordCandidate (st : SearchState) : inv st → inv (record st).
Proof.
  intros Hinv.
  destruct (recordCandidate_cases st) as [->|(Hacc & Hfresh & ->)]; [done|].
  destruct Hinv as (Hsel & Hrec & Hseen & Hnd).
  split_and!; simpl.
  - done.
  - apply Forall_app. split; [done|].
    apply Forall_singleton. by exists (selection st).
  - intros v [Hv|Hv]%elem_of_app.
    + apply elem_of_union_r. by apply Hseen.
    + apply list_elem_of_singleton in Hv as ->. apply elem_of_union_l.
      by apply elem_of_singleton.
  - rewrite fmap_app. apply NoDup_app. split_and!; [done| |apply NoDup_singleton].
    intros p Hp Hp'. simpl in Hp'. apply list_elem_of_singleton in Hp' as ->.
    apply list_elem_of_fmap in Hp as (v & Heq & Hv).
    apply Hfresh. simpl in Heq. rewrite Heq. by apply Hseen.
Qed.

Lemma inv_set_selection_None (i : nat) (st : SearchState) :
  inv st → inv (set_selection i None st).
Proof.
  intros ([Hlen Hsel] & Hrest). split; [|done]. simpl. split.
  - by rewrite length_insert.
  - intros j c Hj. destruct (decide (i = j)) as [->|Hne].
    + rewrite list_lookup_insert_eq in Hj by (apply lookup_lt_Some in Hj;
        by rewrite length_insert in Hj). done.
    + rewrite list_lookup_insert_ne in Hj by done. by apply Hsel.
Qed.

Lemma inv_set_selection_Some (i : nat) (c : CandidateFret) (st : SearchState) :
  c ∈ default [] (candidatesPerString chordTones startFret !! i) →
  inv st → inv (set_selection i (Some c) st).
Proof.
  intros Hc ([Hlen Hsel] & Hrest). split; [|done]. simpl. split.
  - by rewrite length_insert.
  - intros j c' Hj. destruct (decide (i = j)) as [->|Hne].
    + rewrite list_lookup_insert_eq in Hj by (apply lookup_lt_Some in Hj;
        by rewrite length_insert in Hj).
      injection Hj as <-.
      destruct (candidatesPerString chordTones startFret !! j) as [cs|] eqn:Hcs.
      * by exists cs.
      * by apply elem_of_nil in Hc.
    + rewrite list_lookup_insert_ne in Hj by done. by apply Hsel.
Qed.

Lemma inv_walk (remaining stringIndex activeCount : nat) (st : SearchState) :
  inv st → inv (walkFrom remaining stringIndex activeCount st).
Proof.
  revert stringIndex activeCount st.
  induction remaining as [|remaining IH]; intros stringIndex activeCount st Hinv.
  - by apply inv_recordCandidate.
  - cbn [walk]. destruct (_ || _); [done|].
    set (candidates := default [] (candidatesPerString chordTones startFret !! stringIndex)).
    assert (∀ c, c ∈ candidates → c ∈ candidates) as Hsub by done.
    revert Hsub. generalize candidates at 1 3. intros cs Hsub.
    match goal with |- inv (foldl _ ?s0 _) => assert (inv s0) as Hinv0; [|revert Hinv0; generalize s0] end.
    { by apply IH, inv_set_selection_None. }
    induction cs as [|c cs IHcs]; intros st0 Hinv0; [done|].
    simpl. apply IHcs.
    + intros c' Hc'. apply Hsub. by right.
    + apply inv_set_selection_None, IH, inv_set_selection_Some; [|done].
      apply Hsub. by left.
Qed.

Lemma inv_initial : inv search_initial.
Proof.
  split_and!; simpl.
  - split; [done|]. intros i c Hi.
    change (replicate 6 (@None CandidateFret) !! i = Some (Some c)) in Hi.
    apply lookup_replicate in Hi as [? _]. done.
  - constructor.
  - intros v Hv. by apply elem_of_nil in Hv.
  - constructor.
Qed.

Lemma enumerate_inv : inv (walkFrom 6 0 0 search_initial).
Proof. apply inv_walk, inv_initial. Qed.

Lemma enumerate_recorded (v : ChordVoicing) :
  v ∈ enumerateVoicings chordTones root startFret → recorded v.
Proof.
  intros Hv. destruct enumerate_inv as (_ & Hrec & _).
  by eapply Forall_forall in Hrec.
Qed.

Lemma enumerate_NoDup_frets : NoDup (frets <$> enumerateVoicings chordTones root startFret).
Proof.
  destruct enumerate_inv as (_ & _ & _ & Hnd).
  apply (NoDup_fmap_1 pattern_of). by rewrite <- list_fmap_compose.
Qed.

Lemma generate_voicings :
  voicing <$> generateChordVoicings chordTones root startFret
  ≡ₚ keepComplete (enumerateVoicings chordTones root startFret).
Proof.
  unfold generateChordVoicings, filterComplete.
  rewrite Array_sort_Permutation, <- list_fmap_compose.
  by rewrite list_fmap_id.
Qed.

Lemma generate_elem_of (sv : ScoredVoicing) :
  sv ∈ generateChordVoicings chordTones root startFret →
  voicing sv ∈ keepComplete (enumerateVoicings chordTones root startFret) ∧
  score sv = getVoicingScore (voicing sv) root 4.
Proof.
  unfold generateChordVoicings. rewrite Array_sort_elem_of.
  intros (v & -> & Hv)%list_elem_of_fmap. by simpl.
Qed.

Lemma filterComplete_subseteq (vs : list ChordVoicing) (v : ChordVoicing) :
  v ∈ keepComplete vs → v ∈ vs.
Proof.
  unfold filterComplete. destruct (existsb _ _); [|done].
  by intros [_ ?]%list_elem_of_filter.
Qed.

Lemma generate_recorded (sv : ScoredVoicing) :
  sv ∈ generateChordVoicings chordTones root startFret → recorded (voicing sv).
Proof.
  intros [Hv _]%generate_elem_of.
  by apply enumerate_recorded, filterComplete_subseteq.
Qed.
End SearchFacts.

(** ** Minimum and maximum *)

Lemma foldl_min_spec (x : Z) (xs : list Z) :
  foldl Z.min x xs ∈ x :: xs ∧ ∀ y, y ∈ x :: xs → foldl Z.min x xs ≤ y.
Proof.
  revert x. induction xs as [|a xs IH]; intros x; simpl.
  - split; [left|]. intros y Hy. apply list_elem_of_singleton in Hy as ->. lia.
  - destruct (IH (x `min` a)) as [Hin Hle]. split.
    + apply elem_of_cons in Hin as [Heq|Hin]; [|by do 2 right].
      rewrite Heq. destruct (Z.min_spec x a) as [[_ ->]|[_ ->]]; [left|right; left].
    + intros y Hy.
      assert (foldl Z.min (x `min` a) xs ≤ x `min` a) as H0 by (apply Hle; left).
      apply elem_of_cons in Hy as [->|Hy]; [lia|].
      apply elem_of_cons in Hy as [->|Hy]; [lia|].
      apply Hle. by right.
Qed.

Lemma foldl_max_spec (x : Z) (xs : list Z) :
  foldl Z.max x xs ∈ x :: xs ∧ ∀ y, y ∈ x :: xs → y ≤ foldl Z.max x xs.
Proof.
  revert x. induction xs as [|a xs IH]; intros x; simpl.
  - split; [left|]. intros y Hy. apply list_elem_of_singleton in Hy as ->. lia.
  - destruct (IH (x `max` a)) as [Hin Hle]. split.
    + apply elem_of_cons in Hin as [Heq|Hin]; [|by do 2 right].
      rewrite Heq. destruct (Z.max_spec x a) as [[_ ->]|[_ ->]]; [right; left|left].
    + intros y Hy.
      assert (x `max` a ≤ foldl Z.max (x `max` a) xs) as H0 by (apply Hle; left).
      apply elem_of_cons in Hy as [->|Hy]; [lia|].
      apply elem_of_cons in Hy as [->|Hy]; [lia|].
      apply Hle. by right.
Qed.

Lemma Math_min_elem_of (l : list Z) : l ≠ [] → Math_min l ∈ l.
Proof. destruct l as [|x xs]; [done|]. intros _. apply foldl_min_spec. Qed.

Lemma Math_min_le (l : list Z) (y : Z) : y ∈ l → Math_min l ≤ y.
Proof.
  destruct l as [|x xs]; [by intros ?%elem_of_nil|]. apply foldl_min_spec.
Qed.

Lemma Math_max_elem_of (l : list Z) : l ≠ [] → Math_max l ∈ l.
Proof. destruct l as [|x xs]; [done|]. intros _. apply foldl_max_spec. Qed.

Lemma Math_max_ge (l : list Z) (y : Z) : y ∈ l → y ≤ Math_max l.
Proof.
  destruct l as [|x xs]; [by intros ?%elem_of_nil|]. apply foldl_max_spec.
Qed.

(** ** Required intervals *)

Lemma sorted_intervals_le (l : list Z) :
  StronglySorted Z.le (Array_sort (λ a b, a - b <? 0) l).
Proof.
  eapply StronglySorted_mono; [|apply Array_sort_sorted].
  - intros a b Hab. apply Z.ltb_ge in Hab. lia.
  - intros a b Hab. apply Z.ltb_lt in Hab. apply Z.ltb_ge. lia.
  - intros a b c Hab Hbc. apply Z.ltb_ge in Hab, Hbc. apply Z.ltb_ge. lia.
Qed.

Lemma find_third_sorted (l : list Z) :
  StronglySorted Z.le l →
  List.find (λ interval, (interval =? 3) || (interval =? 4)) l =
    if decide (3 ∈ l) then Some 3 else if decide (4 ∈ l) then Some 4 else None.
Proof.
  induction 1 as [|x l Hs IH Hx]; cbn [List.find].
  - repeat case_decide; try done; exfalso; by eapply not_elem_of_nil.
  - destruct (Z.eqb_spec x 3) as [->|H3]; cbn [orb].
    + rewrite decide_True; [done|left].
    + destruct (Z.eqb_spec x 4) as [->|H4].
      * rewrite decide_False, decide_True; [done|left|].
        intros [?|Hin]%elem_of_cons; [done|].
        eapply Forall_forall in Hx; [|done]. lia.
      * rewrite IH. repeat case_decide; try done;
          repeat match goal with
                 | H : _ ∈ _ :: _ |- _ => apply elem_of_cons in H as [?|?]
                 | H : ¬ (_ ∈ _ :: _) |- _ => rewrite not_elem_of_cons in H; destruct H
                 end; congruence.
Qed.

Lemma search_intervals_elem_of (chordTones : list PitchClass) (root interval : Z) :
  interval ∈ search_intervals chordTones root ↔ interval ∈ chordIntervals chordTones root.
Proof.
  unfold search_intervals, chordIntervals. rewrite Array_sort_elem_of.
  rewrite !list_elem_of_fmap. by setoid_rewrite normalizePitch_mod.
Qed.

Lemma getFifthIntervals_elem_of (intervals : list Z) (interval : Z) :
  interval ∈ getFifthIntervals intervals ↔ FifthFamily interval ∧ interval ∈ intervals.
Proof. unfold getFifthIntervals. by rewrite list_elem_of_filter. Qed.

Lemma requiredIntervals_spec (chordTones : list PitchClass) (root interval : Z) :
  interval ∈ search_requiredIntervals chordTones root ↔
  RequiredInterval chordTones root interval.
Proof.
  unfold search_requiredIntervals, getRequiredIntervals, RequiredInterval.
  rewrite elem_of_list_to_set, find_third_sorted by apply sorted_intervals_le.
  rewrite elem_of_app, list_elem_of_singleton, elem_of_app, getFifthIntervals_elem_of.
  rewrite <- !search_intervals_elem_of.
  repeat case_decide; rewrite ?list_elem_of_singleton, ?elem_of_nil;
    intuition (subst; first [done | lia]).
Qed.

(** ** Selections, candidates and the window *)

Lemma search_windowStart_eq (startFret : Z) : search_windowStart startFret = windowStartOf startFret.
Proof.
  unfold search_windowStart, windowStartOf.
  destruct (Z.leb_spec startFret 1); case_decide; done || lia.
Qed.

Lemma search_windowEnd_eq (startFret : Z) : search_windowEnd startFret = windowEndOf startFret.
Proof. unfold search_windowEnd, windowEndOf. by rewrite search_windowStart_eq. Qed.

Lemma fretRange_elem_of (ws we f : Z) : f ∈ fretRange ws we ↔ ws ≤ f ≤ we.
Proof. unfold fretRange. rewrite elem_of_seqZ. lia. Qed.

Lemma selectionFrets_lookup_X (sel : list (option CandidateFret)) (i : nat) :
  selectionFrets sel !! i = Some X ↔ sel !! i = Some None.
Proof.
  unfold selectionFrets. rewrite list_lookup_fmap.
  destruct (sel !! i) as [[c|]|]; simpl; split; congruence.
Qed.

Lemma selectionFrets_lookup_Fret (sel : list (option CandidateFret)) (i : nat) (f : Z) :
  selectionFrets sel !! i = Some (Fret f) ↔ ∃ c, sel !! i = Some (Some c) ∧ fret c = f.
Proof.
  unfold selectionFrets. rewrite list_lookup_fmap.
  destruct (sel !! i) as [[c|]|]; simpl; split;
    try discriminate; try (intros (c' & Hc & _); discriminate).
  - intros [= <-]. by exists c.
  - intros (c' & [= <-] & <-). done.
Qed.

Lemma selectionPitches_lookup (sel : list (option CandidateFret)) (i : nat) (c : CandidateFret) :
  sel !! i = Some (Some c) → selectionPitches sel !! i = Some (Some (pitchClass c)).
Proof. intros H. unfold selectionPitches. by rewrite list_lookup_fmap, H. Qed.

Lemma selectionPitches_lookup_null (sel : list (option CandidateFret)) (i : nat) :
  sel !! i = Some None → selectionPitches sel !! i = Some None.
Proof. intros H. unfold selectionPitches. by rewrite list_lookup_fmap, H. Qed.

Lemma activeStrings_elem_of (sel : list (option CandidateFret)) (c : CandidateFret) :
  c ∈ omap id sel ↔ ∃ i, sel !! i = Some (Some c).
Proof.
  rewrite list_elem_of_omap. split.
  - intros (o & Ho & Heq). simpl in Heq. subst o.
    by apply list_elem_of_lookup_1.
  - intros [i Hi]. exists (Some c). split; [|done].
    by eapply list_elem_of_lookup_2.
Qed.

Lemma candidate_spec (chordTones : list PitchClass) (startFret : Z)
    (i : nat) (cs : list CandidateFret) (c : CandidateFret) :
  candidatesPerString chordTones startFret !! i = Some cs → c ∈ cs →
  ∃ openPitch, STANDARD_TUNING !! i = Some openPitch ∧
    windowStartOf startFret ≤ fret c ≤ windowEndOf startFret ∧
    pitchClass c = (openPitch + fret c) `mod` 12 ∧
    pitchClass c ∈ chordTones.
Proof.
  unfold candidatesPerString. rewrite list_lookup_fmap.
  destruct (STANDARD_TUNING !! i) as [openPitch|] eqn:Hopen; simpl; [|discriminate].
  intros [= <-] Hc. exists openPitch. split; [done|].
  apply list_elem_of_omap in Hc as (f & Hf & Hc).
  rewrite fretRange_elem_of, search_windowStart_eq, search_windowEnd_eq in Hf.
  case_bool_decide as Htone; [|done]. injection Hc as <-. simpl.
  rewrite normalizePitch_mod in *. split_and!; [lia|lia|done|].
  unfold search_toneSet in Htone. by apply elem_of_list_to_set in Htone.
Qed.

Lemma hasRequiredToneOnString_spec (chordTones : list PitchClass) (root startFret : Z)
    (i : nat) (openPitch : Z) :
  STANDARD_TUNING !! i = Some openPitch →
  (∃ f, windowStartOf startFret ≤ f ≤ windowEndOf startFret ∧
        RequiredInterval chordTones root ((openPitch + f - root) `mod` 12)) →
  hasRequiredToneOnString chordTones root startFret !! i = Some true.
Proof.
  intros Hopen (f & Hf & Hreq).
  unfold hasRequiredToneOnString. rewrite list_lookup_fmap, Hopen. simpl. f_equal.
  apply existsb_true_iff. exists f. split.
  - apply fretRange_elem_of. by rewrite search_windowStart_eq, search_windowEnd_eq.
  - apply bool_decide_eq_true. rewrite normalizePitch_mod. by apply requiredIntervals_spec.
Qed.

Lemma hasFifth_spec (chordTones : list PitchClass) (root : Z) (v : ChordVoicing) :
  hasFifth v root (search_intervals chordTones root) = true ↔ SoundsFifth chordTones root v.
Proof.
  unfold hasFifth, SoundsFifth, Sounds. rewrite existsb_true_iff. split.
  - intros ([p|] & Hin & Hp); [|done].
    apply bool_decide_eq_true, elem_of_list_to_set, getFifthIntervals_elem_of in Hp as [Hf Hi].
    apply search_intervals_elem_of in Hi. rewrite normalizePitch_mod in *.
    apply list_elem_of_lookup in Hin as [k Hk]. eauto 10.
  - intros (interval & Hf & Hi & k & p & Hk & Hp).
    exists (Some p). split; [by eapply list_elem_of_lookup_2|].
    apply bool_decide_eq_true, elem_of_list_to_set, getFifthIntervals_elem_of.
    rewrite normalizePitch_mod, Hp. split; [done|]. by apply search_intervals_elem_of.
Qed.

Lemma nonMutedFrets_elem_of (fs : list FretValue) (a : Z) :
  a ∈ nonMutedFrets fs ↔ Fret a ∈ fs.
Proof.
  unfold nonMutedFrets. rewrite list_elem_of_omap. split.
  - intros ([n|] & Hin & Heq); [|done]. by injection Heq as ->.
  - intros Hin. by exists (Fret a).
Qed.

Lemma nonMutedFrets_selection (sel : list (option CandidateFret)) :
  nonMutedFrets (selectionFrets sel) = fret <$> omap id sel.
Proof.
  unfold nonMutedFrets, selectionFrets.
  induction sel as [|[c|] sel IH]; csimpl; [done| |done].
  f_equal. exact IH.
Qed.

(** ** What every recorded voicing satisfies *)

Section RecordedFacts.
Variables (chordTones : list PitchClass) (root : PitchClass) (startFret : Z).
Variable v : ChordVoicing.
Hypothesis Hrec : Recorded chordTones root startFret v.

Lemma recorded_length : length (frets v) = 6%nat ∧ length (stringPitches v) = 6%nat.
Proof using Hrec.
  destruct Hrec as (sel & [Hlen _] & _ & ->). simpl.
  unfold selectionFrets, selectionPitches. by rewrite !length_fmap.
Qed.

Lemma recorded_window :
  windowStart v = windowStartOf startFret ∧ windowEnd v = windowEndOf startFret.
Proof using Hrec.
  destruct Hrec as (sel & _ & _ & ->). simpl.
  by rewrite search_windowStart_eq, search_windowEnd_eq.
Qed.

Lemma recorded_muted (i : nat) :
  frets v !! i = Some X → stringPitches v !! i = Some None.
Proof using Hrec.
  destruct Hrec as (sel & _ & _ & ->). simpl.
  rewrite selectionFrets_lookup_X. apply selectionPitches_lookup_null.
Qed.

Lemma recorded_fretted (i : nat) (f : Z) :
  frets v !! i = Some (Fret f) →
  windowStartOf startFret ≤ f ≤ windowEndOf startFret ∧
  ∃ openPitch, STANDARD_TUNING !! i = Some openPitch ∧
    stringPitches v !! i = Some (Some ((openPitch + f) `mod` 12)) ∧
    (openPitch + f) `mod` 12 ∈ chordTones.
Proof using Hrec.
  destruct Hrec as (sel & [_ Hsel] & _ & ->). simpl.
  intros (c & Hc & <-)%selectionFrets_lookup_Fret.
  destruct (Hsel _ _ Hc) as (cs & Hcs & Hin).
  destruct (candidate_spec _ _ _ _ _ Hcs Hin) as (openPitch & Hopen & Hw & Hp & Ht).
  split; [done|]. exists openPitch. split; [done|].
  rewrite <- Hp. split; [|done]. by apply selectionPitches_lookup.
Qed.

Lemma recorded_sounds (interval : Z) :
  RequiredInterval chordTones root interval → Sounds v root interval.
Proof using Hrec.
  destruct Hrec as (sel & _ & (_ & Hcover & _) & ->).
  intros Hreq%requiredIntervals_spec.
  destruct (Hcover _ Hreq) as (c & Hc & Hint).
  apply activeStrings_elem_of in Hc as [k Hk].
  exists k, (pitchClass c). simpl. split; [by apply selectionPitches_lookup|].
  by rewrite <- normalizePitch_mod.
Qed.

Lemma recorded_sounded_count :
  (3 ≤ length (nonMutedFrets (frets v)) ≤ 6)%nat.
Proof using Hrec.
  destruct Hrec as (sel & _ & (Hcount & _) & ->). simpl.
  by rewrite nonMutedFrets_selection, length_fmap.
Qed.

Lemma recorded_span :
  let fs := nonMutedFrets (frets v) in
  fs ≠ [] ∧
  span_min (fretSpan v) = Math_min fs ∧ span_max (fretSpan v) = Math_max fs ∧
  Math_max fs - Math_min fs ≤ 3.
Proof using Hrec.
  pose proof recorded_sounded_count as Hcount.
  destruct Hrec as (sel & _ & (_ & _ & Hspan & _) & ->). simpl in *.
  rewrite nonMutedFrets_selection in *. split_and!; try done.
  intros Hnil. rewrite Hnil in Hcount. simpl in Hcount. lia.
Qed.

Lemma recorded_not_muted (i : nat) (openPitch : Z) :
  STANDARD_TUNING !! i = Some openPitch →
  (∃ f, windowStartOf startFret ≤ f ≤ windowEndOf startFret ∧
        RequiredInterval chordTones root ((openPitch + f - root) `mod` 12)) →
  ∃ f, frets v !! i = Some (Fret f).
Proof using Hrec.
  intros Hopen Hcap.
  pose proof (hasRequiredToneOnString_spec _ _ _ _ _ Hopen Hcap) as Hreq.
  destruct recorded_length as [Hlen _].
  destruct Hrec as (sel & _ & (_ & _ & _ & Hmute) & ->). simpl in *.
  assert (i < 6)%nat as Hi by (by apply lookup_lt_Some in Hopen).
  destruct (lookup_lt_is_Some_2 (selectionFrets sel) i) as [[f|] Hf]; [lia|by exists f|].
  by destruct (Hmute i Hf).
Qed.
End RecordedFacts.

(** ** The claims on the voicing search *)

(** C1.  For a chord that contains its root and a start fret of at least 1,
    every voicing the search returns sounds each required interval (the root
    0; the third, 3 or 4, if present, the minor third when the chord holds
    both; every fifth-family interval present in the chord); its recorded
    span is the smallest and the largest sounded fret and is at most 3 wide;
    and no two returned voicings share a fret pattern. *)
Theorem C1_voicing_invariant (chordTones : list PitchClass) (root : PitchClass) (startFret : Z) :
  root ∈ chordTones → 1 ≤ startFret →
  (∀ sv, sv ∈ generateChordVoicings chordTones root startFret →
     let v := voicing sv in
     (∀ interval, RequiredInterval chordTones root interval → Sounds v root interval) ∧
     Fret (span_min (fretSpan v)) ∈ frets v ∧
     Fret (span_max (fretSpan v)) ∈ frets v ∧
     (∀ a, Fret a ∈ frets v → span_min (fretSpan v) ≤ a ≤ span_max (fretSpan v)) ∧
     span_max (fretSpan v) - span_min (fretSpan v) ≤ 3) ∧
  NoDup ((λ sv, frets (voicing sv)) <$> generateChordVoicings chordTones root startFret).
Proof.
  intros _ _. split.
  - intros sv Hsv v. subst v.
    pose proof (generate_recorded _ _ _ _ Hsv) as Hrec.
    destruct (recorded_span _ _ _ _ Hrec) as (Hne & -> & -> & Hspan).
    split_and!.
    + intros interval Hreq. exact (recorded_sounds _ _ _ _ Hrec _ Hreq).
    + by apply nonMutedFrets_elem_of, Math_min_elem_of.
    + by apply nonMutedFrets_elem_of, Math_max_elem_of.
    + intros a Ha%nonMutedFrets_elem_of. split; [by apply Math_min_le|by apply Math_max_ge].
    + done.
  - rewrite (list_fmap_compose voicing frets), generate_voicings.
    eapply sublist_NoDup; [apply enumerate_NoDup_frets|].
    apply fmap_sublist. unfold filterComplete.
    destruct (existsb _ _); [apply sublist_filter|done].
Qed.

Lemma C1_voicing_invariant_witness :
  ∃ sv, generateChordVoicings [0; 4; 7] 0 1 !! 0%nat = Some sv ∧
        Sounds (voicing sv) 0 0 ∧
        span_max (fretSpan (voicing sv)) - span_min (fretSpan (voicing sv)) ≤ 3 ∧
        NoDup ((λ sv, frets (voicing sv)) <$> generateChordVoicings [0; 4; 7] 0 1).
Proof.
  destruct (C1_voicing_invariant [0; 4; 7] 0 1) as [Hall Hnd]; [by left|lia|].
  destruct (generateChordVoicings [0; 4; 7] 0 1) as [|sv rest] eqn:Hgen;
    [vm_compute in Hgen; discriminate|].
  exists sv. split; [done|].
  destruct (Hall sv) as (Hreq & _ & _ & _ & Hspan); [by left|].
  split_and!; [|exact Hspan|exact Hnd].
  apply Hreq. by left.
Defined.

(** When a chord holds both thirds, [getRequiredIntervals] takes the first
    [find] meets in the sorted intervals, the minor third: on the tones
    0, 3, 4, 7 the search at position 1 returns a voicing without the major
    third. *)
Lemma both_thirds_minor_required :
  RequiredInterval [0; 3; 4; 7] 0 3 ∧ ¬ RequiredInterval [0; 3; 4; 7] 0 4 ∧
  Exists (λ sv, frets (voicing sv) = [Fret 3; Fret 3; Fret 1; Fret 0; Fret 1; Fret 3] ∧
                stringPitches (voicing sv) = [Some 7; Some 0; Some 3; Some 7; Some 0; Some 7])
         (generateChordVoicings [0; 3; 4; 7] 0 1).
Proof.
  split_and!.
  - right; left. split; [done|]. by_evaluation.
  - intros [H|[[H _]|[(_ & _ & H)|[[H|[H|H]] _]]]]; try discriminate.
    apply H. by_evaluation.
  - by_evaluation.
Qed.

(** C4.  If some enumerated voicing sounds a fifth-family interval of the
    chord, every voicing in the returned list sounds one. *)
Theorem C4_fifth_completeness (chordTones : list PitchClass) (root : PitchClass) (startFret : Z) :
  1 ≤ startFret →
  (∃ v, v ∈ enumerateVoicings chordTones root startFret ∧ SoundsFifth chordTones root v) →
  ∀ sv, sv ∈ generateChordVoicings chordTones root startFret →
        SoundsFifth chordTones root (voicing sv).
Proof.
  intros _ (v & Hv & Hfifth) sv [Hsv _]%generate_elem_of.
  unfold filterComplete in Hsv.
  destruct (existsb _ _) eqn:Hany.
  - apply list_elem_of_filter in Hsv as [Hsv _]. by apply hasFifth_spec.
  - rewrite existsb_false_iff in Hany. specialize (Hany v Hv).
    apply hasFifth_spec in Hfifth. congruence.
Qed.

Lemma C4_fifth_completeness_witness :
  ∃ sv, generateChordVoicings [0; 4; 7] 0 1 !! 0%nat = Some sv ∧
        SoundsFifth [0; 4; 7] 0 (voicing sv).
Proof.
  pose proof (C4_fifth_completeness [0; 4; 7] 0 1 ltac:(lia)) as Hthm.
  pose proof (enumerate_recorded [0; 4; 7] 0 1) as Hrec.
  destruct (enumerateVoicings [0; 4; 7] 0 1) as [|v vs] eqn:Henum;
    [vm_compute in Henum; discriminate|].
  destruct (generateChordVoicings [0; 4; 7] 0 1) as [|sv rest] eqn:Hgen;
    [vm_compute in Hgen; discriminate|].
  exists sv. split; [done|].
  apply Hthm; [|by left].
  exists v. split; [by left|].
  exists 7. split_and!.
  - right; by left.
  - by_evaluation.
  - apply (recorded_sounds [0; 4; 7] 0 1); [apply Hrec; by left|].
    do 3 right. split; [right; by left|].
    by_evaluation.
Defined.

(** C5.  In every returned voicing a string that can produce a required
    interval at some fret of the window is fretted, not muted; a muted
    string produces no required interval anywhere in the window. *)
Theorem C5_capable_strings_sounded (chordTones : list PitchClass) (root : PitchClass)
    (startFret : Z) :
  1 ≤ startFret →
  ∀ sv, sv ∈ generateChordVoicings chordTones root startFret →
  ∀ (i : nat) (openPitch : Z), STANDARD_TUNING !! i = Some openPitch →
    ((∃ f, windowStartOf startFret ≤ f ≤ windowEndOf startFret ∧
           RequiredInterval chordTones root ((openPitch + f - root) `mod` 12)) →
     ∃ f, frets (voicing sv) !! i = Some (Fret f)) ∧
    (frets (voicing sv) !! i = Some X →
     ∀ f, windowStartOf startFret ≤ f ≤ windowEndOf startFret →
          ¬ RequiredInterval chordTones root ((openPitch + f - root) `mod` 12)).
Proof.
  intros _ sv Hsv i openPitch Hopen.
  pose proof (generate_recorded _ _ _ _ Hsv) as Hrec.
  split.
  - by apply (recorded_not_muted _ _ _ _ Hrec).
  - intros Hmuted f Hf Hreq.
    destruct (recorded_not_muted _ _ _ _ Hrec i openPitch Hopen) as [f' Hf']; [by exists f|].
    congruence.
Qed.

Lemma C5_capable_strings_sounded_witness :
  ∃ sv, generateChordVoicings [0; 4; 7] 0 1 !! 0%nat = Some sv ∧
        ∃ f, frets (voicing sv) !! 0%nat = Some (Fret f).
Proof.
  destruct (generateChordVoicings [0; 4; 7] 0 1) as [|sv rest] eqn:Hgen;
    [vm_compute in Hgen; discriminate|].
  exists sv. split; [done|].
  apply (C5_capable_strings_sounded [0; 4; 7] 0 1 ltac:(lia) sv
           ltac:(rewrite Hgen; by left) 0%nat 4 eq_refl).
  exists 0. split; [vm_compute; split; discriminate|].
  right; right; left.
  split_and!; [reflexivity|by_evaluation..].
Defined.

(** C10.  In every returned voicing a fretted string holds a fret of the
    active window, its recorded pitch-class is (open pitch + fret) mod 12 and
    belongs to the chord tones; a muted string records a null pitch.  The
    voicing records the window it was searched in. *)
Theorem C10_window_and_pitches (chordTones : list PitchClass) (root : PitchClass)
    (startFret : Z) :
  1 ≤ startFret →
  ∀ sv, sv ∈ generateChordVoicings chordTones root startFret →
    let v := voicing sv in
    let ws := if decide (startFret ≤ 1) then 0 else startFret in
    let we := Z.min (ws + 3) 12 in
    windowStart v = ws ∧ windowEnd v = we ∧
    length (frets v) = 6%nat ∧ length (stringPitches v) = 6%nat ∧
    ∀ (i : nat) (fv : FretValue), frets v !! i = Some fv →
      match fv with
      | Fret f =>
          ws ≤ f ≤ we ∧
          ∃ openPitch, STANDARD_TUNING !! i = Some openPitch ∧
            stringPitches v !! i = Some (Some ((openPitch + f) `mod` 12)) ∧
            (openPitch + f) `mod` 12 ∈ chordTones
      | X => stringPitches v !! i = Some None
      end.
Proof.
  intros _ sv Hsv v ws we. subst v ws we.
  pose proof (generate_recorded _ _ _ _ Hsv) as Hrec.
  destruct (recorded_window _ _ _ _ Hrec) as [Hws Hwe].
  destruct (recorded_length _ _ _ _ Hrec) as [Hlf Hlp].
  split_and!; try done.
  intros i [f|] Hi.
  - by apply (recorded_fretted _ _ _ _ Hrec).
  - by apply (recorded_muted _ _ _ _ Hrec).
Qed.

Lemma C10_window_and_pitches_witness :
  ∃ sv, generateChordVoicings [0; 4; 7] 0 1 !! 0%nat = Some sv ∧
        windowStart (voicing sv) = 0 ∧ windowEnd (voicing sv) = 3 ∧
        ∃ f, frets (voicing sv) !! 0%nat = Some (Fret f) ∧ 0 ≤ f ≤ 3 ∧
             stringPitches (voicing sv) !! 0%nat = Some (Some ((4 + f) `mod` 12)).
Proof.
  pose proof (C10_window_and_pitches [0; 4; 7] 0 1 ltac:(lia)) as Hthm.
  destruct (generateChordVoicings [0; 4; 7] 0 1) as [|sv rest] eqn:Hgen;
    [vm_compute in Hgen; discriminate|].
  vm_compute in Hgen. injection Hgen as <- _.
  eexists. split; [reflexivity|].
  edestruct Hthm as (Hws & Hwe & _ & _ & Hstr); [by left|].
  split; [exact Hws|]. split; [exact Hwe|].
  exists 0. split; [reflexivity|].
  destruct (Hstr 0%nat (Fret 0) eq_refl) as (Hw & openPitch & [= <-] & Hp & _).
  split; [exact Hw|exact Hp].
Defined.

(** ** The score *)

Lemma jump_step_shift (x : FretValue) (fs : list FretValue) (acc : Z) (k n : nat) :
  foldl (jumpPenaltyStep (x :: fs)) acc (seq (S k) n) =
  foldl (jumpPenaltyStep fs) acc (seq k n).
Proof.
  revert acc k. induction n as [|n IH]; intros acc k; [done|].
  cbn [seq foldl]. by rewrite IH.
Qed.

Lemma jump_fold_acc (fs : list FretValue) (acc : Z) (l : list nat) :
  foldl (jumpPenaltyStep fs) acc l = acc + foldl (jumpPenaltyStep fs) 0 l.
Proof.
  revert acc. induction l as [|i l IH]; intros acc; cbn [foldl]; [lia|].
  rewrite IH. symmetry. rewrite IH. unfold jumpPenaltyStep.
  destruct (fs !! i) as [[c|]|]; try lia.
  destruct (fs !! S i) as [[d|]|]; try lia.
  cbv zeta. destruct (3 <? Z.abs (c - d)); lia.
Qed.

Lemma adjacentJumps_cons (x y : FretValue) (fs : list FretValue) :
  adjacentJumps (x :: y :: fs) =
  match x, y with
  | Fret a, Fret b => if decide (3 < Z.abs (a - b)) then Z.abs (a - b) - 3 else 0
  | _, _ => 0
  end + adjacentJumps (y :: fs).
Proof. destruct x as [a|], y as [b|]; reflexivity. Qed.

Lemma jumpPenaltyLoop_adjacentJumps (fs : list FretValue) :
  jumpPenaltyLoop fs = adjacentJumps fs.
Proof.
  induction fs as [|x fs IH]; [done|].
  destruct fs as [|y fs].
  - by destruct x.
  - unfold jumpPenaltyLoop in *.
    replace (length (x :: y :: fs) - 1)%nat with (S (length (y :: fs) - 1)) by (simpl; lia).
    cbn [seq foldl]. rewrite jump_step_shift, jump_fold_acc, IH, adjacentJumps_cons.
    f_equal. unfold jumpPenaltyStep. cbn [lookup list_lookup].
    destruct x as [a|]; [|done]. destruct y as [b|]; [|done].
    cbv zeta. destruct (Z.ltb_spec 3 (Z.abs (a - b))); case_decide; lia.
Qed.

Lemma bassPenalty_selection (sel : list (option CandidateFret)) (root : Z) :
  match fst <$> list_find (λ f, f ≠ X) (selectionFrets sel) with
  | None => 0
  | Some i =>
      match selectionPitches sel !! i with
      | Some None => 0
      | Some (Some bassPitch) => if bool_decide (bassPitch ≠ root) then 2 else 0
      | None => 2
      end
  end = nonRootBass (selectionPitches sel) root.
Proof.
  unfold nonRootBass, selectionFrets, selectionPitches.
  induction sel as [|[c|] sel IH]; csimpl.
  - done.
  - case_bool_decide; case_decide; done.
  - rewrite <- IH. clear IH.
    destruct (list_find _ _) as [[i f]|]; done.
Qed.

Lemma count_sounded (fs : list FretValue) :
  length (nonMutedFrets fs) = length (filter (λ f, f ≠ X) fs).
Proof.
  unfold nonMutedFrets. induction fs as [|[a|] fs IH]; csimpl; [done| |done].
  by f_equal.
Qed.

Lemma getVoicingScore_muted (v : ChordVoicing) (root targetStrings : Z) :
  (∀ f, f ∈ frets v → f = X) → getVoicingScore v root targetStrings = PositiveInfinity.
Proof.
  intros Hall. unfold getVoicingScore.
  rewrite bool_decide_eq_true_2; [done|].
  destruct (nonMutedFrets (frets v)) as [|a l] eqn:Hfs; [done|].
  assert (a ∈ nonMutedFrets (frets v)) as Ha by (rewrite Hfs; left).
  apply nonMutedFrets_elem_of, Hall in Ha. done.
Qed.

Lemma getVoicingScore_recorded (chordTones : list PitchClass) (root startFret : Z)
    (v : ChordVoicing) :
  Recorded chordTones root startFret v →
  ∃ minFret maxFret,
    LowestFret (frets v) minFret ∧ HighestFret (frets v) maxFret ∧
    getVoicingScore v root 4 =
      Finite (Double_add
                (inject_Z ((maxFret - minFret) * 2 + adjacentJumps (frets v)
                           + mutedStrings (frets v) + nonRootBass (stringPitches v) root
                           + Z.abs (4 - soundedStrings (frets v))))
                (Double_mul (inject_Z minFret) (Double_round 0.2%Q))).
Proof.
  intros Hrec.
  destruct (recorded_span _ _ _ _ Hrec) as (Hne & _ & _ & _).
  exists (Math_min (nonMutedFrets (frets v))), (Math_max (nonMutedFrets (frets v))).
  split_and!.
  - split; [by apply nonMutedFrets_elem_of, Math_min_elem_of|].
    intros a Ha%nonMutedFrets_elem_of. by apply Math_min_le.
  - split; [by apply nonMutedFrets_elem_of, Math_max_elem_of|].
    intros a Ha%nonMutedFrets_elem_of. by apply Math_max_ge.
  - unfold getVoicingScore.
    rewrite bool_decide_eq_false_2 by (by destruct (nonMutedFrets (frets v))).
    rewrite jumpPenaltyLoop_adjacentJumps.
    unfold soundedStrings, mutedStrings. rewrite <- count_sounded.
    destruct Hrec as (sel & _ & _ & ->). cbn [frets stringPitches selectionVoicing].
    by rewrite bassPenalty_selection.
Qed.

Lemma generate_sorted (chordTones : list PitchClass) (root startFret : Z) :
  StronglySorted (λ a b, Number_le (score a) (score b))
    (generateChordVoicings chordTones root startFret).
Proof.
  unfold generateChordVoicings.
  eapply StronglySorted_mono; [|apply Array_sort_sorted].
  - intros a b Hab. by apply Number_sub_negative_false.
  - intros a b. apply Number_sub_negative_asym.
  - intros a b c Hab%Number_sub_negative_false Hbc%Number_sub_negative_false.
    apply Number_sub_negative_false. by eapply Number_le_trans.
Qed.

Lemma adjacentJumps_within (fs : list FretValue) (lo hi : Z) :
  (∀ a, Fret a ∈ fs → lo ≤ a ≤ hi) → hi - lo ≤ 3 → adjacentJumps fs = 0.
Proof.
  intros Hrange Hspan. induction fs as [|f fs IH]; [done|].
  assert (adjacentJumps fs = 0) as Hrest by (apply IH; intros a Ha; apply Hrange; by right).
  destruct fs as [|g fs]; [by destruct f|].
  rewrite adjacentJumps_cons, Hrest.
  destruct f as [a|], g as [b|]; try done.
  pose proof (Hrange a ltac:(left)). pose proof (Hrange b ltac:(right; left)).
  case_decide; lia.
Qed.

(** In a returned voicing no two sounded strings are more than 3 frets
    apart, so the jump term of its score is 0. *)
Lemma generate_no_jumps (chordTones : list PitchClass) (root startFret : Z)
    (sv : ScoredVoicing) :
  sv ∈ generateChordVoicings chordTones root startFret →
  adjacentJumps (frets (voicing sv)) = 0.
Proof.
  intros Hrec%generate_recorded.
  destruct (recorded_span _ _ _ _ Hrec) as (_ & _ & _ & Hspan).
  apply (adjacentJumps_within _ (Math_min (nonMutedFrets (frets (voicing sv))))
                                (Math_max (nonMutedFrets (frets (voicing sv))))); [|done].
  intros a Ha%nonMutedFrets_elem_of. split; [by apply Math_min_le|by apply Math_max_ge].
Qed.

(** C3.  The search returns its list in ascending order of score.  The score
    of each returned voicing is the sum of: twice the span between its lowest
    and highest fret; for adjacent sounded strings more than 3 frets apart,
    the excess over 3; the number of muted strings; 2 when the lowest sounded
    string is not the root; the distance of the sounded count from 4; and
    the lowest fret times [0.2].  The product and the last sum are those of
    the source's doubles.  A voicing with no sounded string scores positive
    infinity. *)
Theorem C3_sorted_scores (chordTones : list PitchClass) (root : PitchClass) (startFret : Z) :
  1 ≤ startFret →
  StronglySorted (λ a b, Number_le (score a) (score b))
    (generateChordVoicings chordTones root startFret) ∧
  (∀ sv, sv ∈ generateChordVoicings chordTones root startFret →
     let fs := frets (voicing sv) in
     ∃ (minFret maxFret : Z),
       LowestFret fs minFret ∧ HighestFret fs maxFret ∧
       score sv =
         Finite (Double_add
                   (inject_Z ((maxFret - minFret) * 2
                              + adjacentJumps fs
                              + mutedStrings fs
                              + nonRootBass (stringPitches (voicing sv)) root
                              + Z.abs (4 - soundedStrings fs)))
                   (Double_mul (inject_Z minFret) (Double_round 0.2%Q)))) ∧
  (∀ v : ChordVoicing, (∀ f, f ∈ frets v → f = X) →
     getVoicingScore v root 4 = PositiveInfinity).
Proof.
  intros _. split_and!.
  - apply generate_sorted.
  - intros sv Hsv fs. subst fs.
    pose proof (generate_recorded _ _ _ _ Hsv) as Hrec.
    destruct (generate_elem_of _ _ _ _ Hsv) as [_ Hscore].
    destruct (getVoicingScore_recorded _ _ _ _ Hrec) as (minFret & maxFret & Hmin & Hmax & Heq).
    exists minFret, maxFret. split_and!; [done|done|by rewrite Hscore, Heq].
  - intros v. apply getVoicingScore_muted.
Qed.

Lemma C3_sorted_scores_witness :
  ∃ sv, generateChordVoicings [0; 4; 7] 0 1 !! 0%nat = Some sv ∧
        (∃ q, score sv = Finite q ∧ (q == 10)%Q) ∧
        getVoicingScore
          {| frets := [X; X; X; X; X; X];
             stringPitches := [None; None; None; None; None; None];
             fretSpan := {| span_min := 0; span_max := 0 |};
             windowStart := 0; windowEnd := 3 |} 0 4 = PositiveInfinity.
Proof.
  destruct (C3_sorted_scores [0; 4; 7] 0 1 ltac:(lia)) as (_ & Hscore & Hinf).
  destruct (generateChordVoicings [0; 4; 7] 0 1) as [|sv rest] eqn:Hgen;
    [vm_compute in Hgen; discriminate|].
  vm_compute in Hgen. injection Hgen as <- _.
  eexists. split; [reflexivity|]. split.
  - edestruct Hscore as (minFret & maxFret & _ & _ & Hq); [by left|].
    clear Hq. eexists. split; [reflexivity|]. vm_compute. reflexivity.
  - apply Hinf. intros f Hf.
    repeat (apply elem_of_cons in Hf as [->|Hf]; [reflexivity|]).
    by apply elem_of_nil in Hf.
Defined.

(** ** Barre detection *)

Lemma frettedNotes_elem_of (fs : list FretValue) (note : FrettedNote) :
  note ∈ frettedNotes fs ↔
  fs !! note_index note = Some (Fret (note_fret note)) ∧ 0 < note_fret note.
Proof.
  unfold frettedNotes. rewrite list_elem_of_omap. split.
  - intros (o & Ho & Heq). simpl in Heq. subst o.
    apply elem_of_lookup_imap in Ho as (i & f & Heq & Hi).
    destruct f as [n|]; [|done].
    destruct (Z.ltb_spec 0 n); [|done].
    injection Heq as ->. done.
  - intros [Hi Hpos]. exists (Some note). split; [|done].
    apply elem_of_lookup_imap. exists (note_index note), (Fret (note_fret note)).
    split; [|done]. rewrite (proj2 (Z.ltb_lt _ _)) by done. by destruct note.
Qed.

Lemma frettedNotes_indices_sublist (k : nat) (fs : list FretValue) :
  note_index <$> omap id
    (imap (λ index f,
             match f with
             | Fret n => if 0 <? n
                         then Some {| note_fret := n; note_index := k + index |}
                         else None
             | X => None
             end) fs)
  `sublist_of` seq k (length fs).
Proof.
  revert k. induction fs as [|f fs IH]; intros k; [done|].
  cbn [imap length seq].
  rewrite (imap_ext _ (λ index f,
             match f with
             | Fret n => if 0 <? n
                         then Some {| note_fret := n; note_index := S k + index |}
                         else None
             | X => None
             end)).
  2: { intros i x _. simpl. by replace (k + S i)%nat with (S (k + i)) by lia. }
  specialize (IH (S k)).
  destruct f as [n|]; [destruct (0 <? n)|]; csimpl.
  - rewrite Nat.add_0_r. by apply sublist_skip.
  - by apply sublist_cons.
  - by apply sublist_cons.
Qed.

Lemma frettedNotes_NoDup (fs : list FretValue) : NoDup (note_index <$> frettedNotes fs).
Proof.
  eapply sublist_NoDup; [apply (NoDup_seq 0 (length fs))|].
  apply (frettedNotes_indices_sublist 0).
Qed.

Lemma foldl_min_nat_spec (x : nat) (xs : list nat) :
  foldl Nat.min x xs ∈ x :: xs ∧ ∀ y, y ∈ x :: xs → (foldl Nat.min x xs ≤ y)%nat.
Proof.
  revert x. induction xs as [|a xs IH]; intros x; simpl.
  - split; [left|]. intros y Hy. apply list_elem_of_singleton in Hy as ->. lia.
  - destruct (IH (x `min` a)%nat) as [Hin Hle]. split.
    + apply elem_of_cons in Hin as [Heq|Hin]; [|by do 2 right].
      rewrite Heq. destruct (Nat.min_spec x a) as [[_ ->]|[_ ->]]; [left|right; left].
    + intros y Hy.
      assert (foldl Nat.min (x `min` a) xs ≤ x `min` a)%nat as H0 by (apply Hle; left).
      apply elem_of_cons in Hy as [->|Hy]; [lia|].
      apply elem_of_cons in Hy as [->|Hy]; [lia|].
      apply Hle. by right.
Qed.

Lemma foldl_max_nat_spec (x : nat) (xs : list nat) :
  foldl Nat.max x xs ∈ x :: xs ∧ ∀ y, y ∈ x :: xs → (y ≤ foldl Nat.max x xs)%nat.
Proof.
  revert x. induction xs as [|a xs IH]; intros x; simpl.
  - split; [left|]. intros y Hy. apply list_elem_of_singleton in Hy as ->. lia.
  - destruct (IH (x `max` a)%nat) as [Hin Hle]. split.
    + apply elem_of_cons in Hin as [Heq|Hin]; [|by do 2 right].
      rewrite Heq. destruct (Nat.max_spec x a) as [[_ ->]|[_ ->]]; [right; left|left].
    + intros y Hy.
      assert (x `max` a ≤ foldl Nat.max (x `max` a) xs)%nat as H0 by (apply Hle; left).
      apply elem_of_cons in Hy as [->|Hy]; [lia|].
      apply elem_of_cons in Hy as [->|Hy]; [lia|].
      apply Hle. by right.
Qed.

Lemma barreStrings_elem_of (fs : list FretValue) (m : Z) (i : nat) :
  i ∈ note_index <$> filter (λ note, note_fret note = m) (frettedNotes fs) ↔
  fs !! i = Some (Fret m) ∧ 0 < m.
Proof.
  rewrite list_elem_of_fmap. split.
  - intros (note & -> & [Hm Hnote%frettedNotes_elem_of]%list_elem_of_filter).
    by rewrite <- Hm.
  - intros [Hi Hm]. exists {| note_fret := m; note_index := i |}.
    split; [done|]. apply list_elem_of_filter. split; [done|].
    by apply frettedNotes_elem_of.
Qed.

Lemma barreStrings_NoDup (fs : list FretValue) (m : Z) :
  NoDup (note_index <$> filter (λ note, note_fret note = m) (frettedNotes fs)).
Proof.
  eapply sublist_NoDup; [apply frettedNotes_NoDup|].
  apply fmap_sublist, sublist_filter.
Qed.

Lemma frettedNotes_min (fs : list FretValue) :
  frettedNotes fs ≠ [] →
  let m := Math_min (note_fret <$> frettedNotes fs) in
  0 < m ∧ (∃ i, fs !! i = Some (Fret m)) ∧
  ∀ i a, fs !! i = Some (Fret a) → 0 < a → m ≤ a.
Proof.
  intros Hne m.
  assert (note_fret <$> frettedNotes fs ≠ []) as Hne'
    by (by destruct (frettedNotes fs)).
  pose proof (Math_min_elem_of _ Hne') as Hin. fold m in Hin.
  apply list_elem_of_fmap in Hin as (note & Hm & [Hi Hpos]%frettedNotes_elem_of).
  rewrite <- Hm in *. split_and!; [done|by eauto|].
  intros i a Hi' Ha. apply Math_min_le, list_elem_of_fmap.
  exists {| note_fret := a; note_index := i |}. split; [done|].
  by apply frettedNotes_elem_of.
Qed.

Lemma Math_min_nat_spec (l : list nat) :
  l ≠ [] → Math_min_nat l ∈ l ∧ ∀ y, y ∈ l → (Math_min_nat l ≤ y)%nat.
Proof. destruct l as [|x xs]; [done|]. intros _. apply foldl_min_nat_spec. Qed.

Lemma Math_max_nat_spec (l : list nat) :
  l ≠ [] → Math_max_nat l ∈ l ∧ ∀ y, y ∈ l → (y ≤ Math_max_nat l)%nat.
Proof. destruct l as [|x xs]; [done|]. intros _. apply foldl_max_nat_spec. Qed.

(** C7.  When [detectBarre] reports a barre, its fret is the lowest fretted
    (positive) fret of the array, at least two strings hold that fret, the
    barre runs from the lowest to the highest string index holding it, and
    its finger is 1.  When it reports none, no two strings share the lowest
    fretted fret (in particular when no string is fretted).  On
    [1,3,3,2,1,1] the barre is at fret 1 from string 0 to string 5. *)
Theorem C7_barre_detection (fs : list FretValue) :
  match detectBarre fs with
  | Some b =>
      finger b = 1 ∧ 0 < barre_fret b ∧
      (∀ i a, fs !! i = Some (Fret a) → 0 < a → barre_fret b ≤ a) ∧
      fs !! fromString b = Some (Fret (barre_fret b)) ∧
      fs !! toString b = Some (Fret (barre_fret b)) ∧
      (fromString b < toString b)%nat ∧
      (∀ i, fs !! i = Some (Fret (barre_fret b)) → (fromString b ≤ i ≤ toString b)%nat)
  | None =>
      ∀ m, 0 < m →
           (∀ i a, fs !! i = Some (Fret a) → 0 < a → m ≤ a) →
           ∀ i j, fs !! i = Some (Fret m) → fs !! j = Some (Fret m) → i = j
  end ∧
  detectBarre [Fret 1; Fret 3; Fret 3; Fret 2; Fret 1; Fret 1] =
    Some {| barre_fret := 1; fromString := 0; toString := 5; finger := 1 |}.
Proof.
  split; [|reflexivity].
  unfold detectBarre. case_bool_decide as Hempty.
  { intros m Hm _ i j Hi _. exfalso.
    assert ({| note_fret := m; note_index := i |} ∈ frettedNotes fs) as Hin
      by (by apply frettedNotes_elem_of).
    destruct (frettedNotes fs); [by apply elem_of_nil in Hin|done]. }
  assert (frettedNotes fs ≠ []) as Hne by (by destruct (frettedNotes fs)).
  destruct (frettedNotes_min fs Hne) as (Hpos & [i0 Hi0] & Hmin).
  set (m0 := Math_min (note_fret <$> frettedNotes fs)) in *.
  pose proof (barreStrings_NoDup fs m0) as Hnd.
  pose proof (barreStrings_elem_of fs m0) as Hbs.
  set (bs := note_index <$> filter (λ note, note_fret note = m0) (frettedNotes fs)) in *.
  destruct (Nat.ltb_spec (length bs) 2) as [Hshort|Hlong].
  - intros m Hm Hlow i j Hi Hj.
    assert (m = m0) as -> by (pose proof (Hmin _ _ Hi Hm); pose proof (Hlow _ _ Hi0 Hpos); lia).
    assert (i ∈ bs) as Hib by (by apply Hbs).
    assert (j ∈ bs) as Hjb by (by apply Hbs).
    destruct bs as [|x [|y bs']]; simpl in Hshort; [by apply elem_of_nil in Hib| |lia].
    apply list_elem_of_singleton in Hib, Hjb. congruence.
  - assert (bs ≠ []) as Hbne by (destruct bs; [simpl in Hlong; lia|done]).
    destruct (Math_min_nat_spec bs Hbne) as [Hfrom Hfrom_le].
    destruct (Math_max_nat_spec bs Hbne) as [Hto Hto_ge].
    cbn [finger barre_fret fromString toString].
    split_and!; [done|done|done|by apply Hbs|by apply Hbs| |].
    + destruct bs as [|x [|y bs']]; simpl in Hlong; [lia|lia|].
      apply NoDup_cons in Hnd as [Hxy _]. rewrite not_elem_of_cons in Hxy.
      pose proof (Hfrom_le x ltac:(left)). pose proof (Hfrom_le y ltac:(right; left)).
      pose proof (Hto_ge x ltac:(left)). pose proof (Hto_ge y ltac:(right; left)).
      lia.
    + intros i Hi. assert (i ∈ bs) as Hib by (by apply Hbs).
      split; [by apply Hfrom_le|by apply Hto_ge].
Qed.

Lemma C7_barre_detection_witness :
  ∃ b, detectBarre [Fret 1; Fret 3; Fret 3; Fret 2; Fret 1; Fret 1] = Some b ∧
       barre_fret b = 1 ∧ (fromString b ≤ 4 ≤ toString b)%nat.
Proof.
  destruct (C7_barre_detection [Fret 1; Fret 3; Fret 3; Fret 2; Fret 1; Fret 1]) as [Hb Hex].
  rewrite Hex in Hb. cbn [finger barre_fret fromString toString] in Hb.
  destruct Hb as (_ & _ & _ & _ & _ & _ & Hrange).
  eexists. split; [exact Hex|]. split; [reflexivity|].
  apply Hrange. reflexivity.
Defined.

(** ** The best-position driver *)

Lemma bestAfter_S (chordTones : list PitchClass) (root : Z) (n : nat) :
  bestAfter chordTones root (S n) =
  bestStep chordTones root (bestAfter chordTones root n) (Z.of_nat n + 1).
Proof.
  unfold bestAfter.
  replace (Z.of_nat (S n)) with (Z.of_nat n + 1) by lia.
  rewrite seqZ_app by lia. rewrite foldl_app.
  by replace (1 + Z.of_nat n) with (Z.of_nat n + 1) by lia.
Qed.

Lemma bestAfter_sound (chordTones : list PitchClass) (root : Z) (n : nat) (b : ScoredVoicing) :
  bestAfter chordTones root n = Some b →
  ∃ startFret, 1 ≤ startFret ≤ Z.of_nat n ∧
    b ∈ generateChordVoicings chordTones root startFret.
Proof.
  induction n as [|n IH]; [done|].
  rewrite bestAfter_S. unfold bestStep.
  destruct (generateChordVoicings chordTones root (Z.of_nat n + 1) !! 0%nat)
    as [candidate|] eqn:Hc.
  - assert (candidate ∈ generateChordVoicings chordTones root (Z.of_nat n + 1)) as Hin
      by (by eapply list_elem_of_lookup_2).
    destruct (bestAfter chordTones root n) as [b'|]; [destruct (Number_lt _ _)|].
    + intros [= <-]. exists (Z.of_nat n + 1). split; [lia|done].
    + intros Hb. destruct (IH Hb) as (sf & Hsf & Hin'). exists sf. split; [lia|done].
    + intros [= <-]. exists (Z.of_nat n + 1). split; [lia|done].
  - intros Hb. destruct (IH Hb) as (sf & Hsf & Hin'). exists sf. split; [lia|done].
Qed.

Lemma bestAfter_empty (chordTones : list PitchClass) (root : Z) (n : nat) :
  (∀ startFret, 1 ≤ startFret ≤ Z.of_nat n →
                generateChordVoicings chordTones root startFret = []) →
  bestAfter chordTones root n = None.
Proof.
  induction n as [|n IH]; intros Hall; [done|].
  rewrite bestAfter_S, IH by (intros sf Hsf; apply Hall; lia).
  unfold bestStep. by rewrite Hall by lia.
Qed.

(** The window start the driver reads from the stored best is the window
    start of the search that returned it. *)
Lemma bestAfter_window (chordTones : list PitchClass) (root : Z) (n : nat) (b : ScoredVoicing) :
  bestAfter chordTones root n = Some b →
  ∃ startFret, 1 ≤ startFret ≤ Z.of_nat n ∧
    b ∈ generateChordVoicings chordTones root startFret ∧
    windowStart (voicing b) = windowStartOf startFret.
Proof.
  intros (sf & Hsf & Hin)%bestAfter_sound. exists sf. split_and!; [lia|lia|done|].
  by apply (recorded_window chordTones root), generate_recorded.
Qed.

(** C9.  The driver always yields a shape: the all-muted placeholder or the
    shape built from a voicing that one of the twelve searches returned; when
    every search is empty it is the placeholder, with all six strings muted,
    no finger, no barre and display start fret 1. *)
Theorem C9_all_muted_fallback (chordTones : list PitchClass) (root : PitchClass) :
  (getBestVoicingShape chordTones root = allMutedShape ∨
   ∃ startFret sv, 1 ≤ startFret ≤ 12 ∧
     sv ∈ generateChordVoicings chordTones root startFret ∧
     getBestVoicingShape chordTones root = buildChordShape (frets (voicing sv)) None) ∧
  ((∀ startFret, 1 ≤ startFret ≤ 12 →
                 generateChordVoicings chordTones root startFret = []) →
   getBestVoicingShape chordTones root = allMutedShape).
Proof.
  unfold getBestVoicingShape. split.
  - destruct (bestAfter chordTones root (Z.to_nat TOTAL_FRETS)) as [b|] eqn:Hb.
    + right. destruct (bestAfter_sound _ _ _ _ Hb) as (sf & Hsf & Hin).
      exists sf, b. split; [unfold TOTAL_FRETS in Hsf; lia|done].
    + by left.
  - intros Hall. rewrite bestAfter_empty; [done|].
    intros sf Hsf. apply Hall. unfold TOTAL_FRETS in Hsf. lia.
Qed.

Lemma C9_all_muted_fallback_witness :
  (∀ startFret, 1 ≤ startFret ≤ 12 → generateChordVoicings [4; 7] 0 startFret = []) ∧
  getBestVoicingShape [4; 7] 0 = allMutedShape.
Proof.
  assert (∀ startFret, 1 ≤ startFret ≤ 12 → generateChordVoicings [4; 7] 0 startFret = [])
    as Hempty.
  { intros startFret Hsf.
    assert (startFret ∈ seqZ 1 12) as Hin by (apply elem_of_seqZ; lia).
    clear Hsf. revert startFret Hin. apply Forall_forall.
    repeat (apply Forall_cons; split; [vm_compute; reflexivity|]). apply Forall_nil_2. }
  split; [exact Hempty|].
  by apply (C9_all_muted_fallback [4; 7] 0).
Defined.

(** The comparison of the driver is one of doubles.  For the tones 0 and 3
    with root 3 the head at position 7 and the stored best have adjusted
    scores whose exact sums tie at 97/10; as doubles the first is 9.7 and
    the second 9.700000000000001, so the head replaces the best and its
    shape is the one returned. *)
Lemma adjusted_scores_are_doubles :
  (6 + 8 * 0.2 + 7 * 0.3 == 8 + 4 * 0.2 + 3 * 0.3)%Q ∧
  (Double_add (Double_add 6 (Double_mul 8 (Double_round 0.2))) (Double_mul 7 (Double_round 0.3))
   < Double_add (Double_add 8 (Double_mul 4 (Double_round 0.2))) (Double_mul 3 (Double_round 0.3)))%Q ∧
  shape_frets (getBestVoicingShape [0; 3] 3) = [Fret 8; X; X; Fret 8; X; Fret 8].
Proof. split_and!; vm_compute; reflexivity. Qed.

(** C6.  The driver starts with no best and visits [startFret = 1 .. 12].
    At each position it takes the head of the search result, which has the
    lowest score of that result; an empty result leaves the best unchanged.
    The head's score plus [startFret × 0.3] is compared with the stored
    best's score plus [0.3 ×] the stored voicing's own window start, both
    computed in the source's doubles; the head replaces the best exactly
    when there is no best yet or its adjusted score is strictly smaller.
    The shape is built from the best after position 12. *)
Theorem C6_best_position_scan (chordTones : list PitchClass) (root : PitchClass) :
  bestAfter chordTones root 0 = None ∧
  (∀ n : nat, (n < 12)%nat →
     let startFret := Z.of_nat n + 1 in
     let best := bestAfter chordTones root n in
     match generateChordVoicings chordTones root startFret with
     | [] => bestAfter chordTones root (S n) = best
     | candidate :: rest =>
         (∀ sv, sv ∈ rest → Number_le (score candidate) (score sv)) ∧
         let adjusted :=
           Number_add (score candidate)
             (Finite (Double_mul (inject_Z startFret) (Double_round 0.3%Q))) in
         match best with
         | None => bestAfter chordTones root (S n) = Some candidate
         | Some b =>
             let stored :=
               Number_add (score b)
                 (Finite (Double_mul (inject_Z (windowStart (voicing b)))
                            (Double_round 0.3%Q))) in
             (Number_lt_prop adjusted stored →
              bestAfter chordTones root (S n) = Some candidate) ∧
             (¬ Number_lt_prop adjusted stored →
              bestAfter chordTones root (S n) = best)
         end
     end) ∧
  getBestVoicingShape chordTones root =
    match bestAfter chordTones root 12 with
    | None => buildChordShape [X; X; X; X; X; X] None
    | Some best => buildChordShape (frets (voicing best)) None
    end.
Proof.
  split_and!.
  { reflexivity. }
  2: { unfold getBestVoicingShape. by change (Z.to_nat TOTAL_FRETS) with 12%nat. }
  intros n _ startFret best. subst startFret best.
  rewrite bestAfter_S. unfold bestStep.
  pose proof (generate_sorted chordTones root (Z.of_nat n + 1)) as Hsorted.
  destruct (generateChordVoicings chordTones root (Z.of_nat n + 1))
    as [|candidate rest]; cbn [lookup list_lookup]; [reflexivity|].
  split.
  - apply StronglySorted_inv in Hsorted as [_ Hhead].
    intros sv Hsv. by eapply Forall_forall in Hhead.
  - destruct (bestAfter chordTones root n) as [b|]; [|reflexivity].
    cbv zeta. destruct (Number_lt _ _) eqn:Hlt; split.
    + reflexivity.
    + intros Hnot. exfalso. by apply Hnot, Number_lt_spec.
    + intros Hprop%Number_lt_spec. congruence.
    + reflexivity.
Qed.

Lemma C6_best_position_scan_witness :
  ∃ b candidate rest,
    bestAfter [0; 3] 3 6 = Some b ∧
    frets (voicing b) = [X; Fret 6; X; Fret 5; Fret 4; X] ∧
    generateChordVoicings [0; 3] 3 7 = candidate :: rest ∧
    frets (voicing candidate) = [Fret 8; X; X; Fret 8; X; Fret 8] ∧
    bestAfter [0; 3] 3 7 = Some candidate.
Proof.
  destruct (generateChordVoicings [0; 3] 3 7) as [|candidate rest] eqn:Hgen;
    [vm_compute in Hgen; discriminate|].
  destruct (bestAfter [0; 3] 3 6) as [b|] eqn:Hbest;
    [|vm_compute in Hbest; discriminate].
  assert (frets (voicing b) = [X; Fret 6; X; Fret 5; Fret 4; X] ∧
          frets (voicing candidate) = [Fret 8; X; X; Fret 8; X; Fret 8] ∧
          Number_lt_prop
            (Number_add (score candidate)
               (Finite (Double_mul (inject_Z 7) (Double_round 0.3%Q))))
            (Number_add (score b)
               (Finite (Double_mul (inject_Z (windowStart (voicing b)))
                          (Double_round 0.3%Q)))))
    as (Hb & Hcandidate & Hlt).
  { vm_compute in Hgen. injection Hgen as <- _.
    vm_compute in Hbest. injection Hbest as <-.
    split; [reflexivity|]. split; [reflexivity|]. vm_compute. reflexivity. }
  exists b, candidate, rest.
  split; [reflexivity|]. split; [exact Hb|]. split; [reflexivity|]. split; [exact Hcandidate|].
  destruct (C6_best_position_scan [0; 3] 3) as (_ & Hstep & _).
  specialize (Hstep 6%nat ltac:(lia)). cbv zeta in Hstep.
  change (Z.of_nat 6 + 1) with 7 in Hstep.
  rewrite Hgen, Hbest in Hstep.
  destruct Hstep as [_ [Hreplace _]]. exact (Hreplace Hlt).
Defined.

(** *** The search does not depend on the order of the chord tones *)

Lemma search_intervals_Permutation (tones tones' : list PitchClass) (root : Z) :
  tones ≡ₚ tones' → search_intervals tones root = search_intervals tones' root.
Proof.
  intros Hperm. unfold search_intervals.
  apply (StronglySorted_unique Z.le); [apply sorted_intervals_le..|].
  by rewrite !Array_sort_Permutation, Hperm.
Qed.

Lemma search_toneSet_Permutation (tones tones' : list PitchClass) :
  tones ≡ₚ tones' → search_toneSet tones = search_toneSet tones'.
Proof. intros Hperm. unfold search_toneSet. by rewrite Hperm. Qed.

Lemma recordCandidate_Permutation (tones tones' : list PitchClass) (root startFret : Z)
    (st : SearchState) :
  tones ≡ₚ tones' →
  recordCandidate tones root startFret st = recordCandidate tones' root startFret st.
Proof.
  intros Hperm. unfold recordCandidate, hasRequiredToneOnString, search_requiredIntervals.
  by rewrite (search_intervals_Permutation _ _ root Hperm).
Qed.

Lemma walk_Permutation (tones tones' : list PitchClass) (root startFret : Z)
    (remaining stringIndex activeCount : nat) (st : SearchState) :
  tones ≡ₚ tones' →
  walk tones root startFret remaining stringIndex activeCount st =
  walk tones' root startFret remaining stringIndex activeCount st.
Proof.
  intros Hperm. revert stringIndex activeCount st.
  induction remaining as [|remaining IH]; intros stringIndex activeCount st.
  - by apply recordCandidate_Permutation.
  - cbn [walk]. destruct (_ || _); [done|].
    unfold candidatesPerString. rewrite (search_toneSet_Permutation _ _ Hperm).
    rewrite IH.
    match goal with |- foldl _ ?s0 ?cs = _ => generalize s0; generalize cs end.
    intros cs. induction cs as [|c cs IHcs]; intros s0; [done|].
    cbn [foldl]. by rewrite IH, IHcs.
Qed.

Lemma generateChordVoicings_Permutation (tones tones' : list PitchClass) (root startFret : Z) :
  tones ≡ₚ tones' →
  generateChordVoicings tones root startFret = generateChordVoicings tones' root startFret.
Proof.
  intros Hperm. unfold generateChordVoicings, enumerateVoicings.
  by rewrite (walk_Permutation _ _ _ _ _ _ _ _ Hperm),
             (search_intervals_Permutation _ _ root Hperm).
Qed.

Lemma bestAfter_Permutation (tones tones' : list PitchClass) (root : Z) (n : nat) :
  tones ≡ₚ tones' → bestAfter tones root n = bestAfter tones' root n.
Proof.
  intros Hperm. induction n as [|n IH]; [reflexivity|].
  rewrite !bestAfter_S, IH. unfold bestStep.
  rewrite (generateChordVoicings_Permutation _ _ _ _ Hperm). reflexivity.
Qed.

Lemma getBestVoicingShape_Permutation (tones tones' : list PitchClass) (root : Z) :
  tones ≡ₚ tones' → getBestVoicingShape tones root = getBestVoicingShape tones' root.
Proof.
  intros Hperm. unfold getBestVoicingShape.
  rewrite (bestAfter_Permutation _ _ _ _ Hperm). reflexivity.
Qed.

(** C2.  For each of the twelve roots, and for the major and the minor triad
    on it with its tones listed in any order, the driver returns a
    six-string shape with between 3 and 6 sounded strings. *)
Theorem C2_triads_have_voicings (root : PitchClass) (chordTones : list PitchClass) :
  0 ≤ root < 12 →
  chordTones ≡ₚ majorTriad root ∨ chordTones ≡ₚ minorTriad root →
  let shape := getBestVoicingShape chordTones root in
  length (shape_frets shape) = 6%nat ∧
  3 ≤ soundedStrings (shape_frets shape) ≤ 6.
Proof.
  intros Hroot Htriad shape.
  assert (forallb (λ root, soundedShape (getBestVoicingShape (majorTriad root) root)
                           && soundedShape (getBestVoicingShape (minorTriad root) root))
                  (seqZ 0 12) = true) as Hall by (vm_compute; reflexivity).
  rewrite forallb_forall in Hall.
  specialize (Hall root). rewrite <- list_elem_of_In, elem_of_seqZ in Hall.
  specialize (Hall ltac:(lia)). apply andb_prop in Hall as [Hmajor Hminor].
  assert (soundedShape shape = true) as Hok.
  { subst shape. destruct Htriad as [Hperm|Hperm];
      rewrite (getBestVoicingShape_Permutation _ _ _ Hperm); assumption. }
  clear Hmajor Hminor. unfold soundedShape in Hok.
  apply andb_prop in Hok as [[Hlen Hlo]%andb_prop Hhi].
  apply bool_decide_eq_true in Hlen. apply Z.leb_le in Hlo, Hhi.
  split; [exact Hlen|]. split; [exact Hlo|exact Hhi].
Qed.

Lemma C2_triads_have_voicings_witness :
  3 ≤ soundedStrings (shape_frets (getBestVoicingShape [0; 4; 7] 0)) ≤ 6 ∧
  3 ≤ soundedStrings (shape_frets (getBestVoicingShape [4; 9; 0] 9)) ≤ 6.
Proof.
  destruct (C2_triads_have_voicings 0 [0; 4; 7] ltac:(lia)) as [_ Hmajor].
  { left. reflexivity. }
  destruct (C2_triads_have_voicings 9 [4; 9; 0] ltac:(lia)) as [_ Hminor].
  { right. change (minorTriad 9) with [9; 0; 4].
    apply (Permutation_cons_append [9; 0] 4). }
  split; [exact Hmajor|exact Hminor].
Defined.

(** ** The reference-shape override *)

(** C8.  Whenever [getDiatonicChordDiagrams] yields its diagrams, each
    diagram whose chord name is a key of [PREFERRED_SHAPES] carries exactly
    the fret pattern and the finger map of that entry; the shape is the one
    [buildChordShape] builds from them, so its barre is the one
    [detectBarre] finds in the provided frets. *)
Theorem C8_reference_shape_override (currentKey : CurrentKeyData)
    (spellingMode : SpellingMode) (tonality : Tonality)
    (diagrams : list DiatonicChordDiagram) :
  getDiatonicChordDiagrams currentKey spellingMode tonality = Some diagrams →
  ∀ (d : DiatonicChordDiagram) (p : PreferredShape),
    d ∈ diagrams → PREFERRED_SHAPES !! diagram_name d = Some p →
    shape_frets (diagram_shape d) = preferred_frets p ∧
    shape_fingers (diagram_shape d) = preferred_fingers p ∧
    shape_barre (diagram_shape d) = detectBarre (preferred_frets p) ∧
    diagram_shape d = buildChordShape (preferred_frets p) (Some (preferred_fingers p)).
Proof.
  unfold getDiatonicChordDiagrams. intros Hsome d p Hd Hp.
  apply bind_Some in Hsome as (scaleNotes & _ & Hmap).
  apply mapM_Some_1 in Hmap.
  apply list_elem_of_lookup in Hd as [k Hk].
  destruct (Forall2_lookup_r _ _ _ _ _ Hmap Hk) as ([index note] & _ & Hentry).
  apply bind_Some in Hentry as (tone0 & _ & Hentry).
  apply bind_Some in Hentry as (tone2 & _ & Hentry).
  apply bind_Some in Hentry as (tone4 & _ & Hentry).
  injection Hentry as <-. cbn [diagram_name diagram_shape] in *.
  rewrite Hp. done.
Qed.

Lemma C8_reference_shape_override_witness :
  ∃ diagrams d,
    getDiatonicChordDiagrams {| index := 0; major := "C"; minor := "Am" |} Auto MajorTonality
      = Some diagrams ∧
    diagrams !! 3%nat = Some d ∧ diagram_name d = "F" ∧
    shape_frets (diagram_shape d) = [Fret 1; Fret 3; Fret 3; Fret 2; Fret 1; Fret 1] ∧
    shape_fingers (diagram_shape d) = [Some 1; Some 3; Some 4; Some 2; Some 1; Some 1] ∧
    shape_barre (diagram_shape d) =
      Some {| barre_fret := 1; fromString := 0; toString := 5; finger := 1 |}.
Proof.
  destruct (getDiatonicChordDiagrams {| index := 0; major := "C"; minor := "Am" |}
              Auto MajorTonality) as [diagrams|] eqn:Hd;
    [|vm_compute in Hd; discriminate].
  pose proof (C8_reference_shape_override _ _ _ _ Hd) as Hthm.
  assert (∃ d, diagrams !! 3%nat = Some d ∧ diagram_name d = "F") as (d & Hk & Hname).
  { clear Hthm. vm_compute in Hd. injection Hd as <-. eexists. split; reflexivity. }
  exists diagrams, d. split; [reflexivity|]. split; [exact Hk|]. split; [exact Hname|].
  destruct (Hthm d
              {| preferred_frets := [Fret 1; Fret 3; Fret 3; Fret 2; Fret 1; Fret 1];
                 preferred_fingers := [Some 1; Some 3; Some 4; Some 2; Some 1; Some 1] |})
    as (Hfrets & Hfingers & Hbarre & _).
  - by eapply list_elem_of_lookup_2.
  - rewrite Hname. vm_compute. reflexivity.
  - split; [exact Hfrets|]. split; [exact Hfingers|]. exact Hbarre.
Defined.

(** *** The diagrams exist for every key of the circle *)

Lemma LETTER_TO_PC_letters (l : string) (pc : Z) :
  LETTER_TO_PC !! l = Some pc → ∃ i, Array_indexOf l LETTERS = Some i.
Proof.
  intros Hl. apply elem_of_list_to_map_2 in Hl.
  repeat (apply elem_of_cons in Hl as [[= -> ->]|Hl]; [by eexists|]).
  by apply elem_of_nil in Hl.
Qed.

Lemma LETTERS_pitch (l : string) : l ∈ LETTERS → is_Some (LETTER_TO_PC !! l).
Proof.
  intros Hl.
  repeat (apply elem_of_cons in Hl as [->|Hl]; [by eexists|]).
  by apply elem_of_nil in Hl.
Qed.

Lemma getScaleNotes_total (rootName : string) (intervals : list Z) :
  is_Some (parseNoteName rootName) →
  ∃ notes, getScaleNotes rootName intervals = Some notes ∧
           length notes = length intervals.
Proof.
  intros [parsed Hparsed]. unfold getScaleNotes. rewrite Hparsed. cbn [mbind option_bind].
  assert (∃ pc, LETTER_TO_PC !! letter parsed = Some pc) as [pc Hpc].
  { unfold parseNoteName in Hparsed.
    apply bind_Some in Hparsed as (first & _ & Hparsed).
    apply bind_Some in Hparsed as (base & Hbase & [= <-]). by exists base. }
  destruct (LETTER_TO_PC_letters _ _ Hpc) as [rootIndex ->]. cbn [mbind option_bind].
  match goal with |- ∃ notes, mapM ?f ?l = Some notes ∧ _ =>
    assert (is_Some (mapM f l)) as [notes Hnotes] end.
  { apply mapM_is_Some_2, Forall_forall. intros [degree interval] _. cbn [compose].
    destruct (lookup_lt_is_Some_2 LETTERS ((rootIndex + degree) `mod` 7)%nat) as [l Hl].
    { change (length LETTERS) with 7%nat. apply Nat.mod_upper_bound. lia. }
    rewrite Hl. cbn [mbind option_bind].
    destruct (LETTERS_pitch l) as [basePc ->]; [by eapply list_elem_of_lookup_2|].
    by eexists. }
  exists notes. split; [done|].
  apply mapM_Some_1, Forall2_length in Hnotes. rewrite <- Hnotes.
  apply length_imap.
Qed.

Lemma getDiatonicChordDiagrams_total (currentKey : CurrentKeyData)
    (spellingMode : SpellingMode) (tonality : Tonality) :
  is_Some (parseNoteName (keyRootName currentKey tonality)) →
  ∃ diagrams, getDiatonicChordDiagrams currentKey spellingMode tonality = Some diagrams ∧
              length diagrams = 7%nat.
Proof.
  intros Hparse. unfold getDiatonicChordDiagrams. fold (keyRootName currentKey tonality).
  destruct (getScaleNotes_total _
              match tonality with
              | MajorTonality => MAJOR_INTERVALS
              | MinorTonality => MINOR_INTERVALS
              end Hparse) as (scaleNotes & -> & Hlen).
  assert (length scaleNotes = 7%nat) as Hlen7 by (rewrite Hlen; by destruct tonality).
  cbn [mbind option_bind].
  match goal with |- ∃ diagrams, mapM ?f ?l = Some diagrams ∧ _ =>
    assert (is_Some (mapM f l)) as [diagrams Hdiagrams] end.
  { apply mapM_is_Some_2, Forall_forall. intros [index note] _. cbn [compose].
    destruct (lookup_lt_is_Some_2 scaleNotes (index `mod` 7)%nat) as [n0 ->];
      [rewrite Hlen7; apply Nat.mod_upper_bound; lia|].
    destruct (lookup_lt_is_Some_2 scaleNotes ((index + 2) `mod` 7)%nat) as [n2 ->];
      [rewrite Hlen7; apply Nat.mod_upper_bound; lia|].
    destruct (lookup_lt_is_Some_2 scaleNotes ((index + 4) `mod` 7)%nat) as [n4 ->];
      [rewrite Hlen7; apply Nat.mod_upper_bound; lia|].
    by eexists. }
  exists diagrams. split; [done|].
  apply mapM_Some_1, Forall2_length in Hdiagrams. rewrite <- Hdiagrams.
  unfold Array_entries. by rewrite length_imap.
Qed.

Lemma circle_keys_parse :
  Forall (λ name, is_Some (parseNoteName (stripMinorSuffix name)))
         (CIRCLE_MAJOR_NAMES ++ CIRCLE_MINOR_NAMES).
Proof.
  apply Forall_forall. intros name Hname.
  repeat (apply elem_of_cons in Hname as [->|Hname]; [by eexists|]).
  by apply elem_of_nil in Hname.
Qed.

Lemma circle_keys_have_diagrams (currentKey : CurrentKeyData)
    (spellingMode : SpellingMode) (tonality : Tonality) :
  major currentKey ∈ CIRCLE_MAJOR_NAMES → minor currentKey ∈ CIRCLE_MINOR_NAMES →
  ∃ diagrams, getDiatonicChordDiagrams currentKey spellingMode tonality = Some diagrams ∧
              length diagrams = 7%nat.
Proof.
  intros Hmajor Hminor. apply getDiatonicChordDiagrams_total.
  pose proof circle_keys_parse as Hall. rewrite Forall_forall in Hall.
  unfold keyRootName. destruct tonality; apply Hall, elem_of_app; [by left|by right].
Qed.

(** ** Further properties of the pitch arithmetic *)

(** [normalizePitch] is the mathematical residue modulo 12, also below zero
    where the remainder operator of the source is negative: its value lies
    in 0..11, is congruent to its argument, is unchanged by whole octaves
    and by a second normalisation. *)
Theorem normalizePitch_is_residue (value octaves : Z) :
  0 ≤ normalizePitch value < 12 ∧
  (normalizePitch value - value) `mod` 12 = 0 ∧
  normalizePitch (value + 12 * octaves) = normalizePitch value ∧
  normalizePitch (normalizePitch value) = normalizePitch value.
Proof.
  rewrite !normalizePitch_mod.
  split; [apply Z.mod_pos_bound; lia|].
  split; [Z.to_euclidean_division_equations; lia|].
  split; [Z.to_euclidean_division_equations; lia|].
  apply Z.mod_mod. lia.
Qed.

(** ** Further properties of the voicing search *)

Lemma selectionPitches_lookup_inv (sel : list (option CandidateFret)) (i : nat) (p : Z) :
  selectionPitches sel !! i = Some (Some p) → ∃ c, sel !! i = Some (Some c) ∧ pitchClass c = p.
Proof.
  unfold selectionPitches. rewrite list_lookup_fmap.
  destruct (sel !! i) as [[c|]|]; simpl; try discriminate.
  intros [= <-]. by exists c.
Qed.

Lemma recorded_pitch_is_tone (chordTones : list PitchClass) (root startFret : Z)
    (v : ChordVoicing) (k : nat) (p : Z) :
  Recorded chordTones root startFret v →
  stringPitches v !! k = Some (Some p) →
  p ∈ chordTones ∧ ∃ f, frets v !! k = Some (Fret f) ∧
    windowStartOf startFret ≤ f ≤ windowEndOf startFret.
Proof.
  intros (sel & [_ Hsel] & _ & ->). simpl.
  intros (c & Hc & <-)%selectionPitches_lookup_inv.
  destruct (Hsel _ _ Hc) as (cs & Hcs & Hin).
  destruct (candidate_spec _ _ _ _ _ Hcs Hin) as (openPitch & _ & Hw & _ & Ht).
  split; [done|]. exists (fret c). split; [|done].
  apply selectionFrets_lookup_Fret. by exists c.
Qed.

Lemma recorded_has_sounded (chordTones : list PitchClass) (root startFret : Z)
    (v : ChordVoicing) :
  Recorded chordTones root startFret v →
  ∃ k p, stringPitches v !! k = Some (Some p).
Proof.
  intros Hrec. destruct (recorded_sounds _ _ _ _ Hrec 0) as (k & p & Hk & _); [by left|].
  by exists k, p.
Qed.

Lemma generate_nil_of_no_recorded (chordTones : list PitchClass) (root startFret : Z) :
  (∀ v, ¬ Recorded chordTones root startFret v) →
  generateChordVoicings chordTones root startFret = [].
Proof.
  intros Hnone.
  assert (enumerateVoicings chordTones root startFret = []) as Henum.
  { destruct (enumerateVoicings chordTones root startFret) as [|v vs] eqn:Hv; [done|].
    destruct (Hnone v). apply enumerate_recorded. rewrite Hv. left. }
  unfold generateChordVoicings. by rewrite Henum.
Qed.

(** Past the last fret the window is empty and the search returns
    nothing. *)
Theorem search_beyond_last_fret (chordTones : list PitchClass) (root startFret : Z) :
  12 < startFret → generateChordVoicings chordTones root startFret = [].
Proof.
  intros Hsf. apply generate_nil_of_no_recorded. intros v Hrec.
  destruct (recorded_has_sounded _ _ _ _ Hrec) as (k & p & Hk).
  destruct (recorded_pitch_is_tone _ _ _ _ _ _ Hrec Hk) as (_ & f & _ & Hw).
  unfold windowEndOf, windowStartOf in Hw. case_decide; lia.
Qed.

Lemma search_beyond_last_fret_witness : generateChordVoicings [0; 4; 7] 0 13 = [].
Proof. apply search_beyond_last_fret. lia. Defined.

Lemma generate_nil_without_root (chordTones : list PitchClass) (root startFret : Z) :
  (∀ tone, tone ∈ chordTones → (tone - root) `mod` 12 ≠ 0) →
  generateChordVoicings chordTones root startFret = [].
Proof.
  intros Hroot. apply generate_nil_of_no_recorded. intros v Hrec.
  destruct (recorded_sounds _ _ _ _ Hrec 0) as (k & p & Hk & Hp); [by left|].
  destruct (recorded_pitch_is_tone _ _ _ _ _ _ Hrec Hk) as (Ht & _).
  by apply (Hroot p).
Qed.

(** When no chord tone lies on the root's pitch class, no voicing can sound
    the root and the search returns nothing at any position. *)
Theorem search_without_root (chordTones : list PitchClass) (root startFret : Z) :
  (∀ tone, tone ∈ chordTones → (tone - root) `mod` 12 ≠ 0) →
  generateChordVoicings chordTones root startFret = [].
Proof. apply generate_nil_without_root. Qed.

Lemma search_without_root_witness : generateChordVoicings [4; 7] 0 1 = [].
Proof.
  apply search_without_root. intros tone Htone.
  repeat (apply elem_of_cons in Htone as [->|Htone]; [discriminate|]).
  by apply elem_of_nil in Htone.
Defined.

(** When no chord tone lies on the root's pitch class, in particular for an
    empty list of chord tones, the driver falls back to the all-muted
    shape. *)
Theorem driver_without_root (chordTones : list PitchClass) (root : Z) :
  (∀ tone, tone ∈ chordTones → (tone - root) `mod` 12 ≠ 0) →
  getBestVoicingShape chordTones root = allMutedShape.
Proof.
  intros Hroot. unfold getBestVoicingShape.
  rewrite bestAfter_empty; [reflexivity|].
  intros sf _. by apply generate_nil_without_root.
Qed.

Lemma driver_without_root_witness :
  getBestVoicingShape [] 5 = allMutedShape ∧ getBestVoicingShape [4; 7] 0 = allMutedShape.
Proof.
  split.
  - apply driver_without_root. intros tone Htone. by apply elem_of_nil in Htone.
  - apply driver_without_root. intros tone Htone.
    repeat (apply elem_of_cons in Htone as [->|Htone]; [discriminate|]).
    by apply elem_of_nil in Htone.
Defined.

Lemma filter_all {A} (P : A → Prop) `{∀ x, Decision (P x)} (l : list A) :
  (∀ x, x ∈ l → P x) → filter P l = l.
Proof.
  induction l as [|x l IH]; intros Hall; [done|].
  rewrite filter_cons_True by (apply Hall; left).
  f_equal. apply IH. intros y Hy. apply Hall. by right.
Qed.

(** The fifth-completeness filter never removes a voicing: every enumerated
    voicing already sounds every fifth of the chord, so the returned
    voicings are a reordering of the enumerated ones. *)
Theorem fifth_filter_keeps_all (chordTones : list PitchClass) (root startFret : Z) :
  voicing <$> generateChordVoicings chordTones root startFret
  ≡ₚ enumerateVoicings chordTones root startFret.
Proof.
  rewrite generate_voicings.
  unfold filterComplete.
  destruct (existsb _ _) eqn:Hany; [|done].
  apply existsb_true_iff in Hany as (v0 & _ & Hfifth).
  apply hasFifth_spec in Hfifth as (interval & Hfam & Hin & _).
  rewrite filter_all; [done|].
  intros v Hv. apply hasFifth_spec. exists interval. split_and!; [done|done|].
  apply (recorded_sounds chordTones root startFret); [by apply enumerate_recorded|].
  do 3 right. done.
Qed.

Lemma muted_plus_sounded (fs : list FretValue) :
  mutedStrings fs + soundedStrings fs = Z.of_nat (length fs).
Proof.
  unfold mutedStrings, soundedStrings.
  induction fs as [|[a|] fs IH].
  - done.
  - rewrite filter_cons_False, filter_cons_True by done. simpl length. lia.
  - rewrite filter_cons_True by done.
    rewrite filter_cons_False by (intros H; by apply H). simpl length. lia.
Qed.

(** Every returned voicing has six strings of which between 3 and 6 are
    sounded; its score is finite and not negative, and the adjacent-jump
    penalty contributes nothing to it. *)
Theorem returned_voicing_shape (chordTones : list PitchClass) (root startFret : Z)
    (sv : ScoredVoicing) :
  sv ∈ generateChordVoicings chordTones root startFret →
  length (frets (voicing sv)) = 6%nat ∧
  3 ≤ soundedStrings (frets (voicing sv)) ≤ 6 ∧
  mutedStrings (frets (voicing sv)) = 6 - soundedStrings (frets (voicing sv)) ∧
  adjacentJumps (frets (voicing sv)) = 0 ∧
  ∃ q, score sv = Finite q ∧ (0 <= q)%Q.
Proof.
  intros Hsv.
  pose proof (generate_recorded _ _ _ _ Hsv) as Hrec.
  destruct (recorded_length _ _ _ _ Hrec) as [Hlen _].
  pose proof (recorded_sounded_count _ _ _ _ Hrec) as Hcount.
  rewrite count_sounded in Hcount.
  assert (mutedStrings (frets (voicing sv)) + soundedStrings (frets (voicing sv)) = 6) as Hsum.
  { rewrite muted_plus_sounded, Hlen. done. }
  split_and!; [done|unfold soundedStrings; lia|unfold soundedStrings; lia|lia| |].
  { by eapply generate_no_jumps. }
  destruct (generate_elem_of _ _ _ _ Hsv) as [_ ->].
  destruct (getVoicingScore_recorded _ _ _ _ Hrec)
    as (minFret & maxFret & [Hmin Hlow] & [Hmax Hhigh] & ->).
  eexists. split; [reflexivity|].
  rewrite (generate_no_jumps _ _ _ _ Hsv).
  assert (0 ≤ minFret) as Hpos.
  { apply list_elem_of_lookup in Hmin as [k Hk].
    destruct (recorded_fretted _ _ _ _ Hrec _ _ Hk) as [Hw _].
    unfold windowStartOf in Hw. case_decide; lia. }
  assert (minFret ≤ maxFret) as Hle by (by apply Hlow).
  assert (0 ≤ nonRootBass (stringPitches (voicing sv)) root) as Hbass.
  { unfold nonRootBass. destruct (omap id _); [lia|]. case_decide; lia. }
  assert (0 ≤ mutedStrings (frets (voicing sv))) as Hmuted by (unfold mutedStrings; lia).
  apply Double_add_nonneg; [rewrite <- (Zle_Qle 0); lia|].
  apply Double_mul_nonneg; [rewrite <- (Zle_Qle 0); lia|].
  by apply Double_round_nonneg.
Qed.

Lemma returned_voicing_shape_witness :
  ∃ sv rest, generateChordVoicings [0; 4; 7] 0 1 = sv :: rest ∧
    3 ≤ soundedStrings (frets (voicing sv)) ≤ 6 ∧ ∃ q, score sv = Finite q ∧ (0 <= q)%Q.
Proof.
  pose proof (returned_voicing_shape [0; 4; 7] 0 1) as Hthm.
  destruct (generateChordVoicings [0; 4; 7] 0 1) as [|sv rest] eqn:Hgen;
    [vm_compute in Hgen; discriminate|].
  exists sv, rest. split; [reflexivity|].
  destruct (Hthm sv) as (_ & Hcount & _ & _ & Hscore); [by left|].
  split; [exact Hcount|exact Hscore].
Defined.

(** The search and the driver do not depend on the order of the chord
    tones: listing them in another order changes neither the ranked voicings
    nor the shape. *)
Theorem chord_tone_order_irrelevant (tones tones' : list PitchClass) (root : Z) :
  tones ≡ₚ tones' →
  (∀ startFret, generateChordVoicings tones root startFret
                = generateChordVoicings tones' root startFret) ∧
  getBestVoicingShape tones root = getBestVoicingShape tones' root.
Proof.
  intros Hperm. split.
  - intros startFret. by apply generateChordVoicings_Permutation.
  - by apply getBestVoicingShape_Permutation.
Qed.

Lemma chord_tone_order_irrelevant_witness :
  generateChordVoicings [7; 0; 4] 0 3 = generateChordVoicings [0; 4; 7] 0 3 ∧
  getBestVoicingShape [7; 0; 4] 0 = getBestVoicingShape [0; 4; 7] 0.
Proof.
  destruct (chord_tone_order_irrelevant [7; 0; 4] [0; 4; 7] 0) as [Hsearch Hdriver].
  { apply (Permutation_cons_append [0; 4] 7). }
  split; [apply Hsearch|exact Hdriver].
Defined.

(** ** Finger assignment *)

Lemma fingerAt_Array_set (fingers : list (option Z)) (i j : nat) (x : option Z) :
  fingerAt (Array_set None i x fingers) j = if decide (i = j) then x else fingerAt fingers j.
Proof.
  unfold fingerAt, Array_set.
  destruct (Nat.ltb_spec i (length fingers)) as [Hlt|Hge].
  - case_decide as Hij.
    + subst j. by rewrite list_lookup_insert_eq.
    + by rewrite list_lookup_insert_ne.
  - case_decide as Hij.
    + subst j. rewrite lookup_app_r by done.
      rewrite lookup_app_r by (rewrite length_replicate; lia).
      rewrite length_replicate.
      by replace (i - length fingers - (i - length fingers))%nat with 0%nat by lia.
    + destruct (decide (j < length fingers)%nat) as [Hj|Hj].
      * by rewrite lookup_app_l.
      * rewrite lookup_app_r by lia.
        rewrite (lookup_ge_None_2 fingers j) by lia.
        destruct (decide (j < i)%nat) as [Hji|Hji].
        -- rewrite lookup_app_l by (rewrite length_replicate; lia).
           rewrite lookup_replicate_2 by lia. done.
        -- rewrite lookup_app_r by (rewrite length_replicate; lia).
           rewrite length_replicate.
           destruct (j - length fingers - (i - length fingers))%nat as [|k] eqn:Hk; [lia|done].
Qed.

Lemma Array_set_length_in (fingers : list (option Z)) (i : nat) (x : option Z) :
  (i < length fingers)%nat → length (Array_set None i x fingers) = length fingers.
Proof.
  intros Hi. unfold Array_set.
  rewrite (proj2 (Nat.ltb_lt _ _)) by done. by rewrite length_insert.
Qed.

Section FingerFold.
Variables (fretted : list FrettedNote).

(** The string indices of the notes on [fret]. *)
Local Abbreviation group fret :=
  (note_index <$> filter (λ note, note_fret note = fret) fretted).

(** One round of the outer [forEach] of [assignFingerNumbers]. *)
Local Abbreviation round :=
  (λ (fingers : list (option Z)) '(idx, fret),
     let finger := Z.min (Z.of_nat idx + 1) 4 in
     foldl (λ fingers note, Array_set None (note_index note) (Some finger) fingers)
           fingers
           (filter (λ note, note_fret note = fret) fretted)).

Lemma finger_inner (notes : list FrettedNote) (fingers : list (option Z)) (finger : Z) (j : nat) :
  fingerAt (foldl (λ fingers note, Array_set None (note_index note) (Some finger) fingers)
                  fingers notes) j =
  if decide (j ∈ note_index <$> notes) then Some finger else fingerAt fingers j.
Proof.
  revert fingers. induction notes as [|note notes IH]; intros fingers; cbn [foldl].
  - destruct (decide _) as [Hin|_]; [by apply elem_of_nil in Hin|done].
  - rewrite IH, fingerAt_Array_set, fmap_cons.
    destruct (decide (j ∈ note_index <$> notes)) as [Hin|Hin].
    + rewrite decide_True; [done|by right].
    + destruct (decide (note_index note = j)) as [<-|Hne].
      * rewrite decide_True; [done|left].
      * rewrite decide_False; [done|].
        intros [?|?]%elem_of_cons; [by apply Hne|done].
Qed.

Lemma finger_inner_length (notes : list FrettedNote) (fingers : list (option Z)) (finger : Z) :
  (∀ note, note ∈ notes → (note_index note < length fingers)%nat) →
  length (foldl (λ fingers note, Array_set None (note_index note) (Some finger) fingers)
                fingers notes) = length fingers.
Proof.
  revert fingers. induction notes as [|note notes IH]; intros fingers Hin; simpl; [done|].
  rewrite IH.
  - apply Array_set_length_in, Hin. left.
  - intros note' Hnote'. rewrite Array_set_length_in by (apply Hin; left).
    apply Hin. by right.
Qed.

Hypothesis group_disjoint : ∀ j f1 f2, j ∈ group f1 → j ∈ group f2 → f1 = f2.

Lemma finger_outer (entries : list (nat * Z)) (fingers : list (option Z)) (j : nat) :
  NoDup (snd <$> entries) →
  (∀ idx fret, (idx, fret) ∈ entries → j ∈ group fret →
     fingerAt (foldl round fingers entries) j = Some (Z.min (Z.of_nat idx + 1) 4)) ∧
  ((∀ idx fret, (idx, fret) ∈ entries → j ∉ group fret) →
     fingerAt (foldl round fingers entries) j = fingerAt fingers j).
Proof.
  induction entries as [|[idx0 fret0] entries IH] using rev_ind; intros Hnd.
  - split; [intros idx fret Hin; by apply elem_of_nil in Hin|done].
  - rewrite fmap_app in Hnd. apply NoDup_app in Hnd as (Hnd & Hfresh & _).
    destruct (IH Hnd) as [IH1 IH2]. rewrite foldl_snoc. cbn beta iota zeta.
    rewrite finger_inner. split.
    + intros idx fret [Hin|Hin]%elem_of_app Hj.
      * rewrite decide_False; [by eapply IH1|].
        intros Hj0. assert (fret = fret0) as -> by (by eapply group_disjoint).
        apply (Hfresh fret0); [|left].
        apply list_elem_of_fmap. by exists (idx, fret0).
      * apply list_elem_of_singleton in Hin as [= -> ->]. by rewrite decide_True.
    + intros Hnone. rewrite decide_False.
      * apply IH2. intros idx fret Hin. apply (Hnone idx), elem_of_app. by left.
      * apply (Hnone idx0), elem_of_app. right. left.
Qed.

Lemma finger_outer_length (entries : list (nat * Z)) (fingers : list (option Z)) :
  (∀ note, note ∈ fretted → (note_index note < length fingers)%nat) →
  length (foldl round fingers entries) = length fingers.
Proof.
  intros Hin. induction entries as [|[idx0 fret0] entries IH] using rev_ind; [done|].
  rewrite foldl_snoc. cbn beta iota zeta. rewrite finger_inner_length; [exact IH|].
  intros note [_ Hnote]%list_elem_of_filter.
  eapply Nat.lt_le_trans; [by apply Hin|].
  apply Nat.eq_le_incl. symmetry. exact IH.
Qed.
End FingerFold.

Lemma Set_toArray_fold (acc l : list Z) :
  NoDup acc →
  NoDup (foldl (λ acc x, if bool_decide (x ∈ acc) then acc else acc ++ [x]) acc l) ∧
  ∀ x, x ∈ foldl (λ acc x, if bool_decide (x ∈ acc) then acc else acc ++ [x]) acc l
       ↔ x ∈ acc ∨ x ∈ l.
Proof.
  revert acc. induction l as [|y l IH]; intros acc Hnd; cbn [foldl].
  - split; [done|]. intros x. rewrite elem_of_nil. tauto.
  - case_bool_decide as Hy.
    + destruct (IH acc Hnd) as [Hnd' Hin]. split; [done|].
      intros x. rewrite Hin, elem_of_cons. split; [tauto|].
      intros [?|[->|?]]; tauto.
    + destruct (IH (acc ++ [y])) as [Hnd' Hin].
      { apply NoDup_app. split_and!; [done| |apply NoDup_singleton].
        intros x Hx ->%list_elem_of_singleton. done. }
      split; [done|]. intros x.
      rewrite Hin, elem_of_app, list_elem_of_singleton, elem_of_cons. tauto.
Qed.

Lemma Set_toArray_NoDup (l : list Z) : NoDup (Set_toArray l).
Proof. apply Set_toArray_fold. constructor. Qed.

Lemma Set_toArray_elem_of (l : list Z) (x : Z) : x ∈ Set_toArray l ↔ x ∈ l.
Proof.
  unfold Set_toArray. destruct (Set_toArray_fold [] l) as [_ ->]; [constructor|].
  rewrite elem_of_nil. tauto.
Qed.

Lemma sorted_NoDup_strict (l : list Z) :
  StronglySorted Z.le l → NoDup l → StronglySorted Z.lt l.
Proof.
  induction 1 as [|x l Hs IH Hx]; intros Hnd; constructor.
  - apply IH. by apply NoDup_cons in Hnd as [_ ?].
  - apply NoDup_cons in Hnd as [Hfresh _].
    rewrite Forall_forall in Hx |- *. intros y Hy.
    assert (x ≠ y) by (by intros ->). specialize (Hx y Hy). lia.
Qed.

Lemma filter_none {A} (P : A → Prop) `{∀ x, Decision (P x)} (l : list A) :
  (∀ x, x ∈ l → ¬ P x) → filter P l = [].
Proof.
  induction l as [|x l IH]; intros Hnone; [done|].
  rewrite filter_cons_False by (apply Hnone; left).
  apply IH. intros y Hy. apply Hnone. by right.
Qed.

Lemma strict_sorted_index (l : list Z) (idx : nat) (n : Z) :
  StronglySorted Z.lt l → l !! idx = Some n →
  length (filter (λ m, m < n) l) = idx.
Proof.
  intros Hs. revert idx. induction Hs as [|x l Hs IH Hx]; intros idx Hidx; [done|].
  rewrite Forall_forall in Hx.
  destruct idx as [|idx]; simpl in Hidx.
  - injection Hidx as ->. rewrite filter_cons_False by lia.
    rewrite filter_none; [done|].
    intros y Hy. specialize (Hx y Hy). lia.
  - assert (x < n) by (apply Hx; by eapply list_elem_of_lookup_2).
    rewrite filter_cons_True by done. simpl. f_equal. by apply IH.
Qed.

Section UniqueFrets.
Variable fs : list FretValue.

(** [uniqueFrets] of [assignFingerNumbers]. *)
Local Abbreviation uniqueFrets :=
  (Array_sort (λ a b, a - b <? 0) (Set_toArray (note_fret <$> frettedNotes fs))).

Lemma uniqueFrets_elem_of (n : Z) : n ∈ uniqueFrets ↔ Fret n ∈ fs ∧ 0 < n.
Proof.
  rewrite Array_sort_elem_of, Set_toArray_elem_of, list_elem_of_fmap. split.
  - intros (note & -> & [Hi Hpos]%frettedNotes_elem_of). split; [|done].
    by eapply list_elem_of_lookup_2.
  - intros [[i Hi]%list_elem_of_lookup Hpos].
    exists {| note_fret := n; note_index := i |}. split; [done|].
    by apply frettedNotes_elem_of.
Qed.

Lemma uniqueFrets_NoDup : NoDup uniqueFrets.
Proof. rewrite Array_sort_Permutation. apply Set_toArray_NoDup. Qed.

Lemma uniqueFrets_strict : StronglySorted Z.lt uniqueFrets.
Proof. apply sorted_NoDup_strict; [apply sorted_intervals_le|apply uniqueFrets_NoDup]. Qed.

Lemma uniqueFrets_index (idx : nat) (n : Z) :
  uniqueFrets !! idx = Some n → distinctLowerFrets fs n = Z.of_nat idx.
Proof.
  intros Hidx. unfold distinctLowerFrets. f_equal.
  rewrite <- (strict_sorted_index _ _ _ uniqueFrets_strict Hidx).
  rewrite <- (size_list_to_set (C:=gset Z)).
  - f_equal. apply set_eq. intros m.
    rewrite !elem_of_list_to_set, !list_elem_of_filter, uniqueFrets_elem_of.
    rewrite nonMutedFrets_elem_of. split; [intros [[??]?]|intros [?[??]]]; repeat split; try done.
  - apply NoDup_filter, uniqueFrets_NoDup.
Qed.
End UniqueFrets.

Lemma snd_Array_entries {A} (l : list A) : snd <$> imap (λ i x, (i, x)) l = l.
Proof.
  apply list_eq. intros i. rewrite list_lookup_fmap, list_lookup_imap.
  by destruct (l !! i).
Qed.

Lemma frettedNotes_groups_disjoint (fs : list FretValue) (j : nat) (f1 f2 : Z) :
  j ∈ note_index <$> filter (λ note, note_fret note = f1) (frettedNotes fs) →
  j ∈ note_index <$> filter (λ note, note_fret note = f2) (frettedNotes fs) →
  f1 = f2.
Proof. intros [H1 _]%barreStrings_elem_of [H2 _]%barreStrings_elem_of. congruence. Qed.

Lemma assignFingerNumbers_spec_facts (fs : list FretValue) :
  (∀ i n, fs !! i = Some (Fret n) → 0 < n →
     fingerAt (assignFingerNumbers fs) i = Some (Z.min (distinctLowerFrets fs n + 1) 4)) ∧
  (∀ i, (∀ n, fs !! i = Some (Fret n) → n ≤ 0) →
     fingerAt (assignFingerNumbers fs) i = None) ∧
  ((length fs ≤ 6)%nat → length (assignFingerNumbers fs) = 6%nat).
Proof.
  unfold assignFingerNumbers. case_bool_decide as Hempty.
  { split_and!.
    - intros i n Hi Hn. exfalso.
      assert ({| note_fret := n; note_index := i |} ∈ frettedNotes fs) as Hin
        by (by apply frettedNotes_elem_of).
      destruct (frettedNotes fs); [by apply elem_of_nil in Hin|done].
    - intros i _. unfold fingerAt.
      destruct (replicate 6 None !! i) as [o|] eqn:Ho; [|done].
      by apply lookup_replicate in Ho as [-> _].
    - done. }
  set (entries := imap (λ idx fret, (idx, fret)) _).
  assert (NoDup (snd <$> entries)) as Hnd.
  { unfold entries. rewrite snd_Array_entries. apply uniqueFrets_NoDup. }
  split_and!.
  - intros i n Hi Hn.
    assert (n ∈ snd <$> entries) as Hin.
    { unfold entries. rewrite snd_Array_entries. apply uniqueFrets_elem_of.
      split; [by eapply list_elem_of_lookup_2|done]. }
    apply list_elem_of_fmap in Hin as ([idx n'] & Heq & Hentry). simpl in Heq. subst n'.
    assert (distinctLowerFrets fs n = Z.of_nat idx) as ->.
    { apply uniqueFrets_index. unfold entries in Hentry.
      apply elem_of_lookup_imap in Hentry as (k & m & [= -> ->] & Hk). done. }
    eapply (finger_outer (frettedNotes fs) (frettedNotes_groups_disjoint fs)); [done|done|].
    by apply barreStrings_elem_of.
  - intros i Hi.
    etrans.
    + apply (proj2 (finger_outer (frettedNotes fs) (frettedNotes_groups_disjoint fs)
                      entries (replicate 6 None) i Hnd)).
      intros idx fret _ [Hfret Hpos]%barreStrings_elem_of.
      specialize (Hi fret Hfret). lia.
    + unfold fingerAt. destruct (replicate 6 None !! i) as [o|] eqn:Ho; [|done].
      by apply lookup_replicate in Ho as [-> _].
  - intros Hlen.
    etrans; [apply (finger_outer_length (frettedNotes fs))|done].
    intros note [Hi _]%frettedNotes_elem_of. apply lookup_lt_Some in Hi.
    rewrite length_replicate. lia.
Qed.

(** [assignFingerNumbers] gives every fretted string the finger
    [min(k + 1, 4)], where [k] counts the distinct fretted frets below its
    own; open and muted strings, and positions past the array, get no
    finger.  For an array of at most six entries the result has six. *)
Theorem assignFingerNumbers_spec (fs : list FretValue) :
  (∀ i n, fs !! i = Some (Fret n) → 0 < n →
     fingerAt (assignFingerNumbers fs) i = Some (Z.min (distinctLowerFrets fs n + 1) 4)) ∧
  (∀ i, (∀ n, fs !! i = Some (Fret n) → n ≤ 0) →
     fingerAt (assignFingerNumbers fs) i = None) ∧
  ((length fs ≤ 6)%nat → length (assignFingerNumbers fs) = 6%nat).
Proof. apply assignFingerNumbers_spec_facts. Qed.

Lemma assignFingerNumbers_spec_witness :
  fingerAt (assignFingerNumbers [X; Fret 2; Fret 4; Fret 4; Fret 3; Fret 2]) 4 = Some 2 ∧
  fingerAt (assignFingerNumbers [X; Fret 2; Fret 4; Fret 4; Fret 3; Fret 2]) 0 = None ∧
  length (assignFingerNumbers [X; Fret 2; Fret 4; Fret 4; Fret 3; Fret 2]) = 6%nat.
Proof.
  destruct (assignFingerNumbers_spec [X; Fret 2; Fret 4; Fret 4; Fret 3; Fret 2])
    as (Hfret & Hnone & Hlen).
  split; [|split].
  - apply (Hfret 4%nat 3); [reflexivity|lia].
  - apply (Hnone 0%nat). intros n Hn. discriminate.
  - apply Hlen. simpl. lia.
Defined.

Lemma distinctLowerFrets_nonneg (fs : list FretValue) (n : Z) : 0 ≤ distinctLowerFrets fs n.
Proof. unfold distinctLowerFrets. lia. Qed.

Lemma distinctLowerFrets_mono (fs : list FretValue) (n m : Z) :
  n ≤ m → distinctLowerFrets fs n ≤ distinctLowerFrets fs m.
Proof.
  intros Hnm. unfold distinctLowerFrets. apply inj_le, subseteq_size.
  intros x. rewrite !elem_of_list_to_set, !list_elem_of_filter.
  intros [? ?]. split; [lia|done].
Qed.

Lemma distinctLowerFrets_strict (fs : list FretValue) (n m : Z) :
  Fret n ∈ fs → 0 < n → n < m → distinctLowerFrets fs n < distinctLowerFrets fs m.
Proof.
  intros Hin Hpos Hnm. unfold distinctLowerFrets. apply inj_lt, subset_size.
  split.
  - intros x. rewrite !elem_of_list_to_set, !list_elem_of_filter.
    intros [? ?]. split; [lia|done].
  - intros Hsub. specialize (Hsub n).
    rewrite !elem_of_list_to_set, !list_elem_of_filter, nonMutedFrets_elem_of in Hsub.
    destruct Hsub as [? _]; [split; [lia|done]|]. lia.
Qed.

Lemma fingers_follow_frets_facts (fs : list FretValue) (i j : nat) (n m : Z) :
  fs !! i = Some (Fret n) → fs !! j = Some (Fret m) → 0 < n → n ≤ m →
  ∃ a b, fingerAt (assignFingerNumbers fs) i = Some a ∧
         fingerAt (assignFingerNumbers fs) j = Some b ∧
         1 ≤ a ∧ a ≤ b ∧ b ≤ 4 ∧
         (n = m → a = b) ∧ (n < m → a < b ∨ b = 4).
Proof.
  intros Hi Hj Hn Hnm.
  destruct (assignFingerNumbers_spec_facts fs) as (Hspec & _ & _).
  exists (Z.min (distinctLowerFrets fs n + 1) 4), (Z.min (distinctLowerFrets fs m + 1) 4).
  pose proof (distinctLowerFrets_nonneg fs n).
  pose proof (distinctLowerFrets_mono fs n m Hnm).
  split_and!; [by apply Hspec|apply Hspec; [done|lia]|lia|lia|lia| |].
  - by intros ->.
  - intros Hlt.
    pose proof (distinctLowerFrets_strict fs n m
                  ltac:(by eapply list_elem_of_lookup_2) Hn Hlt).
    lia.
Qed.

(** Fingers follow the frets: every fretted string gets a finger between 1
    and 4; strings on the same fret share a finger; a string on a higher
    fret gets a higher finger, or finger 4 once the fingers run out. *)
Theorem fingers_follow_frets (fs : list FretValue) (i j : nat) (n m : Z) :
  fs !! i = Some (Fret n) → fs !! j = Some (Fret m) → 0 < n → n ≤ m →
  ∃ a b, fingerAt (assignFingerNumbers fs) i = Some a ∧
         fingerAt (assignFingerNumbers fs) j = Some b ∧
         1 ≤ a ∧ a ≤ b ∧ b ≤ 4 ∧
         (n = m → a = b) ∧ (n < m → a < b ∨ b = 4).
Proof. apply fingers_follow_frets_facts. Qed.

Lemma fingers_follow_frets_witness :
  ∃ a b,
    fingerAt (assignFingerNumbers [X; Fret 2; Fret 4; Fret 4; Fret 3; Fret 2]) 4 = Some a ∧
    fingerAt (assignFingerNumbers [X; Fret 2; Fret 4; Fret 4; Fret 3; Fret 2]) 2 = Some b ∧
    a < b ∧ b ≤ 4.
Proof.
  destruct (fingers_follow_frets [X; Fret 2; Fret 4; Fret 4; Fret 3; Fret 2] 4 2 3 4)
    as (a & b & Ha & Hb & _ & _ & Hb4 & _ & Hlt); [reflexivity|reflexivity|lia|lia|].
  exists a, b. split; [exact Ha|]. split; [exact Hb|]. split; [|exact Hb4].
  cbv in Ha, Hb. injection Ha as <-. injection Hb as <-. lia.
Defined.

(** The barre agrees with the finger assignment: when [detectBarre] reports
    a barre, [assignFingerNumbers] puts the barre's finger, 1, on every
    string that holds the barre fret. *)
Theorem barre_strings_get_finger_one (fs : list FretValue) (b : Barre) (i : nat) :
  detectBarre fs = Some b → fs !! i = Some (Fret (barre_fret b)) →
  finger b = 1 ∧ fingerAt (assignFingerNumbers fs) i = Some (finger b).
Proof.
  unfold detectBarre. case_bool_decide as Hempty; [done|].
  assert (frettedNotes fs ≠ []) as Hne by (by destruct (frettedNotes fs)).
  destruct (frettedNotes_min fs Hne) as (Hpos & _ & Hmin).
  destruct (_ <? _)%nat; [done|]. intros [= <-]. cbn [barre_fret finger].
  intros Hi. split; [done|].
  destruct (assignFingerNumbers_spec_facts fs) as (Hspec & _ & _).
  rewrite (Hspec _ _ Hi Hpos). f_equal.
  assert (distinctLowerFrets fs (Math_min (note_fret <$> frettedNotes fs)) = 0) as ->; [|done].
  unfold distinctLowerFrets. rewrite filter_none; [done|].
  intros m [k Hk]%nonMutedFrets_elem_of%list_elem_of_lookup [Hm Hlt].
  specialize (Hmin _ _ Hk Hm). lia.
Qed.

Lemma barre_strings_get_finger_one_witness :
  ∃ b, detectBarre [Fret 1; Fret 3; Fret 3; Fret 2; Fret 1; Fret 1] = Some b ∧
       fingerAt (assignFingerNumbers [Fret 1; Fret 3; Fret 3; Fret 2; Fret 1; Fret 1]) 4
       = Some 1.
Proof.
  eexists. split; [reflexivity|].
  apply (barre_strings_get_finger_one [Fret 1; Fret 3; Fret 3; Fret 2; Fret 1; Fret 1]
           {| barre_fret := 1; fromString := 0; toString := 5; finger := 1 |} 4);
    reflexivity.
Defined.

Lemma buildChordShape_startFret_facts (fs : list FretValue)
    (providedFingers : option (list (option Z))) :
  let shape := buildChordShape fs providedFingers in
  1 ≤ shape_startFret shape ∧
  (∀ n, Fret n ∈ fs → 0 < n → shape_startFret shape ≤ n) ∧
  ((∃ n, Fret n ∈ fs ∧ 0 < n) → Fret (shape_startFret shape) ∈ fs) ∧
  ((∀ n, Fret n ∈ fs → n ≤ 0) → shape_startFret shape = 1) ∧
  (∀ b, shape_barre shape = Some b → barre_fret b = shape_startFret shape).
Proof.
  cbv zeta. unfold buildChordShape. cbn [shape_startFret shape_barre].
  case_bool_decide as Hempty.
  - assert (frettedNotes fs = []) as Hnil by (by destruct (frettedNotes fs)).
    assert (∀ n, Fret n ∈ fs → 0 < n → False) as Hnone.
    { intros n [k Hk]%list_elem_of_lookup Hn.
      assert ({| note_fret := n; note_index := k |} ∈ frettedNotes fs) as Hin
        by (by apply frettedNotes_elem_of).
      rewrite Hnil in Hin. by apply elem_of_nil in Hin. }
    split_and!; [done| | |done|].
    + intros n Hin Hn. by destruct (Hnone n).
    + intros (n & Hin & Hn). by destruct (Hnone n).
    + unfold detectBarre. by rewrite Hnil.
  - assert (frettedNotes fs ≠ []) as Hne
      by (intros Hnil; by rewrite Hnil in Hempty).
    destruct (frettedNotes_min fs Hne) as (Hpos & [i0 Hi0] & Hmin).
    set (m0 := Math_min (note_fret <$> frettedNotes fs)) in *.
    assert ((if 1 <? m0 then m0 else 1) = m0) as ->
      by (destruct (Z.ltb_spec 1 m0); lia).
    split_and!; [lia| | | |].
    + intros n [k Hk]%list_elem_of_lookup Hn. by eapply Hmin.
    + intros _. by eapply list_elem_of_lookup_2.
    + intros Hnone. specialize (Hnone m0 ltac:(by eapply list_elem_of_lookup_2)). lia.
    + unfold detectBarre. rewrite bool_decide_eq_false_2 by (by destruct (frettedNotes fs)).
      destruct (_ <? _)%nat; [done|]. by intros b [= <-].
Qed.

(** The display start fret of a shape is the lowest fretted fret of the
    array, and 1 when no string is fretted; it is never below 1, and a
    detected barre always lies on it. *)
Theorem buildChordShape_startFret (fs : list FretValue)
    (providedFingers : option (list (option Z))) :
  let shape := buildChordShape fs providedFingers in
  1 ≤ shape_startFret shape ∧
  (∀ n, Fret n ∈ fs → 0 < n → shape_startFret shape ≤ n) ∧
  ((∃ n, Fret n ∈ fs ∧ 0 < n) → Fret (shape_startFret shape) ∈ fs) ∧
  ((∀ n, Fret n ∈ fs → n ≤ 0) → shape_startFret shape = 1) ∧
  (∀ b, shape_barre shape = Some b → barre_fret b = shape_startFret shape).
Proof. apply buildChordShape_startFret_facts. Qed.

Lemma buildChordShape_startFret_witness :
  shape_startFret (buildChordShape [X; Fret 2; Fret 4; Fret 4; Fret 3; Fret 2] None) ≤ 3 ∧
  Fret (shape_startFret (buildChordShape [X; Fret 2; Fret 4; Fret 4; Fret 3; Fret 2] None))
    ∈ [X; Fret 2; Fret 4; Fret 4; Fret 3; Fret 2] ∧
  shape_startFret (buildChordShape [X; Fret 0; X; Fret 0; X; X] None) = 1.
Proof.
  destruct (buildChordShape_startFret [X; Fret 2; Fret 4; Fret 4; Fret 3; Fret 2] None)
    as (_ & Hlow & Hmem & _ & _).
  destruct (buildChordShape_startFret [X; Fret 0; X; Fret 0; X; X] None)
    as (_ & _ & _ & Hone & _).
  split; [|split].
  - apply Hlow; [|lia]. by_evaluation.
  - apply Hmem. exists 3. split; [by_evaluation|lia].
  - apply Hone. intros n Hn.
    repeat (apply elem_of_cons in Hn as [Hn|Hn]; [try discriminate; injection Hn as ->; lia|]).
    by apply elem_of_nil in Hn.
Defined.

(** ** Shapes of the driver and their diagram *)

Lemma getBestVoicingShape_cases (chordTones : list PitchClass) (root : Z) :
  getBestVoicingShape chordTones root = allMutedShape ∨
  ∃ startFret sv, 1 ≤ startFret ≤ 12 ∧
    sv ∈ generateChordVoicings chordTones root startFret ∧
    getBestVoicingShape chordTones root = buildChordShape (frets (voicing sv)) None.
Proof.
  unfold getBestVoicingShape.
  destruct (bestAfter chordTones root (Z.to_nat TOTAL_FRETS)) as [b|] eqn:Hb.
  - right. destruct (bestAfter_sound _ _ _ _ Hb) as (sf & Hsf & Hin).
    exists sf, b. split; [unfold TOTAL_FRETS in Hsf; lia|done].
  - by left.
Qed.

Lemma recorded_frets_range (chordTones : list PitchClass) (root startFret : Z)
    (v : ChordVoicing) :
  Recorded chordTones root startFret v →
  (∀ n, Fret n ∈ frets v → 0 ≤ n ≤ 12) ∧
  (∀ a b, Fret a ∈ frets v → Fret b ∈ frets v → a - b ≤ 3).
Proof.
  intros Hrec. split.
  - intros n [k Hk]%list_elem_of_lookup.
    destruct (recorded_fretted _ _ _ _ Hrec _ _ Hk) as [Hw _].
    unfold windowStartOf, windowEndOf in Hw. case_decide; lia.
  - intros a b Ha%nonMutedFrets_elem_of Hb%nonMutedFrets_elem_of.
    destruct (recorded_span _ _ _ _ Hrec) as (_ & _ & _ & Hspan).
    pose proof (Math_max_ge _ _ Ha). pose proof (Math_min_le _ _ Hb). lia.
Qed.

Lemma diagram_windowStart_build (fs : list FretValue) (pf : option (list (option Z))) :
  diagram_windowStart (buildChordShape fs pf) = shape_startFret (buildChordShape fs pf).
Proof.
  destruct (buildChordShape_startFret_facts fs pf) as (Hge & _).
  unfold diagram_windowStart.
  destruct (Z.ltb_spec 1 (shape_startFret (buildChordShape fs pf))); lia.
Qed.

Lemma fingerAt_lookup (fingers : list (option Z)) (i : nat) (k : Z) :
  fingerAt fingers i = Some k → fingers !! i = Some (Some k).
Proof. unfold fingerAt. destruct (fingers !! i) as [o|]; simpl; congruence. Qed.

(** The diagram keeps every barre [buildChordShape] reports: the barre lies
    on the first fret of the visible window. *)
Theorem diagram_shows_barre (fs : list FretValue) (pf : option (list (option Z))) :
  diagram_barre (buildChordShape fs pf) = shape_barre (buildChordShape fs pf) ∧
  ∀ b, shape_barre (buildChordShape fs pf) = Some b →
       barre_fret b = diagram_windowStart (buildChordShape fs pf).
Proof.
  destruct (buildChordShape_startFret_facts fs pf) as (_ & _ & _ & _ & Hbarre).
  pose proof (diagram_windowStart_build fs pf) as Hws.
  split.
  - unfold diagram_barre, diagram_windowEnd, fretCount. rewrite Hws.
    destruct (shape_barre (buildChordShape fs pf)) as [b|]; [|done].
    rewrite (Hbarre b eq_refl).
    rewrite (proj2 (Z.leb_le _ _)) by lia. rewrite (proj2 (Z.leb_le _ _)) by lia. done.
  - intros b Hb. rewrite Hws. by apply Hbarre.
Qed.

Lemma driver_shape_fully_drawn_facts (chordTones : list PitchClass) (root : Z)
    (i : nat) (f : FretValue) :
  let shape := getBestVoicingShape chordTones root in
  shape_frets shape !! i = Some f →
  diagram_marks shape !! i = Some (diagram_mark shape i f) ∧
  match f with
  | X => diagram_mark shape i f = MutedMark
  | Fret n =>
      (n = 0 → diagram_mark shape i f = OpenMark) ∧
      (n ≠ 0 →
       ∃ k, diagram_mark shape i f = DotMark (n - shape_startFret shape) (Some k) ∧
            0 ≤ n - shape_startFret shape ≤ 3 ∧ 1 ≤ k ≤ 4)
  end.
Proof.
  intros shape Hi. split.
  { unfold diagram_marks. by rewrite list_lookup_imap, Hi. }
  destruct f as [n|]; [|done].
  split; [by intros ->|]. intros Hn0.
  destruct (getBestVoicingShape_cases chordTones root)
    as [Hmuted|(sf & sv & _ & Hsv & Hshape)].
  { exfalso. subst shape. rewrite Hmuted in Hi.
    apply list_elem_of_lookup_2 in Hi. cbn [shape_frets allMutedShape] in Hi.
    repeat (apply elem_of_cons in Hi as [Hi|Hi]; [discriminate|]).
    by apply elem_of_nil in Hi. }
  subst shape. rewrite Hshape in *. clear Hshape.
  set (fs := frets (voicing sv)) in *.
  change (shape_frets (buildChordShape fs None)) with fs in Hi.
  pose proof (generate_recorded _ _ _ _ Hsv) as Hrec.
  destruct (recorded_frets_range _ _ _ _ Hrec) as [Hrange Hspan]. fold fs in Hrange, Hspan.
  assert (Fret n ∈ fs) as Hin by (by eapply list_elem_of_lookup_2).
  assert (0 < n) as Hpos by (specialize (Hrange n Hin); lia).
  destruct (buildChordShape_startFret_facts fs None) as (Hge & Hlow & Hmem & _ & _).
  specialize (Hlow n Hin Hpos). specialize (Hmem ltac:(by exists n)).
  specialize (Hspan n _ Hin Hmem).
  destruct (fingers_follow_frets_facts fs i i n n Hi Hi Hpos ltac:(lia))
    as (a & k & _ & Hk & Ha1 & Hak & Hk4 & _ & _).
  exists k. split; [|lia].
  unfold diagram_mark. rewrite (proj2 (Z.eqb_neq _ _)) by done.
  rewrite diagram_windowStart_build. unfold fretCount.
  rewrite (proj2 (Z.ltb_ge _ _)) by lia. rewrite (proj2 (Z.leb_gt _ _)) by lia.
  cbn [orb]. f_equal.
  change (shape_fingers (buildChordShape fs None)) with (assignFingerNumbers fs).
  rewrite (fingerAt_lookup _ _ _ Hk). rewrite (proj2 (Z.eqb_neq _ _)) by lia. done.
Qed.

(** Every string of a shape returned by the driver is drawn: a muted string
    as a cross, an open string as a circle, and a fretted string as a dot
    within the four visible frets, labelled with a finger from 1 to 4. *)
Theorem driver_shape_fully_drawn (chordTones : list PitchClass) (root : Z)
    (i : nat) (f : FretValue) :
  let shape := getBestVoicingShape chordTones root in
  shape_frets shape !! i = Some f →
  diagram_marks shape !! i = Some (diagram_mark shape i f) ∧
  match f with
  | X => diagram_mark shape i f = MutedMark
  | Fret n =>
      (n = 0 → diagram_mark shape i f = OpenMark) ∧
      (n ≠ 0 →
       ∃ k, diagram_mark shape i f = DotMark (n - shape_startFret shape) (Some k) ∧
            0 ≤ n - shape_startFret shape ≤ 3 ∧ 1 ≤ k ≤ 4)
  end.
Proof. apply driver_shape_fully_drawn_facts. Qed.

Lemma driver_shape_fully_drawn_witness :
  ∃ k, diagram_mark (getBestVoicingShape [4; 7; 11] 4) 1 (Fret 2)
       = DotMark (2 - shape_startFret (getBestVoicingShape [4; 7; 11] 4)) (Some k).
Proof.
  pose proof (driver_shape_fully_drawn [4; 7; 11] 4 1 (Fret 2)) as Hthm.
  cbv zeta in Hthm.
  assert (shape_frets (getBestVoicingShape [4; 7; 11] 4) !! 1%nat = Some (Fret 2)) as Hi
    by (vm_compute; reflexivity).
  destruct (Hthm Hi) as [_ [_ Hmark]].
  destruct (Hmark ltac:(discriminate)) as (k & Hk & _). exists k. exact Hk.
Defined.

(** ** Note names *)

Lemma String_trimStart_id (c : ascii) (rest : string) :
  isWhiteSpace c = false → String_trimStart (String c rest) = String c rest.
Proof. intros Hc. simpl. by rewrite Hc. Qed.

Lemma String_trimEnd_id (s : string) :
  Forall (λ c, isWhiteSpace c = false) (list_ascii_of_string s) → String_trimEnd s = s.
Proof.
  induction s as [|c s IH]; [done|].
  intros [Hc Hs]%Forall_cons. cbn [String_trimEnd]. rewrite (IH Hs).
  destruct s; [by rewrite Hc|done].
Qed.

Lemma String_repeat_chars (c : ascii) (n : nat) :
  list_ascii_of_string (String_repeat (String c EmptyString) n) = replicate n c.
Proof.
  induction n as [|n IH]; [done|].
  change (String_repeat (String c EmptyString) (S n))
    with (String c (String_repeat (String c EmptyString) n)).
  cbn [list_ascii_of_string replicate]. by rewrite IH.
Qed.

Lemma formatAccidental_chars (value : Z) :
  list_ascii_of_string (formatAccidental value) =
  if decide (0 ≤ value) then replicate (Z.to_nat value) "#"%char
  else replicate (Z.to_nat (- value)) "b"%char.
Proof.
  unfold formatAccidental.
  destruct (Z.eqb_spec value 0) as [->|Hne]; [done|].
  destruct (Z.ltb_spec 0 value); case_decide; try lia.
  - apply String_repeat_chars.
  - rewrite (String_repeat_chars "b"). f_equal. lia.
Qed.

(** The loop of [parseNoteName] over the accidental characters. *)
Lemma accidental_loop_sharps (n : nat) (acc : Z) :
  foldl (λ accidental char,
           let accidental := if bool_decide (char = "#"%char) then accidental + 1 else accidental in
           if bool_decide (char = "b"%char) then accidental - 1 else accidental)
        acc (replicate n "#"%char) = acc + Z.of_nat n.
Proof.
  revert acc. induction n as [|n IH]; intros acc; [simpl; lia|].
  cbn [replicate foldl]. rewrite IH. cbv zeta.
  rewrite (bool_decide_eq_true_2 ("#"%char = "#"%char)) by done.
  rewrite (bool_decide_eq_false_2 ("#"%char = "b"%char)) by done. lia.
Qed.

Lemma accidental_loop_flats (n : nat) (acc : Z) :
  foldl (λ accidental char,
           let accidental := if bool_decide (char = "#"%char) then accidental + 1 else accidental in
           if bool_decide (char = "b"%char) then accidental - 1 else accidental)
        acc (replicate n "b"%char) = acc - Z.of_nat n.
Proof.
  revert acc. induction n as [|n IH]; intros acc; [simpl; lia|].
  cbn [replicate foldl]. rewrite IH. cbv zeta.
  rewrite (bool_decide_eq_false_2 ("b"%char = "#"%char)) by done.
  rewrite (bool_decide_eq_true_2 ("b"%char = "b"%char)) by done. lia.
Qed.

Lemma accidental_loop_format (value : Z) :
  foldl (λ accidental char,
           let accidental := if bool_decide (char = "#"%char) then accidental + 1 else accidental in
           if bool_decide (char = "b"%char) then accidental - 1 else accidental)
        0 (list_ascii_of_string (formatAccidental value)) = value.
Proof.
  rewrite formatAccidental_chars. case_decide.
  - rewrite accidental_loop_sharps. lia.
  - rewrite accidental_loop_flats. lia.
Qed.

Lemma formatAccidental_no_space (value : Z) :
  Forall (λ c, isWhiteSpace c = false) (list_ascii_of_string (formatAccidental value)).
Proof.
  rewrite formatAccidental_chars. case_decide; apply Forall_replicate; reflexivity.
Qed.

Lemma parse_spelled_note (l : string) (base value : Z) :
  l ∈ LETTERS → LETTER_TO_PC !! l = Some base →
  parseNoteName (l +:+ formatAccidental value) =
    Some {| letter := l; accidental := value;
            parsed_pitchClass := normalizePitch (base + value) |}.
Proof.
  intros Hl Hbase.
  assert (∃ c, l = String c EmptyString ∧ isWhiteSpace c = false ∧ Char_toUpperCase c = c)
    as (c & -> & Hws & Hup).
  { repeat (apply elem_of_cons in Hl as [->|Hl]; [by eexists|]).
    by apply elem_of_nil in Hl. }
  unfold parseNoteName, String_trim.
  change (String c "" +:+ formatAccidental value) with (String c (formatAccidental value)).
  rewrite String_trimStart_id by done.
  rewrite String_trimEnd_id
    by (cbn [list_ascii_of_string]; apply Forall_cons; split;
        [done|apply formatAccidental_no_space]).
  cbn [String.get mbind option_bind String_dropFirst]. rewrite Hup, Hbase.
  cbn [mbind option_bind]. by rewrite accidental_loop_format.
Qed.

(** Spelling and parsing are inverse: a letter followed by the accidental
    string of [formatAccidental] parses back to that letter, that
    accidental count, and the letter's pitch class shifted by it. *)
Theorem spelled_note_parses_back (l : string) (value : Z) :
  l ∈ LETTERS →
  ∃ base, LETTER_TO_PC !! l = Some base ∧
    parseNoteName (l +:+ formatAccidental value) =
      Some {| letter := l; accidental := value;
              parsed_pitchClass := (base + value) `mod` 12 |}.
Proof.
  intros Hl. destruct (LETTERS_pitch l Hl) as [base Hbase].
  exists base. split; [done|]. rewrite <- normalizePitch_mod. by apply parse_spelled_note.
Qed.

Lemma spelled_note_parses_back_witness :
  parseNoteName ("B" +:+ formatAccidental (-2)) =
    Some {| letter := "B"; accidental := -2; parsed_pitchClass := 9 |}.
Proof.
  destruct (spelled_note_parses_back "B" (-2)) as (base & Hbase & Hparse).
  { by_evaluation. }
  vm_compute in Hbase. injection Hbase as <-. exact Hparse.
Defined.

Lemma Array_entries_lookup {A} (l : list A) (i : nat) (x : A) :
  l !! i = Some x → Array_entries l !! i = Some (i, x).
Proof. intros Hi. unfold Array_entries. by rewrite list_lookup_imap, Hi. Qed.

Lemma respell_pitch (targetPc basePc : Z) :
  0 ≤ targetPc < 12 →
  let diff := normalizePitch (targetPc - basePc) in
  let accidental := if diff <=? 6 then diff else diff - 12 in
  -5 ≤ accidental ≤ 6 ∧ normalizePitch (basePc + accidental) = targetPc.
Proof.
  intros Ht diff accidental. subst accidental diff.
  rewrite !normalizePitch_mod.
  pose proof (Z.mod_pos_bound (targetPc - basePc) 12 ltac:(lia)) as Hd.
  destruct (Z.leb_spec ((targetPc - basePc) `mod` 12) 6); (split; [lia|]);
    Z.to_euclidean_division_equations; lia.
Qed.

Lemma getScaleNotes_facts (rootName : string) (intervals : list Z) (parsed : ParsedNote) :
  parseNoteName rootName = Some parsed →
  ∃ rootIndex notes,
    Array_indexOf (letter parsed) LETTERS = Some rootIndex ∧
    getScaleNotes rootName intervals = Some notes ∧
    length notes = length intervals ∧
    ∀ degree interval, intervals !! degree = Some interval →
      ∃ note l acc,
        notes !! degree = Some note ∧
        LETTERS !! ((rootIndex + degree) `mod` 7)%nat = Some l ∧
        scale_pitchClass note = (parsed_pitchClass parsed + interval) `mod` 12 ∧
        -5 ≤ acc ≤ 6 ∧
        scale_name note = l +:+ formatAccidental acc ∧
        parseNoteName (scale_name note) =
          Some {| letter := l; accidental := acc;
                  parsed_pitchClass := scale_pitchClass note |}.
Proof.
  intros Hparsed.
  destruct (getScaleNotes_total rootName intervals) as (notes & Hnotes & Hlen); [by eexists|].
  assert (∃ pc, LETTER_TO_PC !! letter parsed = Some pc) as [pc Hpc].
  { unfold parseNoteName in Hparsed.
    apply bind_Some in Hparsed as (first & _ & Hparsed).
    apply bind_Some in Hparsed as (base & Hbase & [= <-]). by exists base. }
  destruct (LETTER_TO_PC_letters _ _ Hpc) as [rootIndex HrootIndex].
  exists rootIndex, notes. split_and!; [done..|].
  intros degree interval Hinterval.
  unfold getScaleNotes in Hnotes. rewrite Hparsed in Hnotes. cbn [mbind option_bind] in Hnotes.
  rewrite HrootIndex in Hnotes. cbn [mbind option_bind] in Hnotes.
  apply mapM_Some_1 in Hnotes.
  destruct (Forall2_lookup_l _ _ _ _ _ Hnotes (Array_entries_lookup _ _ _ Hinterval))
    as (note & Hnote & Hentry).
  cbn beta iota in Hentry.
  apply bind_Some in Hentry as (l & Hl & Hentry).
  apply bind_Some in Hentry as (basePc & HbasePc & [= <-]).
  pose proof (normalizePitch_range (parsed_pitchClass parsed + interval)) as Hrange.
  destruct (respell_pitch _ basePc Hrange) as [Hacc Hback]. cbv zeta in Hacc, Hback.
  match type of Hacc with _ ≤ ?a ≤ _ => eexists _, l, a end.
  split; [exact Hnote|]. split; [exact Hl|]. cbn [scale_name scale_pitchClass].
  split; [apply normalizePitch_mod|]. split; [exact Hacc|]. split; [reflexivity|].
  rewrite (parse_spelled_note l basePc); [by rewrite Hback| |done].
  by eapply list_elem_of_lookup_2.
Qed.

(** [getScaleNotes] spells the scale on consecutive letters: the note of
    each degree takes the letter that many steps after the root's letter,
    its pitch class lies the degree's interval above the root, and its name
    (the letter with at most six sharps or five flats) parses back to that
    letter and that pitch class. *)
Theorem scale_notes_spelling (rootName : string) (intervals : list Z) (parsed : ParsedNote) :
  parseNoteName rootName = Some parsed →
  ∃ rootIndex notes,
    Array_indexOf (letter parsed) LETTERS = Some rootIndex ∧
    getScaleNotes rootName intervals = Some notes ∧
    length notes = length intervals ∧
    ∀ degree interval, intervals !! degree = Some interval →
      ∃ note l acc,
        notes !! degree = Some note ∧
        LETTERS !! ((rootIndex + degree) `mod` 7)%nat = Some l ∧
        scale_pitchClass note = (parsed_pitchClass parsed + interval) `mod` 12 ∧
        -5 ≤ acc ≤ 6 ∧
        scale_name note = l +:+ formatAccidental acc ∧
        parseNoteName (scale_name note) =
          Some {| letter := l; accidental := acc;
                  parsed_pitchClass := scale_pitchClass note |}.
Proof. apply getScaleNotes_facts. Qed.

Lemma scale_notes_spelling_witness :
  ∃ notes note, getScaleNotes "F#" MAJOR_INTERVALS = Some notes ∧
    notes !! 6%nat = Some note ∧ scale_pitchClass note = 5 ∧
    parsed_pitchClass <$> parseNoteName (scale_name note) = Some 5.
Proof.
  destruct (scale_notes_spelling "F#" MAJOR_INTERVALS
              {| letter := "F"; accidental := 1; parsed_pitchClass := 6 |} eq_refl)
    as (rootIndex & notes & _ & Hnotes & _ & Hdegree).
  destruct (Hdegree 6%nat 11 eq_refl) as (note & l & acc & Hnote & _ & Hpc & _ & _ & Hparse).
  exists notes, note. split; [exact Hnotes|]. split; [exact Hnote|].
  split; [exact Hpc|]. rewrite Hparse. cbn [fmap option_fmap option_map parsed_pitchClass].
  f_equal. exact Hpc.
Defined.

Lemma parseNoteName_range (note : string) (parsed : ParsedNote) :
  parseNoteName note = Some parsed → 0 ≤ parsed_pitchClass parsed < 12.
Proof.
  unfold parseNoteName. intros Hparsed.
  apply bind_Some in Hparsed as (first & _ & Hparsed).
  apply bind_Some in Hparsed as (base & _ & [= <-]).
  apply normalizePitch_range.
Qed.

Lemma scale_suffixes (rootPc : Z) (tonality : Tonality) (k : nat) :
  0 ≤ rootPc < 12 → (k < 7)%nat →
  chordSuffixAt ((λ interval, normalizePitch (rootPc + interval)) <$>
                   match tonality with
                   | MajorTonality => MAJOR_INTERVALS
                   | MinorTonality => MINOR_INTERVALS
                   end) k =
  match tonality with
  | MajorTonality => MAJOR_SUFFIXES
  | MinorTonality => MINOR_SUFFIXES
  end !! k.
Proof.
  intros Hroot Hk.
  assert (forallb (λ rootPc,
            forallb (λ k,
              bool_decide
                (chordSuffixAt ((λ interval, normalizePitch (rootPc + interval)) <$> MAJOR_INTERVALS) k
                 = MAJOR_SUFFIXES !! k) &&
              bool_decide
                (chordSuffixAt ((λ interval, normalizePitch (rootPc + interval)) <$> MINOR_INTERVALS) k
                 = MINOR_SUFFIXES !! k))
              (seq 0 7))
            (seqZ 0 12) = true) as Hall by (vm_compute; reflexivity).
  rewrite forallb_forall in Hall.
  specialize (Hall rootPc). rewrite <- list_elem_of_In, elem_of_seqZ in Hall.
  specialize (Hall ltac:(lia)). rewrite forallb_forall in Hall.
  specialize (Hall k). rewrite <- list_elem_of_In, elem_of_seq in Hall.
  specialize (Hall ltac:(lia)). apply andb_prop in Hall as [Hmajor Hminor].
  apply bool_decide_eq_true in Hmajor, Hminor. by destruct tonality.
Qed.

Lemma diatonic_names_facts (currentKey : CurrentKeyData) (spellingMode : SpellingMode)
    (tonality : Tonality) (diagrams : list DiatonicChordDiagram) :
  getDiatonicChordDiagrams currentKey spellingMode tonality = Some diagrams →
  ∃ scaleNotes,
    getScaleNotes (keyRootName currentKey tonality)
      match tonality with
      | MajorTonality => MAJOR_INTERVALS
      | MinorTonality => MINOR_INTERVALS
      end = Some scaleNotes ∧
    length diagrams = 7%nat ∧
    ∀ k d, diagrams !! k = Some d →
      ∃ note suffix roman,
        scaleNotes !! k = Some note ∧
        match tonality with
        | MajorTonality => MAJOR_SUFFIXES
        | MinorTonality => MINOR_SUFFIXES
        end !! k = Some suffix ∧
        match tonality with
        | MajorTonality => ROMAN_MAJOR
        | MinorTonality => ROMAN_MINOR
        end !! k = Some roman ∧
        diagram_name d = scale_name note +:+ suffix ∧
        diagram_degree d = roman.
Proof.
  intros Hsome.
  set (intervals := match tonality with
                    | MajorTonality => MAJOR_INTERVALS
                    | MinorTonality => MINOR_INTERVALS
                    end).
  assert (length intervals = 7%nat) as Hlen7 by (by destruct tonality).
  unfold getDiatonicChordDiagrams in Hsome. fold (keyRootName currentKey tonality) in Hsome.
  fold intervals in Hsome.
  apply bind_Some in Hsome as (scaleNotes & Hscale & Hmap).
  assert (∃ parsed, parseNoteName (keyRootName currentKey tonality) = Some parsed)
    as [parsed Hparsed].
  { unfold getScaleNotes in Hscale. apply bind_Some in Hscale as (parsed & ? & _). by exists parsed. }
  destruct (getScaleNotes_facts _ intervals _ Hparsed)
    as (rootIndex & notes & _ & Hnotes & Hlen & Hdegree).
  rewrite Hscale in Hnotes. injection Hnotes as <-.
  pose proof (parseNoteName_range _ _ Hparsed) as Hroot.
  assert (scale_pitchClass <$> scaleNotes
          = (λ interval, normalizePitch (parsed_pitchClass parsed + interval)) <$> intervals)
    as Hpcs.
  { apply list_eq. intros i. rewrite !list_lookup_fmap.
    destruct (intervals !! i) as [interval|] eqn:Hi.
    - destruct (Hdegree _ _ Hi) as (note & l & acc & -> & _ & Hpc & _). simpl.
      by rewrite Hpc, normalizePitch_mod.
    - apply lookup_ge_None in Hi. rewrite (lookup_ge_None_2 scaleNotes) by lia. done. }
  apply mapM_Some_1 in Hmap. exists scaleNotes.
  split; [done|]. split.
  { apply Forall2_length in Hmap. unfold Array_entries in Hmap.
    rewrite length_imap in Hmap. lia. }
  intros k d Hk.
  destruct (Forall2_lookup_r _ _ _ _ _ Hmap Hk) as ([index note] & Hentry & Hd).
  unfold Array_entries in Hentry. rewrite list_lookup_imap in Hentry.
  destruct (scaleNotes !! k) as [note'|] eqn:Hnote; [|done].
  injection Hentry as <- <-.
  assert (k < 7)%nat as Hk7 by (apply lookup_lt_Some in Hnote; lia).
  pose proof (scale_suffixes _ tonality k Hroot Hk7) as Hsuffix.
  fold intervals in Hsuffix. rewrite <- Hpcs in Hsuffix.
  unfold chordSuffixAt in Hsuffix. rewrite !list_lookup_fmap, Hnote in Hsuffix.
  apply bind_Some in Hd as (tone0 & Htone0 & Hd).
  apply bind_Some in Hd as (tone2 & Htone2 & Hd).
  apply bind_Some in Hd as (tone4 & Htone4 & Hd).
  rewrite Htone0, Htone2, Htone4 in Hsuffix. cbn [fmap option_fmap option_map mbind option_bind] in Hsuffix.
  injection Hd as <-. cbn [diagram_name diagram_degree].
  destruct (lookup_lt_is_Some_2
              match tonality with
              | MajorTonality => ROMAN_MAJOR
              | MinorTonality => ROMAN_MINOR
              end k) as [roman Hroman]; [by destruct tonality|].
  eexists note', _, roman. split; [done|]. split; [symmetry; exact Hsuffix|].
  split; [exact Hroman|]. split; [reflexivity|]. by rewrite Hroman.
Qed.

(** The seven chords of a key follow the diatonic pattern: in a major key
    they are major, minor, minor, major, major, minor and diminished, in a
    minor key minor, diminished, major, minor, minor, major and major; each
    chord is named by its scale note followed by [""], ["m"] or ["dim"], and
    labelled with the Roman numeral of its degree. *)
Theorem diatonic_chord_names (currentKey : CurrentKeyData) (spellingMode : SpellingMode)
    (tonality : Tonality) (diagrams : list DiatonicChordDiagram) :
  getDiatonicChordDiagrams currentKey spellingMode tonality = Some diagrams →
  ∃ scaleNotes,
    getScaleNotes (keyRootName currentKey tonality)
      match tonality with
      | MajorTonality => MAJOR_INTERVALS
      | MinorTonality => MINOR_INTERVALS
      end = Some scaleNotes ∧
    length diagrams = 7%nat ∧
    ∀ k d, diagrams !! k = Some d →
      ∃ note suffix roman,
        scaleNotes !! k = Some note ∧
        match tonality with
        | MajorTonality => MAJOR_SUFFIXES
        | MinorTonality => MINOR_SUFFIXES
        end !! k = Some suffix ∧
        match tonality with
        | MajorTonality => ROMAN_MAJOR
        | MinorTonality => ROMAN_MINOR
        end !! k = Some roman ∧
        diagram_name d = scale_name note +:+ suffix ∧
        diagram_degree d = roman.
Proof. apply diatonic_names_facts. Qed.

Lemma diatonic_chord_names_witness :
  ∃ diagrams d,
    getDiatonicChordDiagrams {| index := 0; major := "C"; minor := "Am" |} Auto MinorTonality
      = Some diagrams ∧
    diagrams !! 1%nat = Some d ∧ diagram_name d = "Bdim" ∧ diagram_degree d = "ii°".
Proof.
  destruct (getDiatonicChordDiagrams {| index := 0; major := "C"; minor := "Am" |}
              Auto MinorTonality) as [diagrams|] eqn:Hd;
    [|vm_compute in Hd; discriminate].
  pose proof (diatonic_chord_names _ _ _ _ Hd) as (scaleNotes & Hscale & Hlen & Hnames).
  destruct (diagrams !! 1%nat) as [d|] eqn:Hk;
    [|apply lookup_ge_None in Hk; rewrite Hlen in Hk; lia].
  exists diagrams, d. split; [reflexivity|]. split; [exact Hk|].
  destruct (Hnames 1%nat d Hk) as (note & suffix & roman & Hnote & Hsuffix & Hroman & -> & ->).
  vm_compute in Hscale. injection Hscale as <-.
  injection Hnote as <-. injection Hsuffix as <-. injection Hroman as <-.
  split; reflexivity.
Defined.

(** ** The circle of fifths *)

Lemma normalizedIndex_mod (circleIndex : Z) :
  Z.rem (Z.rem circleIndex 12 + 12) 12 = circleIndex `mod` 12.
Proof. Z.to_euclidean_division_equations; lia. Qed.

Lemma getKeyDataAtIndex_facts (circleIndex : Z) (mode : SpellingMode) :
  ∃ key,
    getKeyDataAtIndex circleIndex mode = Some key ∧
    index key = circleIndex `mod` 12 ∧
    keyPitchClass key MajorTonality = Some ((7 * circleIndex) `mod` 12) ∧
    keyPitchClass key MinorTonality = Some ((7 * circleIndex + 9) `mod` 12).
Proof.
  unfold getKeyDataAtIndex. cbv zeta. rewrite normalizedIndex_mod.
  replace ((7 * circleIndex) `mod` 12) with ((7 * (circleIndex `mod` 12)) `mod` 12)
    by (Z.to_euclidean_division_equations; lia).
  replace ((7 * circleIndex + 9) `mod` 12) with ((7 * (circleIndex `mod` 12) + 9) `mod` 12)
    by (Z.to_euclidean_division_equations; lia).
  pose proof (Z.mod_pos_bound circleIndex 12 ltac:(lia)) as Hrange.
  generalize dependent (circleIndex `mod` 12). intros n Hrange.
  assert (n ∈ seqZ 0 12) as Hn by (apply elem_of_seqZ; lia).
  clear Hrange. cbv in Hn.
  repeat (apply elem_of_cons in Hn as [->|Hn];
          [destruct mode; (eexists; split; [vm_compute; reflexivity|]; vm_compute; done)|]).
  by apply elem_of_nil in Hn.
Qed.

(** The key data of a position of the circle: whatever the integer index
    (negative ones included) and the spelling mode, [getKeyDataAtIndex]
    returns a key whose index is the position modulo 12, whose major tonic
    lies [7 * index] semitones above C, and whose minor is the relative
    minor, a further nine semitones up; the enharmonic names of one position
    denote the same pitch class. *)
Theorem key_data_circle_of_fifths (circleIndex : Z) (mode : SpellingMode) :
  ∃ key,
    getKeyDataAtIndex circleIndex mode = Some key ∧
    index key = circleIndex `mod` 12 ∧
    keyPitchClass key MajorTonality = Some ((7 * circleIndex) `mod` 12) ∧
    keyPitchClass key MinorTonality = Some ((7 * circleIndex + 9) `mod` 12).
Proof. apply getKeyDataAtIndex_facts. Qed.

(** [getKeyDataAtIndex] depends on the index only modulo 12. *)
Theorem key_data_periodic (circleIndex circleIndex' : Z) (mode : SpellingMode) :
  circleIndex `mod` 12 = circleIndex' `mod` 12 →
  getKeyDataAtIndex circleIndex mode = getKeyDataAtIndex circleIndex' mode.
Proof.
  intros Hmod. unfold getKeyDataAtIndex. cbv zeta.
  by rewrite !normalizedIndex_mod, Hmod.
Qed.

Lemma key_data_periodic_witness :
  getKeyDataAtIndex (-1) Auto = getKeyDataAtIndex 23 Auto ∧
  getKeyDataAtIndex (-1) Auto = Some {| index := 11; major := "F"; minor := "Dm" |}.
Proof.
  split; [apply key_data_periodic; reflexivity|reflexivity].
Defined.

(** The neighbours [getContextKeys] returns are a fifth apart: the key to
    the right of the centre has its tonic seven semitones above the
    centre's, the key to the left five semitones above (a fifth below), in
    the major and in the minor reading alike. *)
Theorem context_keys_are_fifths (currentIndex : Z) (mode : SpellingMode)
    (tonality : Tonality) :
  ∃ context pc,
    getContextKeys currentIndex mode = Some context ∧
    index (context_center context) = currentIndex `mod` 12 ∧
    keyPitchClass (context_center context) tonality = Some pc ∧
    keyPitchClass (context_right context) tonality = Some ((pc + 7) `mod` 12) ∧
    keyPitchClass (context_left context) tonality = Some ((pc + 5) `mod` 12).
Proof.
  unfold getContextKeys.
  destruct (getKeyDataAtIndex_facts (currentIndex - 1) mode) as (l & -> & _ & Hlmajor & Hlminor).
  destruct (getKeyDataAtIndex_facts currentIndex mode) as (c & -> & Hindex & Hcmajor & Hcminor).
  destruct (getKeyDataAtIndex_facts (currentIndex + 1) mode) as (r & -> & _ & Hrmajor & Hrminor).
  cbn [mbind option_bind].
  exists {| context_left := l; context_center := c; context_right := r |}.
  cbn [context_left context_center context_right].
  destruct tonality.
  - eexists. split; [reflexivity|]. split; [exact Hindex|]. split; [exact Hcmajor|].
    rewrite Hrmajor, Hlmajor. split; f_equal; Z.to_euclidean_division_equations; lia.
  - eexists. split; [reflexivity|]. split; [exact Hindex|]. split; [exact Hcminor|].
    rewrite Hrminor, Hlminor. split; f_equal; Z.to_euclidean_division_equations; lia.
Qed.

(** Every position of the circle has its chord diagrams: for every integer
    index, spelling mode and tonality, the key [getKeyDataAtIndex] returns
    is one [getDiatonicChordDiagrams] can spell, and seven diagrams come
    back. *)
Theorem every_key_has_seven_diagrams (circleIndex : Z) (mode : SpellingMode)
    (tonality : Tonality) :
  ∃ key diagrams,
    getKeyDataAtIndex circleIndex mode = Some key ∧
    getDiatonicChordDiagrams key mode tonality = Some diagrams ∧
    length diagrams = 7%nat.
Proof.
  destruct (getKeyDataAtIndex_facts circleIndex mode) as (key & Hkey & _ & Hmajor & Hminor).
  destruct (getDiatonicChordDiagrams_total key mode tonality) as (diagrams & Hdiagrams & Hlen).
  { unfold keyPitchClass in Hmajor, Hminor.
    destruct tonality.
    - destruct (parseNoteName (keyRootName key MajorTonality)); [by eexists|done].
    - destruct (parseNoteName (keyRootName key MinorTonality)); [by eexists|done]. }
  by exists key, diagrams.
Qed.

(** ** Every diagram is drawn in full *)

Lemma diagram_shape_cases (currentKey : CurrentKeyData) (spellingMode : SpellingMode)
    (tonality : Tonality) (diagrams : list DiatonicChordDiagram) (d : DiatonicChordDiagram) :
  getDiatonicChordDiagrams currentKey spellingMode tonality = Some diagrams →
  d ∈ diagrams →
  (∃ p, PREFERRED_SHAPES !! diagram_name d = Some p ∧
        diagram_shape d = buildChordShape (preferred_frets p) (Some (preferred_fingers p))) ∨
  (∃ chordTones root, diagram_shape d = getBestVoicingShape chordTones root).
Proof.
  unfold getDiatonicChordDiagrams. intros Hsome Hd.
  apply bind_Some in Hsome as (scaleNotes & _ & Hmap).
  apply mapM_Some_1 in Hmap.
  apply list_elem_of_lookup in Hd as [k Hk].
  destruct (Forall2_lookup_r _ _ _ _ _ Hmap Hk) as ([index note] & _ & Hentry).
  apply bind_Some in Hentry as (tone0 & _ & Hentry).
  apply bind_Some in Hentry as (tone2 & _ & Hentry).
  apply bind_Some in Hentry as (tone4 & _ & Hentry).
  injection Hentry as <-. cbn [diagram_name diagram_shape].
  match goal with |- context [PREFERRED_SHAPES !! ?name] =>
    destruct (PREFERRED_SHAPES !! name) as [p|] end.
  - left. by exists p.
  - right. by eexists _, _.
Qed.

Lemma preferred_shapes_drawn (name : string) (p : PreferredShape) :
  PREFERRED_SHAPES !! name = Some p →
  fullyDrawn (buildChordShape (preferred_frets p) (Some (preferred_fingers p))) = true.
Proof.
  intros Hp. unfold PREFERRED_SHAPES in Hp. apply elem_of_list_to_map_2 in Hp.
  match type of Hp with
  | _ ∈ ?shapes =>
      assert (Forall (λ entry,
                fullyDrawn (buildChordShape (preferred_frets entry.2)
                              (Some (preferred_fingers entry.2))) = true) shapes) as Hall
        by by_evaluation
  end.
  rewrite Forall_forall in Hall. exact (Hall _ Hp).
Qed.

Lemma driver_shape_length (chordTones : list PitchClass) (root : Z) :
  length (shape_frets (getBestVoicingShape chordTones root)) = 6%nat.
Proof.
  destruct (getBestVoicingShape_cases chordTones root)
    as [->|(sf & sv & _ & Hsv & ->)]; [done|].
  change (shape_frets (buildChordShape (frets (voicing sv)) None)) with (frets (voicing sv)).
  eapply recorded_length, generate_recorded, Hsv.
Qed.

Lemma driver_shape_drawn (chordTones : list PitchClass) (root : Z) :
  fullyDrawn (getBestVoicingShape chordTones root) = true.
Proof.
  unfold fullyDrawn. apply andb_true_intro. split.
  { unfold diagram_marks. rewrite length_imap, driver_shape_length. done. }
  apply forallb_forall. intros mark Hmark%list_elem_of_In.
  unfold diagram_marks in Hmark.
  apply elem_of_lookup_imap in Hmark as (i & f & -> & Hi).
  destruct (driver_shape_fully_drawn_facts chordTones root i f Hi) as [_ Hdrawn].
  destruct f as [n|]; [|by rewrite Hdrawn].
  destruct Hdrawn as [Hopen Hdot].
  destruct (decide (n = 0)) as [Hn|Hn]; [by rewrite Hopen|].
  destruct (Hdot Hn) as (k & -> & Hoffset & Hk).
  unfold markDrawn, fretCount.
  rewrite (proj2 (Z.leb_le _ _)) by lia. rewrite (proj2 (Z.ltb_lt _ _)) by lia.
  rewrite (proj2 (Z.leb_le _ _)) by lia. rewrite (proj2 (Z.leb_le _ _)) by lia. done.
Qed.

(** Every chord diagram of a key is drawn in full, whether its shape is a
    reference shape or comes from the search: it marks all six strings, a
    muted one with a cross, an open one with a circle, and a fretted one
    with a dot on one of the four visible frets labelled with a finger from
    1 to 4; no fretted note falls outside the grid or stays unlabelled. *)
Theorem every_diagram_fully_drawn (currentKey : CurrentKeyData)
    (spellingMode : SpellingMode) (tonality : Tonality)
    (diagrams : list DiatonicChordDiagram) (d : DiatonicChordDiagram) :
  getDiatonicChordDiagrams currentKey spellingMode tonality = Some diagrams →
  d ∈ diagrams →
  fullyDrawn (diagram_shape d) = true.
Proof.
  intros Hsome Hd.
  destruct (diagram_shape_cases _ _ _ _ _ Hsome Hd) as [(p & Hp & ->)|(tones & root & ->)].
  - by eapply preferred_shapes_drawn.
  - apply driver_shape_drawn.
Qed.

Lemma every_diagram_fully_drawn_witness :
  ∃ diagrams d,
    getDiatonicChordDiagrams {| index := 3; major := "A"; minor := "F#m" |} Auto MajorTonality
      = Some diagrams ∧
    diagrams !! 6%nat = Some d ∧ diagram_name d = "G#dim" ∧
    fullyDrawn (diagram_shape d) = true.
Proof.
  destruct (getDiatonicChordDiagrams {| index := 3; major := "A"; minor := "F#m" |}
              Auto MajorTonality) as [diagrams|] eqn:Hd;
    [|vm_compute in Hd; discriminate].
  pose proof (λ d, every_diagram_fully_drawn _ _ _ _ d Hd) as Hthm.
  assert (∃ d, diagrams !! 6%nat = Some d ∧ diagram_name d = "G#dim") as (d & Hk & Hname).
  { clear Hthm. vm_compute in Hd. injection Hd as <-. eexists. split; reflexivity. }
  exists diagrams, d. split; [reflexivity|]. split; [exact Hk|]. split; [exact Hname|].
  apply Hthm. by eapply list_elem_of_lookup_2.
Defined.

(** ** The minor suffix and the tritone substitution *)

Lemma substring_app_prefix (s t : string) :
  String.substring 0 (String.length s) (s +:+ t) = s.
Proof.
  induction s as [|c s IH]; simpl.
  - by destruct t.
  - by rewrite IH.
Qed.

Lemma substring_app_suffix (s t : string) :
  String.substring (String.length s) (String.length t) (s +:+ t) = t.
Proof.
  induction s as [|c s IH]; [|done].
  change ("" +:+ t) with t. change (String.length "") with 0%nat.
  induction t as [|c t IHt]; simpl; [done|]. by rewrite IHt.
Qed.

Lemma length_app_string (s t : string) :
  String.length (s +:+ t) = (String.length s + String.length t)%nat.
Proof. induction s as [|c s IH]; simpl; [done|]. by rewrite IH. Qed.

(** Stripping undoes the minor suffix: a name followed by ["m"] is cut back
    to the name, whatever the name is. *)
Theorem minor_suffix_round_trip (name : string) :
  stripMinorSuffix (name +:+ "m") = name.
Proof.
  unfold stripMinorSuffix, String_endsWith, String_dropLast.
  rewrite length_app_string. cbn [String.length].
  replace (String.length name + 1 - 1)%nat with (String.length name) by lia.
  pose proof (substring_app_suffix name "m") as Hsuffix.
  cbn [String.length] in Hsuffix. rewrite Hsuffix, substring_app_prefix.
  rewrite bool_decide_eq_true_2 by done.
  replace (1 <=? String.length name + 1)%nat with true
    by (symmetry; apply Nat.leb_le; lia).
  done.
Qed.

(** The chord shown as tritone substitution lies a tritone away: for the key
    [getKeyDataAtIndex] returns at any position and in any spelling mode,
    [getTritoneSub] of the key's index names a root six semitones from the
    key's major tonic. *)
Theorem tritone_substitution_is_a_tritone (circleIndex : Z) (mode : SpellingMode) :
  ∃ key label pc,
    getKeyDataAtIndex circleIndex mode = Some key ∧
    getTritoneSub (index key) = Some label ∧
    keyPitchClass key MajorTonality = Some pc ∧
    parsed_pitchClass <$> parseNoteName label = Some ((pc + 6) `mod` 12).
Proof.
  destruct (getKeyDataAtIndex_facts circleIndex mode) as (key & Hkey & Hindex & Hmajor & _).
  pose proof (Z.mod_pos_bound circleIndex 12 ltac:(lia)) as Hrange.
  assert (∃ label, getTritoneSub (index key) = Some label ∧
            parsed_pitchClass <$> parseNoteName label
            = Some ((7 * index key + 6) `mod` 12)) as (label & Hlabel & Hpc).
  { rewrite Hindex.
    assert (circleIndex `mod` 12 ∈ seqZ 0 12) as Hn by (apply elem_of_seqZ; lia).
    revert Hn. generalize (circleIndex `mod` 12). intros n Hn. cbv in Hn.
    repeat (apply elem_of_cons in Hn as [->|Hn];
            [eexists; split; [vm_compute; reflexivity|vm_compute; reflexivity]|]).
    by apply elem_of_nil in Hn. }
  exists key, label, ((7 * circleIndex) `mod` 12).
  split; [exact Hkey|]. split; [exact Hlabel|]. split; [exact Hmajor|].
  rewrite Hpc, Hindex. f_equal. Z.to_euclidean_division_equations; lia.
Qed.
